(** * Vector<T>: a growable array over raw storage (src/vector.h)

    The development embeds the container of [src/vector.h] over an explicit
    store: vector objects live in an object table, their element storage lives
    in a heap of blocks, and every method is a computation that either
    returns, throws, or leaves the behaviour undefined.  Sizes are [size_t]
    values: naturals below [2^64] with the wrap-around written out. *)

From stdpp Require Import gmap list.

Open Scope N_scope.

(** ** size_t arithmetic *)

Module SizeT.

Definition modulus : N := 2 ^ 64.

Definition wrap (x : N) : N := x mod modulus.

Definition add (a b : N) : N := wrap (a + b).

Definition sub (a b : N) : N := wrap (a + modulus - wrap b).

Definition mul (a b : N) : N := wrap (a * b).

Lemma modulus_gt_1 : 1 < modulus.
Proof. reflexivity. Qed.

Lemma wrap_small x : x < modulus → wrap x = x.
Proof. intros H. unfold wrap. by apply N.mod_small. Qed.

Lemma wrap_lt x : wrap x < modulus.
Proof. unfold wrap. by apply N.mod_upper_bound. Qed.

Lemma wrap_le x : wrap x ≤ x.
Proof. unfold wrap. apply N.Div0.mod_le. Qed.

Lemma sub_small a b : b ≤ a → a < modulus → sub a b = a - b.
Proof.
  intros Hba Ha. unfold sub.
  rewrite (wrap_small b) by lia.
  replace (a + modulus - b) with ((a - b) + 1 * modulus) by lia.
  unfold wrap. rewrite N.Div0.mod_add. apply N.mod_small. lia.
Qed.

Lemma add_small a b : a + b < modulus → add a b = a + b.
Proof. apply wrap_small. Qed.

Lemma mul2_overflow c : c < modulus → modulus ≤ c * 2 → mul c 2 < c.
Proof.
  intros Hc Hov. unfold mul, wrap.
  replace (c * 2) with ((c * 2 - modulus) + 1 * modulus) by lia.
  rewrite N.Div0.mod_add. rewrite N.mod_small; lia.
Qed.

End SizeT.

(** ** The element type

    [Vector<T>] is generic.  What the container uses of [T] is collected in
    a class: the value a default construction yields, the state a moved-from
    object is left in, [operator==] and [operator<] on elements, and
    [sizeof(T)].  Copy and move construction produce an object equal to the
    source (the CopyConstructible and MoveConstructible requirements); a copy
    leaves the source alone, a move leaves [moved_from] behind.

    [default_value] is the value-initialised object [T()].  A
    default-initialisation (what [std::uninitialized_default_construct_n]
    performs) yields it when [T] has a default constructor to call; for a
    trivially default constructible [T] (a scalar such as [int]) it
    performs no initialisation at all and the object holds an indeterminate
    value. *)

Class Element (T : Type) := {
  default_value : T;
  trivial_default : bool;
  moved_from : T → T;
  elem_eqb : T → T → bool;
  elem_ltb : T → T → bool;
  sizeof : N;
  sizeof_pos : 0 < sizeof;
  sizeof_size_t : sizeof < SizeT.modulus;
}.

(** ** Store *)

Definition addr := positive.
Definition obj := positive.

(** [T*]: [None] is [nullptr]. *)
Definition Pointer := option addr.

(** A block of storage is a list of slots; a slot is raw ([None]) or holds
    a live object. *)

Record Vector := mkVector {
  size_ : N;
  capacity_ : N;
  data_ : Pointer;
}.

(** The two fault schedules say, for each coming element construction
    (resp. allocation), whether it fails; an exhausted schedule never
    fails.  [indeterminate] lists the values that the objects left without
    initialisation will be found to hold, in the order in which they come
    into existence: what their storage happens to contain is not the
    program's choice. *)
Record State (T : Type) := mkState {
  objs : gmap obj Vector;
  heap : gmap addr (list (option T));
  ctor_faults : list bool;
  alloc_faults : list bool;
  indeterminate : nat → T;
}.
Arguments mkState {T}.
Arguments objs {T}.
Arguments heap {T}.
Arguments ctor_faults {T}.
Arguments alloc_faults {T}.
Arguments indeterminate {T}.

Inductive exn := ArrayOutOfRange | ElementFailure | BadAlloc.

Inductive outcome (S A : Type) :=
  | Ok (a : A) (s : S)
  | Throw (e : exn) (s : S)
  | Undefined.
Arguments Ok {S A}.
Arguments Throw {S A}.
Arguments Undefined {S A}.

(** A reference to an element passed into a method: an object of the caller
    outside every vector, or a slot of some block (for instance an element
    of the vector the method is called on). *)
Inductive ref (T : Type) :=
  | Ext (x : T)
  | Slot (p : Pointer) (i : N).
Arguments Ext {T}.
Arguments Slot {T}.

(** The arguments of a constructor call [T(args...)]: values of the
    caller, from which the constructor builds the object [x]; or one
    [const T&], which selects the copy constructor; or one [T&&], which
    selects the move constructor.  As with [PushBack], the reference may
    be to an element of the vector itself. *)
Inductive ctor_args (T : Type) :=
  | FromValues (x : T)
  | FromCopy (r : ref T)
  | FromMove (r : ref T).
Arguments FromValues {T}.
Arguments FromCopy {T}.
Arguments FromMove {T}.

Section Machine.

Context {T : Type} `{Element T}.

Definition M (A : Type) : Type := State T → outcome (State T) A.

Definition ret {A} (a : A) : M A := λ s, Ok a s.

Definition bind {A B} (m : M A) (f : A → M B) : M B :=
  λ s, match m s with
       | Ok a s' => f a s'
       | Throw e s' => Throw e s'
       | Undefined => Undefined
       end.

Definition throw {A} (e : exn) : M A := λ s, Throw e s.

Definition undefined {A} : M A := λ _, Undefined.

(** [try { body } catch (...) { cleanup; throw; }] *)
Definition on_throw {A} (body : M A) (cleanup : M unit) : M A :=
  λ s, match body s with
       | Ok a s' => Ok a s'
       | Throw e s' =>
           match cleanup s' with
           | Ok _ s'' => Throw e s''
           | Throw e' s'' => Throw e' s''
           | Undefined => Undefined
           end
       | Undefined => Undefined
       end.

#[global] Instance M_ret : MRet M := @ret.
#[global] Instance M_bind : MBind M := λ A B f m, bind m f.

(** *** Object fields *)

Definition get_obj (this : obj) : M Vector :=
  λ s, match objs s !! this with
       | Some v => Ok v s
       | None => Undefined
       end.

Definition put_obj (this : obj) (v : Vector) : M unit :=
  λ s, Ok () (mkState (<[this := v]> (objs s)) (heap s) (ctor_faults s) (alloc_faults s) (indeterminate s)).

Definition drop_obj (this : obj) : M unit :=
  λ s, Ok () (mkState (delete this (objs s)) (heap s) (ctor_faults s) (alloc_faults s) (indeterminate s)).

Definition get_size (this : obj) : M N := v ← get_obj this; ret (size_ v).
Definition get_capacity (this : obj) : M N := v ← get_obj this; ret (capacity_ v).
Definition get_data (this : obj) : M Pointer := v ← get_obj this; ret (data_ v).

Definition set_size (this : obj) (n : N) : M unit :=
  v ← get_obj this; put_obj this (mkVector n (capacity_ v) (data_ v)).
Definition set_capacity (this : obj) (n : N) : M unit :=
  v ← get_obj this; put_obj this (mkVector (size_ v) n (data_ v)).
Definition set_data (this : obj) (p : Pointer) : M unit :=
  v ← get_obj this; put_obj this (mkVector (size_ v) (capacity_ v) p).

(** *** Raw storage: [operator new], [operator delete] *)

Definition fresh_addr (h : gmap addr (list (option T))) : addr := fresh (dom h).

(** [operator new(bytes)]: throws [std::bad_alloc] when the provider fails,
    else hands out a fresh block; the block holds [bytes / sizeof(T)] raw
    slots of [T]. *)
Definition operator_new (bytes : N) : M addr :=
  λ s, match alloc_faults s with
       | true :: fs => Throw BadAlloc (mkState (objs s) (heap s) (ctor_faults s) fs (indeterminate s))
       | fs =>
           let a := fresh_addr (heap s) in
           Ok a (mkState (objs s)
                   (<[a := replicate (N.to_nat (bytes / sizeof)) None]> (heap s))
                   (ctor_faults s) (tail fs) (indeterminate s))
       end.

(** [operator delete(p)] on a pointer that is not a live block is undefined. *)
Definition operator_delete (a : addr) : M unit :=
  λ s, match heap s !! a with
       | Some _ => Ok () (mkState (objs s) (delete a (heap s)) (ctor_faults s) (alloc_faults s) (indeterminate s))
       | None => Undefined
       end.

(** *** Slots *)

Definition slot_at (h : gmap addr (list (option T))) (p : Pointer) (i : N)
  : option (option T) :=
  a ← p; b ← h !! a; b !! N.to_nat i.

(** Reading [p[i]]: the slot must hold a live object. *)
Definition load (p : Pointer) (i : N) : M T :=
  λ s, match slot_at (heap s) p i with
       | Some (Some x) => Ok x s
       | _ => Undefined
       end.

(** Writing slot [p[i]]: the slot must be storage of a live block. *)
Definition write_slot (p : Pointer) (i : N) (x : option T) : M unit :=
  λ s, match p with
       | Some a =>
           match heap s !! a with
           | Some b =>
               if decide (N.to_nat i < length b)%nat
               then Ok () (mkState (objs s) (<[a := <[N.to_nat i := x]> b]> (heap s))
                             (ctor_faults s) (alloc_faults s) (indeterminate s))
               else Undefined
           | None => Undefined
           end
       | None => Undefined
       end.

(** The storage check of a placement new. *)
Definition check_storage (p : Pointer) (i : N) : M unit :=
  λ s, match slot_at (heap s) p i with
       | Some _ => Ok () s
       | None => Undefined
       end.

(** *** Element constructors and destructor *)

(** Every constructor call of [T] consults the fault schedule. *)
Definition ctor_may_throw : M unit :=
  λ s, match ctor_faults s with
       | true :: fs => Throw ElementFailure (mkState (objs s) (heap s) fs (alloc_faults s) (indeterminate s))
       | fs => Ok () (mkState (objs s) (heap s) (tail fs) (alloc_faults s) (indeterminate s))
       end.

Definition read_ref (r : ref T) : M T :=
  match r with
  | Ext x => ret x
  | Slot p i => load p i
  end.

(** An object that comes into existence without initialisation: its value
    is the next indeterminate one. *)
Definition uninitialized_object : M T :=
  λ s, Ok (indeterminate s 0)
          (mkState (objs s) (heap s) (ctor_faults s) (alloc_faults s)
             (λ n, indeterminate s (S n))).

(** Default-initialisation, [::new (p) T]: a call of the default
    constructor, or nothing at all for a trivially default constructible
    [T]. *)
Definition default_ctor : M T :=
  if trivial_default then uninitialized_object
  else ctor_may_throw ;; ret default_value.

(** [T(const T&)] *)
Definition copy_ctor (r : ref T) : M T := x ← read_ref r; ctor_may_throw ;; ret x.

(** [T(T&&)]: on success the source is left in its moved-from state. *)
Definition move_ctor (r : ref T) : M T :=
  x ← read_ref r;
  ctor_may_throw ;;
  match r with
  | Ext _ => ret ()
  | Slot p i => write_slot p i (Some (moved_from x))
  end ;;
  ret x.

(** [new (p + i) T(...)] *)
Definition placement_new (p : Pointer) (i : N) (init : M T) : M unit :=
  check_storage p i ;;
  x ← init;
  write_slot p i (Some x).

(** [std::destroy_at(p + i)]: the slot must hold a live object. *)
Definition destroy_at (p : Pointer) (i : N) : M unit :=
  load p i ;; write_slot p i None.

(** *** <memory> algorithms *)

Fixpoint destroy_n (p : Pointer) (first : N) (n : nat) : M unit :=
  match n with
  | O => ret ()
  | S n' => destroy_at p first ;; destroy_n p (first + 1) n'
  end.

(** [std::destroy(p + first, p + last)] *)
Definition destroy (p : Pointer) (first last : N) : M unit :=
  if decide (first ≤ last) then destroy_n p first (N.to_nat (last - first))
  else undefined.

(** The common loop of the [std::uninitialized_*] algorithms: construct
    [dst[first + k]], ..., one by one; when a construction throws, destroy
    what this call has constructed and rethrow. *)
Fixpoint uninitialized_loop (init : N → M T) (dst : Pointer) (first : N)
    (k : nat) (todo : nat) : M unit :=
  match todo with
  | O => ret ()
  | S todo' =>
      on_throw (placement_new dst (first + N.of_nat k) (init (N.of_nat k)))
               (destroy_n dst first k) ;;
      uninitialized_loop init dst first (S k) todo'
  end.

Definition uninitialized_default_construct_n (dst : Pointer) (first : N) (n : N) : M unit :=
  uninitialized_loop (λ _, default_ctor) dst first 0 (N.to_nat n).

Definition uninitialized_fill_n (dst : Pointer) (first : N) (n : N) (value : ref T) : M unit :=
  uninitialized_loop (λ _, copy_ctor value) dst first 0 (N.to_nat n).

(** [std::uninitialized_copy(src, src + n, dst)] *)
Definition uninitialized_copy (src : Pointer) (n : N) (dst : Pointer) : M unit :=
  uninitialized_loop (λ i, copy_ctor (Slot src i)) dst 0 0 (N.to_nat n).

(** [std::uninitialized_copy(first, last, dst)] from a caller's sequence. *)
Definition uninitialized_copy_list (xs : list T) (dst : Pointer) : M unit :=
  uninitialized_loop (λ i, copy_ctor (Ext (default (default_value) (xs !! N.to_nat i))))
    dst 0 0 (length xs).

(** [std::uninitialized_move(src, src + n, dst)] *)
Definition uninitialized_move (src : Pointer) (n : N) (dst : Pointer) : M unit :=
  uninitialized_loop (λ i, move_ctor (Slot src i)) dst 0 0 (N.to_nat n).

(** *** <algorithm> on element ranges *)

(** [std::equal(p1, p1 + n, p2)] *)
Fixpoint equal_from (p1 : Pointer) (p2 : Pointer) (i : N) (n : nat) : M bool :=
  match n with
  | O => ret true
  | S n' =>
      x ← load p1 i;
      y ← load p2 i;
      if elem_eqb x y then equal_from p1 p2 (i + 1) n' else ret false
  end.

Definition std_equal (p1 : Pointer) (n : N) (p2 : Pointer) : M bool :=
  equal_from p1 p2 0 (N.to_nat n).

(** [std::lexicographical_compare(p1, p1 + n1, p2, p2 + n2)]: walk both
    ranges while neither is exhausted; the first position where one element
    is less than the other decides; else the shorter range is the smaller. *)
Fixpoint lexicographical_from (p1 : Pointer) (p2 : Pointer) (i : N)
    (n1 n2 : nat) : M bool :=
  match n1, n2 with
  | S n1', S n2' =>
      x ← load p1 i;
      y ← load p2 i;
      if elem_ltb x y then ret true
      else if elem_ltb y x then ret false
      else lexicographical_from p1 p2 (i + 1) n1' n2'
  | O, S _ => ret true
  | _, O => ret false
  end.

Definition lexicographical_compare (p1 : Pointer) (n1 : N) (p2 : Pointer) (n2 : N)
  : M bool :=
  lexicographical_from p1 p2 0 (N.to_nat n1) (N.to_nat n2).

(** ** The methods of [Vector<T>] *)

Definition Allocate (n : N) : M Pointer :=
  if n =? 0 then ret None
  else a ← operator_new (SizeT.mul n sizeof); ret (Some a).

Definition Deallocate (p : Pointer) : M unit :=
  match p with
  | Some a => operator_delete a
  | None => ret ()
  end.

(** A constructor runs at the object [this]; when its body throws, the
    object never comes into existence. *)

(** [Vector()] *)
Definition Vector_default (this : obj) : M unit :=
  put_obj this (mkVector 0 0 None).

(** [explicit Vector(SizeType size)] *)
Definition Vector_sized (this : obj) (size : N) : M unit :=
  p ← Allocate size;
  put_obj this (mkVector size size p) ;;
  on_throw (uninitialized_default_construct_n p 0 size)
           (Deallocate p ;; drop_obj this).

(** [Vector(SizeType size, const T& value)] *)
Definition Vector_fill (this : obj) (size : N) (value : ref T) : M unit :=
  p ← Allocate size;
  put_obj this (mkVector size size p) ;;
  on_throw (uninitialized_fill_n p 0 size value)
           (Deallocate p ;; drop_obj this).

(** [Vector(Iterator first, Iterator last)] and
    [Vector(std::initializer_list<T> init)]: the source sequence is the
    caller's. *)
Definition Vector_range (this : obj) (xs : list T) : M unit :=
  let size := N.of_nat (length xs) in
  p ← Allocate size;
  put_obj this (mkVector size size p) ;;
  on_throw (uninitialized_copy_list xs p)
           (Deallocate p ;; drop_obj this).

Definition Vector_init_list (this : obj) (init : list T) : M unit :=
  let size := N.of_nat (length init) in
  p ← Allocate size;
  put_obj this (mkVector size size p) ;;
  on_throw (uninitialized_copy_list init p)
           (Deallocate p ;; drop_obj this).

(** [Vector(const Vector& other)] *)
Definition Vector_copy (this other : obj) : M unit :=
  o ← get_obj other;
  p ← Allocate (capacity_ o);
  put_obj this (mkVector (size_ o) (capacity_ o) p) ;;
  on_throw (uninitialized_copy (data_ o) (size_ o) p)
           (Deallocate p ;; drop_obj this).

(** [Vector(Vector&& other) noexcept] *)
Definition Vector_move (this other : obj) : M unit :=
  o ← get_obj other;
  put_obj this (mkVector (size_ o) (capacity_ o) (data_ o)) ;;
  set_size other 0 ;;
  set_capacity other 0 ;;
  set_data other None.

Definition Size (this : obj) : M N := get_size this.

Definition Capacity (this : obj) : M N := get_capacity this.

Definition Empty (this : obj) : M bool := n ← get_size this; ret (n =? 0).

(** [operator[]]: no check. *)
Definition index (this : obj) (i : N) : M T :=
  d ← get_data this; load d i.

Definition At (this : obj) (i : N) : M T :=
  n ← get_size this;
  if n <=? i then throw ArrayOutOfRange
  else d ← get_data this; load d i.

Definition Front (this : obj) : M T :=
  d ← get_data this; load d 0.

Definition Back (this : obj) : M T :=
  d ← get_data this; n ← get_size this; load d (SizeT.sub n 1).

Definition Data (this : obj) : M Pointer := get_data this.

(** [std::swap] on each of the three members. *)
Definition Swap (this other : obj) : M unit :=
  a ← get_size this; b ← get_size other;
  set_size this b ;; set_size other a ;;
  a ← get_capacity this; b ← get_capacity other;
  set_capacity this b ;; set_capacity other a ;;
  a ← get_data this; b ← get_data other;
  set_data this b ;; set_data other a.

Definition Clear (this : obj) : M unit :=
  d ← get_data this;
  match d with
  | Some _ =>
      n ← get_size this;
      destroy d 0 n ;;
      set_size this 0
  | None => ret ()
  end.

(** [~Vector()] *)
Definition Vector_dtor (this : obj) : M unit :=
  Clear this ;;
  d ← get_data this;
  Deallocate d ;;
  drop_obj this.

Definition fresh_obj : M obj := λ s, Ok (fresh (dom (objs s))) s.

(** [Vector& operator=(const Vector& other)]: the temporary [tmp] lives
    until the end of the block. *)
Definition copy_assign (this other : obj) : M unit :=
  if decide (this ≠ other) then
    tmp ← fresh_obj;
    Vector_copy tmp other ;;
    Swap this tmp ;;
    Vector_dtor tmp
  else ret ().

(** [Vector& operator=(Vector&& other) noexcept] *)
Definition move_assign (this other : obj) : M unit :=
  if decide (this ≠ other) then
    Clear this ;;
    d ← get_data this;
    Deallocate d ;;
    o ← get_obj other;
    set_size this (size_ o) ;;
    set_capacity this (capacity_ o) ;;
    set_data this (data_ o) ;;
    set_size other 0 ;;
    set_capacity other 0 ;;
    set_data other None
  else ret ().

(** The growth transaction shared by [Resize], [Reserve], [ShrinkToFit],
    [PushBack] and [EmplaceBack]: transfer the live elements into
    [new_data], run [extra] there, and on a throw destroy
    [new_data[0, size_)] and release [new_data]; then tear the old storage
    down and adopt the new one. *)
Definition regrow (this : obj) (new_capacity : N) (extra : Pointer → N → M unit)
  : M unit :=
  new_data ← Allocate new_capacity;
  d ← get_data this;
  n ← get_size this;
  on_throw (uninitialized_move d n new_data ;; extra new_data n)
           (destroy new_data 0 n ;; Deallocate new_data) ;;
  destroy d 0 n ;;
  Deallocate d ;;
  set_data this new_data ;;
  set_capacity this new_capacity.

Definition Resize (this : obj) (new_size : N) : M unit :=
  c ← get_capacity this;
  n ← get_size this;
  d ← get_data this;
  (if c <? new_size then
     regrow this new_size
       (λ new_data n, uninitialized_default_construct_n new_data n (SizeT.sub new_size n))
   else if new_size <? n then
     destroy d new_size n
   else
     uninitialized_default_construct_n d n (SizeT.sub new_size n)) ;;
  set_size this new_size.

Definition Resize_value (this : obj) (new_size : N) (value : ref T) : M unit :=
  c ← get_capacity this;
  n ← get_size this;
  d ← get_data this;
  (if c <? new_size then
     regrow this new_size
       (λ new_data n, uninitialized_fill_n new_data n (SizeT.sub new_size n) value)
   else if new_size <? n then
     destroy d new_size n
   else
     uninitialized_fill_n d n (SizeT.sub new_size n) value) ;;
  set_size this new_size.

Definition Reserve (this : obj) (new_cap : N) : M unit :=
  c ← get_capacity this;
  if c <? new_cap then regrow this new_cap (λ _ _, ret ())
  else ret ().

Definition ShrinkToFit (this : obj) : M unit :=
  n ← get_size this;
  c ← get_capacity this;
  if n =? 0 then
    d ← get_data this;
    Deallocate d ;;
    set_data this None ;;
    set_capacity this 0
  else if n <? c then
    regrow this n (λ _ _, ret ())
  else ret ().

(** The tail insertions differ only in how the new element is built:
    [T(value)], [T(std::move(value))], [T(std::forward<Args>(args)...)]. *)
Definition push_with (this : obj) (init : M T) : M unit :=
  n ← get_size this;
  c ← get_capacity this;
  (if n =? c then
     let new_capacity := if c =? 0 then 1 else SizeT.mul c 2 in
     regrow this new_capacity (λ new_data n, placement_new new_data n init)
   else
     d ← get_data this;
     placement_new d n init) ;;
  n ← get_size this;
  set_size this (SizeT.add n 1).

(** [void PushBack(const T& value)] *)
Definition PushBack (this : obj) (value : ref T) : M unit :=
  push_with this (copy_ctor value).

(** [void PushBack(T&& value)] *)
Definition PushBack_move (this : obj) (value : ref T) : M unit :=
  push_with this (move_ctor value).

(** [T(std::forward<Args>(args)...)] *)
Definition construct (args : ctor_args T) : M T :=
  match args with
  | FromValues x => ctor_may_throw ;; ret x
  | FromCopy r => copy_ctor r
  | FromMove r => move_ctor r
  end.

(** [EmplaceBack(args...)] *)
Definition EmplaceBack (this : obj) (args : ctor_args T) : M unit :=
  push_with this (construct args).

Definition PopBack (this : obj) : M unit :=
  n ← get_size this;
  if 0 <? n then
    d ← get_data this;
    destroy_at d (SizeT.sub n 1) ;;
    set_size this (SizeT.sub n 1)
  else ret ().

(** [begin()] and [end()] as (base, offset); [cbegin], [cend] and the const
    overloads return the same, the reverse iterators wrap [end()] and
    [begin()]. *)
Definition begin_ (this : obj) : M (Pointer * N) :=
  d ← get_data this; ret (d, 0).

Definition end_ (this : obj) : M (Pointer * N) :=
  d ← get_data this; n ← get_size this; ret (d, n).

Definition rbegin (this : obj) : M (Pointer * N) := end_ this.

Definition rend (this : obj) : M (Pointer * N) := begin_ this.

Definition op_eq (this other : obj) : M bool :=
  a ← get_obj this;
  b ← get_obj other;
  if size_ a =? size_ b then std_equal (data_ a) (size_ a) (data_ b)
  else ret false.

Definition op_ne (this other : obj) : M bool :=
  r ← op_eq this other; ret (negb r).

Definition op_lt (this other : obj) : M bool :=
  a ← get_obj this;
  b ← get_obj other;
  lexicographical_compare (data_ a) (size_ a) (data_ b) (size_ b).

Definition op_gt (this other : obj) : M bool := op_lt other this.

Definition op_le (this other : obj) : M bool :=
  r ← op_lt other this; ret (negb r).

Definition op_ge (this other : obj) : M bool :=
  r ← op_lt this other; ret (negb r).

End Machine.

(** ** What a vector holds *)

Section Abstraction.

Context {T : Type} `{Element T}.

(** The objects alive in the first [n] slots of a block, if all are. *)
Fixpoint live_prefix (n : nat) (b : list (option T)) : option (list T) :=
  match n with
  | O => Some []
  | S n' =>
      match b with
      | Some x :: b' => cons x <$> live_prefix n' b'
      | _ => None
      end
  end.

(** The elements [data_[0], ..., data_[size_ - 1]] of a vector. *)
Definition elements (s : State T) (v : Vector) : option (list T) :=
  match data_ v with
  | Some a => b ← heap s !! a; live_prefix (N.to_nat (size_ v)) b
  | None => if size_ v =? 0 then Some [] else None
  end.

(** The object a reference refers to, if it is alive. *)
Definition referent (s : State T) (r : ref T) : option T :=
  match r with
  | Ext x => Some x
  | Slot p i =>
      match slot_at (heap s) p i with
      | Some (Some x) => Some x
      | _ => None
      end
  end.

(** The block a reference points into. *)
Definition ref_block (r : ref T) : Pointer :=
  match r with
  | Ext _ => None
  | Slot p _ => p
  end.

(** [r] does not refer to an element of [v]: it is an object of the caller,
    or lies in another block than the storage of [v]. *)
Definition outside (r : ref T) (v : Vector) : Prop :=
  match r with
  | Ext _ => True
  | Slot p _ => p ≠ data_ v
  end.

(** The object that [T(std::forward<Args>(args)...)] builds in state [s]. *)
Definition built (s : State T) (args : ctor_args T) : option T :=
  match args with
  | FromValues x => Some x
  | FromCopy r | FromMove r => referent s r
  end.

(** The constructor arguments refer to no element of [v]. *)
Definition args_outside (args : ctor_args T) (v : Vector) : Prop :=
  match args with
  | FromValues _ => True
  | FromCopy r | FromMove r => outside r v
  end.

(** The representation invariant on the three members; the members are
    [size_t] values. *)
Definition rep_inv (v : Vector) : Prop :=
  size_ v ≤ capacity_ v ∧
  capacity_ v < SizeT.modulus ∧
  (is_Some (data_ v) → 0 < capacity_ v).

(** The empty state of a vector: no elements, no capacity, no storage. *)
Definition empty_vector : Vector := mkVector 0 0 None.

Lemma live_prefix_Some n b l :
  live_prefix n b = Some l ↔ length l = n ∧ ∃ rest, b = (Some <$> l) ++ rest.
Proof.
  revert b l. induction n as [|n IH]; intros b l; simpl.
  - split.
    + intros [= <-]. split; [done|]. by exists b.
    + intros [Hl _]. destruct l; [done|discriminate].
  - destruct b as [|[x|] b]; simpl.
    + split; [done|]. intros [Hl [rest Hr]]. destruct l; simplify_eq/=.
    + split.
      * intros Hx. destruct (live_prefix n b) as [l'|] eqn:E; simplify_eq/=.
        apply IH in E as [Hl [rest ->]]. split; [by rewrite Hl|]. by exists rest.
      * intros [Hl [rest Hr]]. destruct l as [|y l]; simplify_eq/=.
        assert (live_prefix (length l) ((Some <$> l) ++ rest) = Some l) as ->; [|done].
        apply IH. split; [done|]. by exists rest.
    + split; [done|]. intros [Hl [rest Hr]]. destruct l; simplify_eq/=.
Qed.

Lemma live_prefix_app l rest : live_prefix (length l) ((Some <$> l) ++ rest) = Some l.
Proof. apply live_prefix_Some. split; [done|]. by exists rest. Qed.

Lemma elements_Some s v l :
  elements s v = Some l ↔
  size_ v = N.of_nat (length l) ∧
  match data_ v with
  | Some a => ∃ rest, heap s !! a = Some ((Some <$> l) ++ rest)
  | None => l = []
  end.
Proof.
  unfold elements. destruct (data_ v) as [a|].
  - destruct (heap s !! a) as [b|] eqn:E; simpl.
    + rewrite live_prefix_Some. split.
      * intros [Hl [rest ->]]. split; [lia|]. by exists rest.
      * intros [Hl [rest [= ->]]]. split; [lia|]. by exists rest.
    + split; [done|]. by intros [_ [? ?]].
  - destruct (N.eqb_spec (size_ v) 0) as [E|E].
    + split.
      * intros [= <-]. by rewrite E.
      * intros [_ ->]. done.
    + split; [done|]. intros [Hl ->]. simpl in Hl. done.
Qed.

End Abstraction.

(** ** Reasoning about computations *)

Section Rules.

Context {T : Type} `{Element T}.

Implicit Types s : State T.

Lemma bind_Ok {A B} (m : M A) (f : A → M B) s b s2 :
  (m ≫= f) s = Ok b s2 ↔ ∃ a s1, m s = Ok a s1 ∧ f a s1 = Ok b s2.
Proof.
  unfold mbind, M_bind, bind. destruct (m s) as [a s1| |]; split; try done.
  - intros Hf. by exists a, s1.
  - by intros (? & ? & [= <- <-] & ?).
  - by intros (? & ? & ? & ?).
  - by intros (? & ? & ? & ?).
Qed.

Lemma bind_Throw {A B} (m : M A) (f : A → M B) s e s2 :
  (m ≫= f) s = Throw e s2 ↔
  m s = Throw e s2 ∨ ∃ a s1, m s = Ok a s1 ∧ f a s1 = Throw e s2.
Proof.
  unfold mbind, M_bind, bind. destruct (m s) as [a s1| |]; split; try done.
  - intros Hf. right. by exists a, s1.
  - by intros [|(? & ? & [= <- <-] & ?)].
  - intros [= <- <-]. by left.
  - by intros [[= <- <-]|(? & ? & ? & ?)].
  - by intros [|(? & ? & ? & ?)].
Qed.

Lemma bind_run_Ok {A B} (m : M A) (f : A → M B) s a s1 :
  m s = Ok a s1 → (m ≫= f) s = f a s1.
Proof. unfold mbind, M_bind, bind. by intros ->. Qed.

Lemma bind_run_Throw {A B} (m : M A) (f : A → M B) s e s1 :
  m s = Throw e s1 → (m ≫= f) s = Throw e s1.
Proof. unfold mbind, M_bind, bind. by intros ->. Qed.

Lemma bind_run_Undefined {A B} (m : M A) (f : A → M B) s :
  m s = Undefined → (m ≫= f) s = Undefined.
Proof. unfold mbind, M_bind, bind. by intros ->. Qed.

Lemma on_throw_Ok {A} (body : M A) cleanup s a s1 :
  on_throw body cleanup s = Ok a s1 ↔ body s = Ok a s1.
Proof.
  unfold on_throw. destruct (body s) as [? ?|? s'|]; try done.
  destruct (cleanup s'); done.
Qed.

Lemma on_throw_Throw {A} (body : M A) cleanup s e s2 :
  on_throw body cleanup s = Throw e s2 ↔
  ∃ e0 s1, body s = Throw e0 s1 ∧
    ((cleanup s1 = Ok () s2 ∧ e = e0) ∨ cleanup s1 = Throw e s2).
Proof.
  unfold on_throw. destruct (body s) as [? ?|e0 s1|]; split; try done.
  - by intros (? & ? & ? & ?).
  - destruct (cleanup s1) as [[] ?|? ?|] eqn:E; intros; simplify_eq.
    + do 2 eexists. split; [done|]. by left.
    + do 2 eexists. split; [done|]. by right.
  - intros (? & ? & [= <- <-] & [[-> ->]| ->]); done.
  - by intros (? & ? & ? & ?).
Qed.

Lemma ret_Ok {A} (a b : A) s s1 : ret a s = Ok b s1 ↔ a = b ∧ s = s1.
Proof. unfold ret. split; [by intros [= -> ->]|by intros [-> ->]]. Qed.

Lemma ret_Throw {A} (a : A) s e s1 : ret a s = Throw e s1 ↔ False.
Proof. unfold ret. done. Qed.

End Rules.

(** ** Frame properties

    No element-level step touches the members of any vector, the allocation
    schedule, or the shape of the heap (which blocks exist, and how many
    slots each has). *)

Create HintDb shape.

Section Frame.

Context {T : Type} `{Element T}.

Implicit Types s : State T.

Definition same_shape s s' : Prop :=
  objs s' = objs s ∧
  alloc_faults s' = alloc_faults s ∧
  ∀ a, length <$> heap s' !! a = length <$> heap s !! a.

Definition keeps_shape {A} (m : M A) : Prop :=
  ∀ s, match m s with
       | Ok _ s' | Throw _ s' => same_shape s s'
       | Undefined => True
       end.

Lemma same_shape_refl s : same_shape s s.
Proof. done. Qed.

Lemma same_shape_trans s1 s2 s3 :
  same_shape s1 s2 → same_shape s2 s3 → same_shape s1 s3.
Proof.
  intros (Ho & Ha & Hh) (Ho' & Ha' & Hh'). split_and!.
  - by rewrite Ho'.
  - by rewrite Ha'.
  - intros a. by rewrite Hh'.
Qed.

Lemma keeps_shape_Ok {A} (m : M A) s a s' :
  keeps_shape m → m s = Ok a s' → same_shape s s'.
Proof. intros Hm E. specialize (Hm s). by rewrite E in Hm. Qed.

Lemma keeps_shape_Throw {A} (m : M A) s e s' :
  keeps_shape m → m s = Throw e s' → same_shape s s'.
Proof. intros Hm E. specialize (Hm s). by rewrite E in Hm. Qed.

Lemma keeps_shape_ret {A} (a : A) : keeps_shape (ret a).
Proof. intros s. apply same_shape_refl. Qed.

Lemma keeps_shape_throw {A} e : keeps_shape (throw (A:=A) e).
Proof. intros s. apply same_shape_refl. Qed.

Lemma keeps_shape_undefined {A} : keeps_shape (undefined (A:=A)).
Proof. by intros s. Qed.

Lemma keeps_shape_bind {A B} (m : M A) (f : A → M B) :
  keeps_shape m → (∀ a, keeps_shape (f a)) → keeps_shape (m ≫= f).
Proof.
  intros Hm Hf s. unfold mbind, M_bind, bind.
  specialize (Hm s). destruct (m s) as [a s1|e s1|]; [|done..].
  specialize (Hf a s1). destruct (f a s1); [| |done]; by eapply same_shape_trans.
Qed.

Lemma keeps_shape_on_throw {A} (body : M A) cleanup :
  keeps_shape body → keeps_shape cleanup → keeps_shape (on_throw body cleanup).
Proof.
  intros Hb Hc s. unfold on_throw.
  specialize (Hb s). destruct (body s) as [a s1|e s1|]; [done| |done].
  specialize (Hc s1). destruct (cleanup s1); [| |done]; by eapply same_shape_trans.
Qed.

Lemma keeps_shape_load p i : keeps_shape (load p i).
Proof.
  intros s. unfold load. destruct (slot_at (heap s) p i) as [[x|]|]; try done.
Qed.

Lemma keeps_shape_check_storage p i : keeps_shape (check_storage p i).
Proof.
  intros s. unfold check_storage. destruct (slot_at (heap s) p i); done.
Qed.

Lemma keeps_shape_write_slot p i x : keeps_shape (write_slot p i x).
Proof.
  intros s. unfold write_slot. destruct p as [a|]; [|done].
  destruct (heap s !! a) as [b|] eqn:E; [|done].
  case_decide; [|done]. split_and!; [done..|]. simpl. intros a'.
  destruct (decide (a = a')) as [<-|Hne].
  - rewrite lookup_insert_eq, E. simpl. by rewrite length_insert.
  - by rewrite lookup_insert_ne.
Qed.

Lemma keeps_shape_ctor_may_throw : keeps_shape ctor_may_throw.
Proof.
  intros s. unfold ctor_may_throw. destruct (ctor_faults s) as [|[] ?]; done.
Qed.

Lemma keeps_shape_read_ref r : keeps_shape (read_ref r).
Proof. destruct r; [apply keeps_shape_ret|apply keeps_shape_load]. Qed.

Lemma keeps_shape_get_obj this : keeps_shape (get_obj this).
Proof. intros s. unfold get_obj. by destruct (objs s !! this). Qed.

Hint Resolve keeps_shape_ret keeps_shape_throw keeps_shape_undefined
  keeps_shape_load keeps_shape_check_storage keeps_shape_write_slot
  keeps_shape_ctor_may_throw keeps_shape_read_ref keeps_shape_get_obj : shape.

Ltac shape :=
  repeat first
    [ progress eauto with shape
    | apply keeps_shape_bind; [|intros ?]
    | apply keeps_shape_on_throw ].

Lemma keeps_shape_get_size this : keeps_shape (get_size this).
Proof. unfold get_size. shape. Qed.

Lemma keeps_shape_get_capacity this : keeps_shape (get_capacity this).
Proof. unfold get_capacity. shape. Qed.

Lemma keeps_shape_get_data this : keeps_shape (get_data this).
Proof. unfold get_data. shape. Qed.

Lemma keeps_shape_uninitialized_object : keeps_shape uninitialized_object.
Proof. by intros s. Qed.

Lemma keeps_shape_default_ctor : keeps_shape default_ctor.
Proof.
  unfold default_ctor. destruct trivial_default.
  - apply keeps_shape_uninitialized_object.
  - shape.
Qed.

Lemma keeps_shape_copy_ctor r : keeps_shape (copy_ctor r).
Proof. unfold copy_ctor. shape. Qed.

Lemma keeps_shape_move_ctor r : keeps_shape (move_ctor r).
Proof. unfold move_ctor. shape. destruct r; shape. Qed.

Lemma keeps_shape_placement_new p i init :
  keeps_shape init → keeps_shape (placement_new p i init).
Proof. intros Hi. unfold placement_new. shape. Qed.

Lemma keeps_shape_destroy_at p i : keeps_shape (destroy_at p i).
Proof. unfold destroy_at. shape. Qed.

Lemma keeps_shape_destroy_n p first n : keeps_shape (destroy_n p first n).
Proof.
  revert first. induction n as [|n IH]; intros first; simpl.
  - shape.
  - apply keeps_shape_bind; [apply keeps_shape_destroy_at|]. intros _. apply IH.
Qed.

Lemma keeps_shape_destroy p first last : keeps_shape (destroy p first last).
Proof.
  unfold destroy. case_decide; [apply keeps_shape_destroy_n|shape].
Qed.

Lemma keeps_shape_uninitialized_loop init dst first k todo :
  (∀ i, keeps_shape (init i)) →
  keeps_shape (uninitialized_loop init dst first k todo).
Proof.
  intros Hi. revert k. induction todo as [|todo IH]; intros k; simpl.
  - shape.
  - apply keeps_shape_bind; [|intros _; apply IH].
    apply keeps_shape_on_throw; [|apply keeps_shape_destroy_n].
    by apply keeps_shape_placement_new.
Qed.

Lemma keeps_shape_uninitialized_default_construct_n dst first n :
  keeps_shape (uninitialized_default_construct_n dst first n).
Proof.
  apply keeps_shape_uninitialized_loop. intros _. apply keeps_shape_default_ctor.
Qed.

Lemma keeps_shape_uninitialized_fill_n dst first n value :
  keeps_shape (uninitialized_fill_n dst first n value).
Proof.
  apply keeps_shape_uninitialized_loop. intros _. apply keeps_shape_copy_ctor.
Qed.

Lemma keeps_shape_uninitialized_copy src n dst :
  keeps_shape (uninitialized_copy src n dst).
Proof.
  apply keeps_shape_uninitialized_loop. intros i. apply keeps_shape_copy_ctor.
Qed.

Lemma keeps_shape_uninitialized_copy_list xs dst :
  keeps_shape (uninitialized_copy_list xs dst).
Proof.
  apply keeps_shape_uninitialized_loop. intros i. apply keeps_shape_copy_ctor.
Qed.

Lemma keeps_shape_uninitialized_move src n dst :
  keeps_shape (uninitialized_move src n dst).
Proof.
  apply keeps_shape_uninitialized_loop. intros i. apply keeps_shape_move_ctor.
Qed.

Lemma keeps_shape_equal_from p1 p2 i n : keeps_shape (equal_from p1 p2 i n).
Proof.
  revert i. induction n as [|n IH]; intros i; simpl; [shape|].
  apply keeps_shape_bind; [shape|]. intros x.
  apply keeps_shape_bind; [shape|]. intros y.
  destruct (elem_eqb x y); [apply IH|shape].
Qed.

Lemma keeps_shape_lexicographical_from p1 p2 i n1 n2 :
  keeps_shape (lexicographical_from p1 p2 i n1 n2).
Proof.
  revert i n2. induction n1 as [|n1 IH]; intros i [|n2]; simpl; try by shape.
  apply keeps_shape_bind; [shape|]. intros x.
  apply keeps_shape_bind; [shape|]. intros y.
  destruct (elem_ltb x y); [shape|]. destruct (elem_ltb y x); [shape|apply IH].
Qed.

End Frame.

(** ** Inversion of the primitive steps *)

Section Primitives.

Context {T : Type} `{Element T}.

Implicit Types s : State T.

Definition with_objs s (o : gmap obj Vector) : State T :=
  mkState o (heap s) (ctor_faults s) (alloc_faults s) (indeterminate s).

Definition with_heap s (h : gmap addr (list (option T))) : State T :=
  mkState (objs s) h (ctor_faults s) (alloc_faults s) (indeterminate s).

Lemma get_obj_Ok this s v s' :
  get_obj this s = Ok v s' ↔ objs s !! this = Some v ∧ s' = s.
Proof.
  unfold get_obj. destruct (objs s !! this); split; try done.
  - by intros [= -> ->].
  - by intros [[= ->] ->].
  - by intros [? ?].
Qed.

Lemma get_obj_Throw this s e s' : get_obj this s = Throw e s' ↔ False.
Proof. unfold get_obj. by destruct (objs s !! this). Qed.

Lemma get_size_Ok this s n s' :
  get_size this s = Ok n s' ↔ ∃ v, objs s !! this = Some v ∧ n = size_ v ∧ s' = s.
Proof.
  unfold get_size. rewrite bind_Ok. split.
  - intros (v & s1 & [Hv ->]%get_obj_Ok & [<- <-]%ret_Ok). by exists v.
  - intros (v & Hv & -> & ->). exists v, s. by rewrite get_obj_Ok, ret_Ok.
Qed.

Lemma get_capacity_Ok this s n s' :
  get_capacity this s = Ok n s' ↔
  ∃ v, objs s !! this = Some v ∧ n = capacity_ v ∧ s' = s.
Proof.
  unfold get_capacity. rewrite bind_Ok. split.
  - intros (v & s1 & [Hv ->]%get_obj_Ok & [<- <-]%ret_Ok). by exists v.
  - intros (v & Hv & -> & ->). exists v, s. by rewrite get_obj_Ok, ret_Ok.
Qed.

Lemma get_data_Ok this s p s' :
  get_data this s = Ok p s' ↔ ∃ v, objs s !! this = Some v ∧ p = data_ v ∧ s' = s.
Proof.
  unfold get_data. rewrite bind_Ok. split.
  - intros (v & s1 & [Hv ->]%get_obj_Ok & [<- <-]%ret_Ok). by exists v.
  - intros (v & Hv & -> & ->). exists v, s. by rewrite get_obj_Ok, ret_Ok.
Qed.

Lemma get_size_Throw this s e s' : get_size this s = Throw e s' ↔ False.
Proof.
  unfold get_size. rewrite bind_Throw, get_obj_Throw. split; [|done].
  intros [[]|(? & ? & _ & []%ret_Throw)].
Qed.

Lemma get_capacity_Throw this s e s' : get_capacity this s = Throw e s' ↔ False.
Proof.
  unfold get_capacity. rewrite bind_Throw, get_obj_Throw. split; [|done].
  intros [[]|(? & ? & _ & []%ret_Throw)].
Qed.

Lemma get_data_Throw this s e s' : get_data this s = Throw e s' ↔ False.
Proof.
  unfold get_data. rewrite bind_Throw, get_obj_Throw. split; [|done].
  intros [[]|(? & ? & _ & []%ret_Throw)].
Qed.

Lemma put_obj_Ok this v s u s' :
  put_obj this v s = Ok u s' ↔ s' = with_objs s (<[this := v]> (objs s)).
Proof. unfold put_obj, with_objs. destruct u. split; [by intros [= <-]|by intros ->]. Qed.

Lemma put_obj_Throw this v s e s' : put_obj this v s = Throw e s' ↔ False.
Proof. done. Qed.

Lemma drop_obj_Ok this s u s' :
  drop_obj this s = Ok u s' ↔ s' = with_objs s (delete this (objs s)).
Proof. unfold drop_obj, with_objs. destruct u. split; [by intros [= <-]|by intros ->]. Qed.

Lemma drop_obj_Throw this s e s' : drop_obj this s = Throw e s' ↔ False.
Proof. done. Qed.

Lemma set_size_Ok this n s u s' :
  set_size this n s = Ok u s' ↔
  ∃ v, objs s !! this = Some v ∧
       s' = with_objs s (<[this := mkVector n (capacity_ v) (data_ v)]> (objs s)).
Proof.
  unfold set_size. rewrite bind_Ok. split.
  - intros (v & s1 & [Hv ->]%get_obj_Ok & ->%put_obj_Ok). by exists v.
  - intros (v & Hv & ->). exists v, s. by rewrite get_obj_Ok, put_obj_Ok.
Qed.

Lemma set_capacity_Ok this n s u s' :
  set_capacity this n s = Ok u s' ↔
  ∃ v, objs s !! this = Some v ∧
       s' = with_objs s (<[this := mkVector (size_ v) n (data_ v)]> (objs s)).
Proof.
  unfold set_capacity. rewrite bind_Ok. split.
  - intros (v & s1 & [Hv ->]%get_obj_Ok & ->%put_obj_Ok). by exists v.
  - intros (v & Hv & ->). exists v, s. by rewrite get_obj_Ok, put_obj_Ok.
Qed.

Lemma set_data_Ok this p s u s' :
  set_data this p s = Ok u s' ↔
  ∃ v, objs s !! this = Some v ∧
       s' = with_objs s (<[this := mkVector (size_ v) (capacity_ v) p]> (objs s)).
Proof.
  unfold set_data. rewrite bind_Ok. split.
  - intros (v & s1 & [Hv ->]%get_obj_Ok & ->%put_obj_Ok). by exists v.
  - intros (v & Hv & ->). exists v, s. by rewrite get_obj_Ok, put_obj_Ok.
Qed.

Lemma set_size_Throw this n s e s' : set_size this n s = Throw e s' ↔ False.
Proof.
  unfold set_size. rewrite bind_Throw, get_obj_Throw. split; [|done].
  intros [[]|(? & ? & _ & ?)]. done.
Qed.

Lemma set_capacity_Throw this n s e s' : set_capacity this n s = Throw e s' ↔ False.
Proof.
  unfold set_capacity. rewrite bind_Throw, get_obj_Throw. split; [|done].
  intros [[]|(? & ? & _ & ?)]. done.
Qed.

Lemma set_data_Throw this p s e s' : set_data this p s = Throw e s' ↔ False.
Proof.
  unfold set_data. rewrite bind_Throw, get_obj_Throw. split; [|done].
  intros [[]|(? & ? & _ & ?)]. done.
Qed.

Lemma fresh_addr_fresh (h : gmap addr (list (option T))) : h !! fresh_addr h = None.
Proof. apply not_elem_of_dom, is_fresh. Qed.

Lemma operator_new_Ok bytes s a s' :
  operator_new bytes s = Ok a s' ↔
  head (alloc_faults s) ≠ Some true ∧ a = fresh_addr (heap s) ∧
  s' = mkState (objs s)
         (<[a := replicate (N.to_nat (bytes / sizeof)) None]> (heap s))
         (ctor_faults s) (tail (alloc_faults s)) (indeterminate s).
Proof.
  unfold operator_new. destruct (alloc_faults s) as [|[] fs]; simpl; split;
    try done; try (by intros [= <- <-]); try (by intros (_ & -> & ->)).
  by intros ([] & _).
Qed.

Lemma operator_new_Throw bytes s e s' :
  operator_new bytes s = Throw e s' ↔
  head (alloc_faults s) = Some true ∧ e = BadAlloc ∧
  s' = mkState (objs s) (heap s) (ctor_faults s) (tail (alloc_faults s)) (indeterminate s).
Proof.
  unfold operator_new. destruct (alloc_faults s) as [|[] fs]; simpl; split;
    try done; try (by intros [= <- <-]); try (by intros (_ & -> & ->));
    by intros ([=] & _).
Qed.

Lemma Allocate_Ok n s p s' :
  Allocate n s = Ok p s' ↔
  (n = 0 ∧ p = None ∧ s' = s) ∨
  (n ≠ 0 ∧ head (alloc_faults s) ≠ Some true ∧ p = Some (fresh_addr (heap s)) ∧
   s' = mkState (objs s)
          (<[fresh_addr (heap s) :=
               replicate (N.to_nat (SizeT.mul n sizeof / sizeof)) None]> (heap s))
          (ctor_faults s) (tail (alloc_faults s)) (indeterminate s)).
Proof.
  unfold Allocate. destruct (N.eqb_spec n 0) as [->|Hn].
  - rewrite ret_Ok. split; [intros [<- <-]; by left|]. by intros [(_ & -> & ->)|(? & _)].
  - rewrite bind_Ok. split.
    + intros (a & s1 & (Hf & -> & ->)%operator_new_Ok & [<- <-]%ret_Ok). by right.
    + intros [(? & _)|(_ & Hf & -> & ->)]; [done|].
      do 2 eexists. rewrite operator_new_Ok, ret_Ok. done.
Qed.

Lemma Allocate_Throw n s e s' :
  Allocate n s = Throw e s' ↔
  n ≠ 0 ∧ head (alloc_faults s) = Some true ∧ e = BadAlloc ∧
  s' = mkState (objs s) (heap s) (ctor_faults s) (tail (alloc_faults s)) (indeterminate s).
Proof.
  unfold Allocate. destruct (N.eqb_spec n 0) as [->|Hn].
  - rewrite ret_Throw. split; [done|]. by intros (? & _).
  - rewrite bind_Throw, operator_new_Throw. split.
    + intros [?|(? & ? & _ & []%ret_Throw)]. done.
    + intros (_ & ?). by left.
Qed.

Lemma Deallocate_Ok p s u s' :
  Deallocate p s = Ok u s' ↔
  match p with
  | Some a => is_Some (heap s !! a) ∧ s' = with_heap s (delete a (heap s))
  | None => s' = s
  end.
Proof.
  destruct u. unfold Deallocate. destruct p as [a|].
  - unfold operator_delete, with_heap. destruct (heap s !! a) as [b|]; split.
    + intros [= <-]. by split; [eexists|].
    + by intros [_ ->].
    + done.
    + by intros [[? [=]] _].
  - rewrite ret_Ok. naive_solver.
Qed.

Lemma Deallocate_Throw p s e s' : Deallocate p s = Throw e s' ↔ False.
Proof.
  unfold Deallocate. destruct p as [a|]; [|by rewrite ret_Throw].
  unfold operator_delete. by destruct (heap s !! a).
Qed.

End Primitives.

Ltac inv_step :=
  match goal with
  | H : (_ ≫= _) _ = Ok _ _ |- _ => apply bind_Ok in H as (? & ? & ? & ?)
  | H : (_ ≫= _) _ = Throw _ _ |- _ => apply bind_Throw in H as [?|(? & ? & ? & ?)]
  | H : ret _ _ = Ok _ _ |- _ => apply ret_Ok in H as [? ?]
  | H : ret _ _ = Throw _ _ |- _ => by apply ret_Throw in H
  | H : throw _ _ = Ok _ _ |- _ => discriminate H
  | H : throw _ _ = Throw _ _ |- _ => injection H as ? ?
  | H : undefined _ = _ |- _ => discriminate H
  | H : on_throw _ _ _ = Ok _ _ |- _ => apply on_throw_Ok in H
  | H : on_throw _ _ _ = Throw _ _ |- _ =>
      apply on_throw_Throw in H as (? & ? & ? & [[? ?]|?])
  | H : get_obj _ _ = Ok _ _ |- _ => apply get_obj_Ok in H as [? ?]
  | H : get_obj _ _ = Throw _ _ |- _ => by apply get_obj_Throw in H
  | H : get_size _ _ = Ok _ _ |- _ => apply get_size_Ok in H as (? & ? & ? & ?)
  | H : get_size _ _ = Throw _ _ |- _ => by apply get_size_Throw in H
  | H : get_capacity _ _ = Ok _ _ |- _ => apply get_capacity_Ok in H as (? & ? & ? & ?)
  | H : get_capacity _ _ = Throw _ _ |- _ => by apply get_capacity_Throw in H
  | H : get_data _ _ = Ok _ _ |- _ => apply get_data_Ok in H as (? & ? & ? & ?)
  | H : get_data _ _ = Throw _ _ |- _ => by apply get_data_Throw in H
  | H : put_obj _ _ _ = Ok _ _ |- _ => apply put_obj_Ok in H
  | H : put_obj _ _ _ = Throw _ _ |- _ => by apply put_obj_Throw in H
  | H : drop_obj _ _ = Ok _ _ |- _ => apply drop_obj_Ok in H
  | H : drop_obj _ _ = Throw _ _ |- _ => by apply drop_obj_Throw in H
  | H : set_size _ _ _ = Ok _ _ |- _ => apply set_size_Ok in H as (? & ? & ?)
  | H : set_size _ _ _ = Throw _ _ |- _ => by apply set_size_Throw in H
  | H : set_capacity _ _ _ = Ok _ _ |- _ => apply set_capacity_Ok in H as (? & ? & ?)
  | H : set_capacity _ _ _ = Throw _ _ |- _ => by apply set_capacity_Throw in H
  | H : set_data _ _ _ = Ok _ _ |- _ => apply set_data_Ok in H as (? & ? & ?)
  | H : set_data _ _ _ = Throw _ _ |- _ => by apply set_data_Throw in H
  | H : Deallocate _ _ = Throw _ _ |- _ => by apply Deallocate_Throw in H
  end; simplify_eq;
  repeat match goal with u : () |- _ => destruct u end.

Ltac inv_m := repeat inv_step.

(** ** Checked access *)

Section Access.

Context {T : Type} `{Element T}.

Implicit Types s : State T.

Lemma load_Ok p i s x s' :
  load p i s = Ok x s' ↔ slot_at (heap s) p i = Some (Some x) ∧ s' = s.
Proof.
  unfold load. destruct (slot_at (heap s) p i) as [[y|]|]; split; try done.
  - by intros [= -> ->].
  - by intros [[= ->] ->].
  - by intros [? _].
  - by intros [? _].
Qed.

Lemma load_Throw p i s e s' : load p i s = Throw e s' ↔ False.
Proof. unfold load. by destruct (slot_at (heap s) p i) as [[y|]|]. Qed.

Lemma slot_at_element s v l i x :
  elements s v = Some l → l !! N.to_nat i = Some x →
  slot_at (heap s) (data_ v) i = Some (Some x).
Proof.
  intros [Hsz Hd]%elements_Some Hx. unfold slot_at.
  destruct (data_ v) as [a|]; simpl.
  - destruct Hd as [rest ->]. simpl.
    apply lookup_app_l_Some. by rewrite list_lookup_fmap, Hx.
  - by subst l.
Qed.

(** C2.  [At(i)] throws exactly when [i >= size_], the error is
    [ArrayOutOfRange] and nothing has changed when it is thrown; below
    [size_] it returns element [i] and changes nothing either. *)
Theorem At_checked this i s v :
  objs s !! this = Some v →
  (At this i s = Throw ArrayOutOfRange s ↔ size_ v ≤ i) ∧
  (∀ e s', At this i s = Throw e s' → e = ArrayOutOfRange ∧ s' = s) ∧
  (∀ l, elements s v = Some l → i < size_ v →
        ∃ x, l !! N.to_nat i = Some x ∧ At this i s = Ok x s).
Proof.
  intros Hv.
  assert (get_size this s = Ok (size_ v) s) as Hsz by (apply get_size_Ok; eauto).
  assert (get_data this s = Ok (data_ v) s) as Hd by (apply get_data_Ok; eauto).
  unfold At. rewrite (bind_run_Ok _ _ _ _ _ Hsz).
  destruct (N.leb_spec (size_ v) i) as [Hle|Hlt].
  - split_and!.
    + done.
    + by intros e s' [= <- <-].
    + intros; lia.
  - rewrite (bind_run_Ok _ _ _ _ _ Hd). split_and!.
    + split; [by intros ?%load_Throw|lia].
    + by intros e s' ?%load_Throw.
    + intros l Hl _. pose proof Hl as [Hn _]%elements_Some.
      destruct (lookup_lt_is_Some_2 l (N.to_nat i)) as [x Hx]; [lia|].
      exists x. split; [done|]. apply load_Ok. split; [|done].
      by eapply slot_at_element.
Qed.

End Access.

#[global] Hint Resolve keeps_shape_ret keeps_shape_throw keeps_shape_undefined
  keeps_shape_load keeps_shape_check_storage keeps_shape_write_slot
  keeps_shape_ctor_may_throw keeps_shape_read_ref keeps_shape_default_ctor
  keeps_shape_copy_ctor keeps_shape_move_ctor keeps_shape_placement_new
  keeps_shape_destroy_at keeps_shape_destroy_n keeps_shape_destroy
  keeps_shape_uninitialized_loop keeps_shape_uninitialized_default_construct_n
  keeps_shape_uninitialized_fill_n keeps_shape_uninitialized_copy
  keeps_shape_uninitialized_copy_list keeps_shape_uninitialized_move
  keeps_shape_equal_from keeps_shape_lexicographical_from
  keeps_shape_get_obj keeps_shape_get_size keeps_shape_get_capacity
  keeps_shape_get_data : shape.

Ltac shape :=
  repeat first
    [ progress eauto with shape
    | apply keeps_shape_bind; [|intros ?]
    | apply keeps_shape_on_throw ].

(** ** The members of a vector across the steps of a method *)

Section Members.

Context {T : Type} `{Element T}.

Implicit Types s : State T.

Lemma Allocate_objs n s p s' : Allocate n s = Ok p s' → objs s' = objs s.
Proof. intros [(_ & _ & ->)|(_ & _ & _ & ->)]%Allocate_Ok; done. Qed.

Lemma Allocate_Throw_objs n s e s' : Allocate n s = Throw e s' → objs s' = objs s.
Proof. intros (_ & _ & _ & ->)%Allocate_Throw. done. Qed.

Lemma Deallocate_objs p s u s' : Deallocate p s = Ok u s' → objs s' = objs s.
Proof. intros Hd%Deallocate_Ok. destruct p; [by destruct Hd as [_ ->]|by subst]. Qed.

Lemma shape_objs s s' : same_shape s s' → objs s' = objs s.
Proof. by intros [? _]. Qed.

Lemma run_Ok_objs {A} (m : M A) s a s' :
  keeps_shape m → m s = Ok a s' → objs s' = objs s.
Proof. intros Hm E. by eapply shape_objs, keeps_shape_Ok. Qed.

Lemma run_Throw_objs {A} (m : M A) s e s' :
  keeps_shape m → m s = Throw e s' → objs s' = objs s.
Proof. intros Hm E. by eapply shape_objs, keeps_shape_Throw. Qed.

End Members.

Ltac objs_fact H :=
  first
    [ apply Allocate_objs in H
    | apply Allocate_Throw_objs in H
    | apply Deallocate_objs in H
    | apply run_Ok_objs in H; [|by eauto with shape]
    | apply run_Throw_objs in H; [|by eauto with shape] ].

Ltac objs_solve :=
  repeat match goal with
         | H : _ _ = Ok _ _ |- _ => objs_fact H
         | H : _ _ = Throw _ _ |- _ => objs_fact H
         end;
  simpl in *; congruence.

Section Growth.

Context {T : Type} `{Element T}.

Implicit Types s : State T.

Lemma regrow_Ok this nc extra s v u s' :
  objs s !! this = Some v →
  (∀ p n, keeps_shape (extra p n)) →
  regrow this nc extra s = Ok u s' →
  ∃ p s1 s2 s3 s4 s5,
    Allocate nc s = Ok p s1 ∧
    uninitialized_move (data_ v) (size_ v) p s1 = Ok () s2 ∧
    extra p (size_ v) s2 = Ok () s3 ∧
    destroy (data_ v) 0 (size_ v) s3 = Ok () s4 ∧
    Deallocate (data_ v) s4 = Ok () s5 ∧
    objs s5 = objs s ∧
    s' = with_objs s5 (<[this := mkVector (size_ v) nc p]> (objs s)).
Proof.
  intros Hv Hex Hrun. unfold regrow in Hrun. inv_m.
  repeat match goal with x : () |- _ => destruct x end.
  match goal with
  | Ha : Allocate _ _ = Ok _ ?s1, Hm : uninitialized_move _ _ _ ?s1 = Ok _ ?s2,
    He : extra _ _ ?s2 = Ok _ ?s3, Hd : destroy _ _ _ ?s3 = Ok _ ?s4,
    Hf : Deallocate _ ?s4 = Ok _ ?s5 |- _ =>
      assert (objs s1 = objs s) as E1 by (clear -Ha; objs_solve);
      assert (objs s5 = objs s) as E5 by (clear -Ha Hm He Hd Hf Hex; objs_solve)
  end.
  rewrite E1 in *. simplify_eq. rewrite E5 in *. simplify_eq.
  do 6 eexists. split_and!; try done.
  unfold with_objs in *; simpl in *. rewrite lookup_insert_eq in *. simplify_eq/=.
  by rewrite insert_insert_eq.
Qed.

Lemma regrow_Throw this nc extra s e s' :
  (∀ p n, keeps_shape (extra p n)) →
  regrow this nc extra s = Throw e s' → objs s' = objs s.
Proof.
  intros Hex Hrun. unfold regrow in Hrun. inv_m; objs_solve.
Qed.

End Growth.

Ltac inv_regrow :=
  match goal with
  | Hr : regrow _ _ _ _ = Ok _ _ |- _ =>
      eapply regrow_Ok in Hr as (? & ? & ? & ? & ? & ? & ? & ? & ? & ? & ? & ? & ?);
      [|eassumption|intros; eauto with shape]
  | Hr : regrow _ _ _ _ = Throw _ _ |- _ =>
      eapply regrow_Throw in Hr; [|intros; eauto with shape]
  end.

Ltac norm_objs :=
  unfold with_objs, with_heap in *; simplify_eq/=;
  repeat (match goal with
          | H : context [@lookup _ _ _ _ ?k (@insert _ _ _ _ ?k _ _)] |- _ =>
              rewrite lookup_insert_eq in H
          | |- context [@lookup _ _ _ _ ?k (@insert _ _ _ _ ?k _ _)] =>
              rewrite lookup_insert_eq
          | H : context [@insert _ _ _ _ ?k _ (@insert _ _ _ _ ?k _ _)] |- _ =>
              rewrite insert_insert_eq in H
          | |- context [@insert _ _ _ _ ?k _ (@insert _ _ _ _ ?k _ _)] =>
              rewrite insert_insert_eq
          | H : context [@lookup _ _ _ _ ?j (@insert _ _ _ _ ?k _ _)],
            Hne : ?k ≠ ?j |- _ =>
              rewrite (lookup_insert_ne _ k j) in H by exact Hne
          | H : context [@lookup _ _ _ _ ?j (@insert _ _ _ _ ?k _ _)],
            Hne : ?j ≠ ?k |- _ =>
              rewrite (lookup_insert_ne _ k j) in H by (symmetry; exact Hne)
          end; simplify_eq/=).

(** ** Capacity after [Reserve] and [Resize] *)

Section Capacity.

Context {T : Type} `{Element T}.

Implicit Types s : State T.

Lemma Reserve_Ok_grow this n s v s' :
  objs s !! this = Some v → capacity_ v < n →
  Reserve this n s = Ok () s' →
  ∃ p, objs s' = <[this := mkVector (size_ v) n p]> (objs s).
Proof.
  intros Hv Hlt Hrun. unfold Reserve in Hrun. inv_m.
  destruct (N.ltb_spec (capacity_ v) n); [|lia].
  inv_regrow. subst. eauto.
Qed.

Lemma Reserve_no_growth this n s v :
  objs s !! this = Some v → n ≤ capacity_ v → Reserve this n s = Ok () s.
Proof.
  intros Hv Hle. unfold Reserve.
  erewrite bind_run_Ok by (apply get_capacity_Ok; eauto).
  by destruct (N.ltb_spec (capacity_ v) n); [lia|].
Qed.

Lemma Resize_Ok_grow this n s v s' :
  objs s !! this = Some v → capacity_ v < n →
  Resize this n s = Ok () s' →
  ∃ p, objs s' = <[this := mkVector n n p]> (objs s).
Proof.
  intros Hv Hlt Hrun. unfold Resize in Hrun. inv_m.
  destruct (N.ltb_spec (capacity_ v) n); [|lia].
  inv_regrow. norm_objs.
  eauto.
Qed.

Lemma Resize_value_Ok_grow this n value s v s' :
  objs s !! this = Some v → capacity_ v < n →
  Resize_value this n value s = Ok () s' →
  ∃ p, objs s' = <[this := mkVector n n p]> (objs s).
Proof.
  intros Hv Hlt Hrun. unfold Resize_value in Hrun. inv_m.
  destruct (N.ltb_spec (capacity_ v) n); [|lia].
  inv_regrow. norm_objs. eauto.
Qed.

End Capacity.

(** ** The representation invariant *)

(** A call of a public member of [Vector<T>]. *)
Inductive call (T : Type) :=
  | CDefault (this : obj)
  | CSized (this : obj) (size : N)
  | CFill (this : obj) (size : N) (value : ref T)
  | CRange (this : obj) (xs : list T)
  | CInitList (this : obj) (init : list T)
  | CCopy (this other : obj)
  | CMove (this other : obj)
  | CCopyAssign (this other : obj)
  | CMoveAssign (this other : obj)
  | CDtor (this : obj)
  | CSize (this : obj)
  | CCapacity (this : obj)
  | CEmpty (this : obj)
  | CIndex (this : obj) (i : N)
  | CAt (this : obj) (i : N)
  | CFront (this : obj)
  | CBack (this : obj)
  | CData (this : obj)
  | CSwap (this other : obj)
  | CResize (this : obj) (new_size : N)
  | CResizeValue (this : obj) (new_size : N) (value : ref T)
  | CReserve (this : obj) (new_cap : N)
  | CShrinkToFit (this : obj)
  | CClear (this : obj)
  | CPushBack (this : obj) (value : ref T)
  | CPushBackMove (this : obj) (value : ref T)
  | CPopBack (this : obj)
  | CEmplaceBack (this : obj) (args : ctor_args T)
  | CEq (this other : obj)
  | CNe (this other : obj)
  | CLt (this other : obj)
  | CGt (this other : obj)
  | CLe (this other : obj)
  | CGe (this other : obj)
  | CBegin (this : obj)
  | CEnd (this : obj)
  | CRbegin (this : obj)
  | CRend (this : obj).

Section Pointer.

Context {T : Type} `{Element T}.

Lemma Allocate_pointer n (s : State T) p s' :
  Allocate n s = Ok p s' → is_Some p → 0 < n.
Proof.
  intros [(_ & -> & _)|(Hn & _)]%Allocate_Ok; [by intros [? [=]]|lia].
Qed.

End Pointer.

Section Invariant.

Context {T : Type} `{Element T}.

Implicit Types s : State T.

Definition discard {A} (m : M (T:=T) A) : M (T:=T) unit := m ;; ret ().

Definition run (c : call T) : M (T:=T) unit :=
  match c with
  | CDefault _ this => Vector_default this
  | CSized _ this size => Vector_sized this size
  | CFill _ this size value => Vector_fill this size value
  | CRange _ this xs => Vector_range this xs
  | CInitList _ this init => Vector_init_list this init
  | CCopy _ this other => Vector_copy this other
  | CMove _ this other => Vector_move this other
  | CCopyAssign _ this other => copy_assign this other
  | CMoveAssign _ this other => move_assign this other
  | CDtor _ this => Vector_dtor this
  | CSize _ this => discard (Size this)
  | CCapacity _ this => discard (Capacity this)
  | CEmpty _ this => discard (Empty this)
  | CIndex _ this i => discard (index this i)
  | CAt _ this i => discard (At this i)
  | CFront _ this => discard (Front this)
  | CBack _ this => discard (Back this)
  | CData _ this => discard (Data this)
  | CSwap _ this other => Swap this other
  | CResize _ this new_size => Resize this new_size
  | CResizeValue _ this new_size value => Resize_value this new_size value
  | CReserve _ this new_cap => Reserve this new_cap
  | CShrinkToFit _ this => ShrinkToFit this
  | CClear _ this => Clear this
  | CPushBack _ this value => PushBack this value
  | CPushBackMove _ this value => PushBack_move this value
  | CPopBack _ this => PopBack this
  | CEmplaceBack _ this args => EmplaceBack this args
  | CEq _ this other => discard (op_eq this other)
  | CNe _ this other => discard (op_ne this other)
  | CLt _ this other => discard (op_lt this other)
  | CGt _ this other => discard (op_gt this other)
  | CLe _ this other => discard (op_le this other)
  | CGe _ this other => discard (op_ge this other)
  | CBegin _ this => discard (begin_ this)
  | CEnd _ this => discard (end_ this)
  | CRbegin _ this => discard (rbegin this)
  | CRend _ this => discard (rend this)
  end.

(** The [size_t] arguments of a call are [size_t] values. *)
Definition size_t_args (c : call T) : Prop :=
  match c with
  | CSized _ _ n | CFill _ _ n _ | CResize _ _ n | CResizeValue _ _ n _
  | CReserve _ _ n => n < SizeT.modulus
  | CRange _ _ xs | CInitList _ _ xs => N.of_nat (length xs) < SizeT.modulus
  | _ => True
  end.

(** Every vector alive in a state satisfies the invariant. *)
Definition all_inv s : Prop := map_Forall (λ _ v, rep_inv v) (objs s).

Lemma keeps_shape_observer (c : call T) :
  match c with
  | CSize _ _ | CCapacity _ _ | CEmpty _ _ | CIndex _ _ _ | CAt _ _ _
  | CFront _ _ | CBack _ _ | CData _ _ | CEq _ _ _ | CNe _ _ _ | CLt _ _ _
  | CGt _ _ _ | CLe _ _ _ | CGe _ _ _ | CBegin _ _ | CEnd _ _ | CRbegin _ _
  | CRend _ _ => keeps_shape (run c)
  | _ => True
  end.
Proof.
  destruct c; try done; simpl;
    unfold discard, Size, Capacity, Empty, index, At, Front, Back, Data,
      op_ne, op_gt, op_le, op_ge, op_eq, op_lt, rbegin, rend, begin_, end_,
      std_equal, lexicographical_compare; shape;
    repeat match goal with |- context [if ?b then _ else _] => destruct b end;
    shape.
Qed.

Definition preserves_inv (m : M (T:=T) unit) : Prop :=
  ∀ s s', all_inv s → (m s = Ok () s' ∨ ∃ e, m s = Throw e s') → all_inv s'.

Lemma all_inv_objs s s' : objs s' = objs s → all_inv s → all_inv s'.
Proof. unfold all_inv. by intros ->. Qed.

Lemma all_inv_insert s s' k v :
  objs s' = <[k := v]> (objs s) → rep_inv v → all_inv s → all_inv s'.
Proof. unfold all_inv. intros -> Hv Hs. by apply map_Forall_insert_2. Qed.

Lemma all_inv_delete s s' k :
  objs s' = delete k (objs s) → all_inv s → all_inv s'.
Proof. unfold all_inv. intros -> Hs. by apply map_Forall_delete. Qed.

Lemma all_inv_lookup s k v : all_inv s → objs s !! k = Some v → rep_inv v.
Proof. intros Hs Hk. by eapply map_Forall_lookup_1 in Hs. Qed.

Lemma rep_inv_empty : rep_inv empty_vector.
Proof. unfold rep_inv; simpl. split_and!; [done|done|by intros [? [=]]]. Qed.

Lemma keeps_shape_preserves_inv (m : M unit) : keeps_shape m → preserves_inv m.
Proof.
  intros Hm s s' Hs [Hr|[e Hr]]; (eapply all_inv_objs; [|done]); objs_solve.
Qed.

Ltac objs_chain :=
  repeat match goal with
         | H : Allocate _ _ = Ok _ _ |- _ =>
             pose proof (Allocate_pointer _ _ _ _ H); apply Allocate_objs in H
         | H : _ _ = Ok _ _ |- _ => objs_fact H
         | H : _ _ = Throw _ _ |- _ => objs_fact H
         end;
  simpl in *.

Ltac inv_goal :=
  unfold all_inv in *; simpl;
  repeat match goal with
         | E : objs ?x = _ |- context [objs ?x] => rewrite E; simpl
         end;
  repeat first [apply map_Forall_insert_2 | apply map_Forall_delete];
  try assumption.

Lemma Vector_default_inv this : preserves_inv (Vector_default this).
Proof.
  intros s s' Hs [Hr|[e Hr]]; unfold Vector_default in Hr; inv_m.
  eapply all_inv_insert; [done|apply rep_inv_empty|done].
Qed.

Lemma rep_inv_full n p : n < SizeT.modulus → (is_Some p → 0 < n) → rep_inv (mkVector n n p).
Proof. intros. unfold rep_inv; simpl. split_and!; done. Qed.

Ltac objs_back :=
  repeat match goal with
         | E : objs ?x = _, H : context [objs ?x] |- _ =>
             lazymatch type of H with
             | objs x = _ => fail
             | _ => rewrite E in H; simpl in H
             end
         end.

Ltac rep_facts :=
  repeat match goal with
         | Hs : map_Forall _ (objs ?s), Hk : objs ?s !! _ = Some ?v |- _ =>
             lazymatch goal with
             | _ : rep_inv v |- _ => fail
             | _ => pose proof (map_Forall_lookup_1 _ _ _ _ Hs Hk : rep_inv v)
             end
         end.

Ltac inv_solve :=
  inv_m; try inv_regrow; objs_chain; unfold all_inv in *; objs_back; norm_objs;
  rep_facts; inv_goal.

Lemma Vector_sized_inv this n :
  n < SizeT.modulus → preserves_inv (Vector_sized this n).
Proof.
  intros Hn s s' Hs [Hr|[e Hr]]; unfold Vector_sized in Hr; inv_solve;
    by apply rep_inv_full.
Qed.

Lemma Vector_fill_inv this n value :
  n < SizeT.modulus → preserves_inv (Vector_fill this n value).
Proof.
  intros Hn s s' Hs [Hr|[e Hr]]; unfold Vector_fill in Hr; inv_solve;
    by apply rep_inv_full.
Qed.

Lemma Vector_range_inv this xs :
  N.of_nat (length xs) < SizeT.modulus → preserves_inv (Vector_range this xs).
Proof.
  intros Hn s s' Hs [Hr|[e Hr]]; unfold Vector_range in Hr; inv_solve;
    by apply rep_inv_full.
Qed.

Lemma Vector_init_list_inv this xs :
  N.of_nat (length xs) < SizeT.modulus → preserves_inv (Vector_init_list this xs).
Proof.
  intros Hn s s' Hs [Hr|[e Hr]]; unfold Vector_init_list in Hr; inv_solve;
    by apply rep_inv_full.
Qed.

Ltac bool_facts :=
  repeat match goal with
         | H : (_ <? _) = true |- _ => apply N.ltb_lt in H
         | H : (_ <? _) = false |- _ => apply N.ltb_ge in H
         | H : (_ <=? _) = true |- _ => apply N.leb_le in H
         | H : (_ <=? _) = false |- _ => apply N.leb_gt in H
         | H : (_ =? _) = true |- _ => apply N.eqb_eq in H
         | H : (_ =? _) = false |- _ => apply N.eqb_neq in H
         end.

Ltac rep_solve :=
  unfold rep_inv in *; simpl in *; destruct_and?; bool_facts; split_and!;
  first [ done | lia | by intros [? [=]] | by eauto | idtac ].

Lemma Vector_copy_inv this other : preserves_inv (Vector_copy this other).
Proof.
  intros s s' Hs [Hr|[e Hr]]; unfold Vector_copy in Hr; inv_solve; rep_solve.
Qed.

Lemma Vector_move_inv this other : preserves_inv (Vector_move this other).
Proof.
  intros s s' Hs [Hr|[e Hr]]; unfold Vector_move in Hr; inv_solve; rep_solve.
Qed.

Lemma Clear_inv this : preserves_inv (Clear this).
Proof.
  intros s s' Hs [Hr|[e Hr]]; unfold Clear in Hr; inv_m;
    repeat case_match; inv_solve; rep_solve.
Qed.

Lemma Vector_dtor_inv this : preserves_inv (Vector_dtor this).
Proof.
  intros s s' Hs [Hr|[e Hr]]; unfold Vector_dtor, Clear in Hr; inv_m;
    repeat case_match; inv_solve; rep_solve.
Qed.

Lemma get_size_run this s v :
  objs s !! this = Some v → get_size this s = Ok (size_ v) s.
Proof. intros. apply get_size_Ok. eauto. Qed.

Lemma get_capacity_run this s v :
  objs s !! this = Some v → get_capacity this s = Ok (capacity_ v) s.
Proof. intros. apply get_capacity_Ok. eauto. Qed.

Lemma get_data_run this s v :
  objs s !! this = Some v → get_data this s = Ok (data_ v) s.
Proof. intros. apply get_data_Ok. eauto. Qed.

Lemma set_size_run this n s v :
  objs s !! this = Some v →
  set_size this n s =
  Ok () (with_objs s (<[this := mkVector n (capacity_ v) (data_ v)]> (objs s))).
Proof. intros. apply set_size_Ok. eauto. Qed.

Lemma set_capacity_run this n s v :
  objs s !! this = Some v →
  set_capacity this n s =
  Ok () (with_objs s (<[this := mkVector (size_ v) n (data_ v)]> (objs s))).
Proof. intros. apply set_capacity_Ok. eauto. Qed.

Lemma set_data_run this p s v :
  objs s !! this = Some v →
  set_data this p s =
  Ok () (with_objs s (<[this := mkVector (size_ v) (capacity_ v) p]> (objs s))).
Proof. intros. apply set_data_Ok. eauto. Qed.

Ltac run_step :=
  erewrite bind_run_Ok by
    (first [ apply get_size_run | apply get_capacity_run | apply get_data_run
           | apply set_size_run | apply set_capacity_run | apply set_data_run ];
     unfold with_objs; simpl; simplify_map_eq; reflexivity);
  unfold with_objs; cbn [objs heap ctor_faults alloc_faults size_ capacity_ data_].

(** [Swap] exchanges the members of the two objects. *)
Lemma Swap_run this other s a b :
  objs s !! this = Some a → objs s !! other = Some b →
  Swap this other s = Ok () (with_objs s (<[other := a]> (<[this := b]> (objs s)))).
Proof.
  intros Ha Hb. unfold Swap. destruct a as [an ac ad], b as [bn bc bd].
  destruct (decide (this = other)) as [->|Hne].
  - simplify_eq. do 11 run_step.
    erewrite set_data_run by (simplify_map_eq; reflexivity).
    unfold with_objs; simpl. f_equal. f_equal.
    apply map_eq. intros k. destruct (decide (k = other)); simplify_map_eq; done.
  - do 11 run_step.
    erewrite set_data_run by (simplify_map_eq; reflexivity).
    unfold with_objs; simpl. f_equal. f_equal.
    apply map_eq. intros k.
    destruct (decide (k = other)), (decide (k = this)); simplify_map_eq; done.
Qed.

Lemma Swap_inv this other : preserves_inv (Swap this other).
Proof.
  intros s s' Hs [Hr|[e Hr]].
  - assert (is_Some (objs s !! this)) as [a Ha].
    { unfold Swap in Hr. inv_m. eauto. }
    assert (is_Some (objs s !! other)) as [b Hb].
    { unfold Swap in Hr. inv_m. eauto. }
    rewrite (Swap_run _ _ _ _ _ Ha Hb) in Hr. simplify_eq.
    pose proof (all_inv_lookup _ _ _ Hs Ha). pose proof (all_inv_lookup _ _ _ Hs Hb).
    unfold all_inv in *. simpl.
    apply map_Forall_insert_2; [done|]. by apply map_Forall_insert_2.
  - unfold Swap in Hr. inv_m.
Qed.

Lemma move_assign_inv this other : preserves_inv (move_assign this other).
Proof.
  intros s s' Hs [Hr|[e Hr]]; unfold move_assign, Clear in Hr;
    case_decide; inv_m; repeat case_match; inv_solve; rep_solve.
Qed.

Lemma Reserve_inv this n : n < SizeT.modulus → preserves_inv (Reserve this n).
Proof.
  intros Hn s s' Hs [Hr|[e Hr]]; unfold Reserve in Hr;
    inv_m; repeat case_match; inv_solve; rep_solve.
Qed.

Lemma Resize_inv this n : n < SizeT.modulus → preserves_inv (Resize this n).
Proof.
  intros Hn s s' Hs [Hr|[e Hr]]; unfold Resize in Hr;
    inv_m; repeat case_match; inv_solve; rep_solve.
Qed.

Lemma Resize_value_inv this n value :
  n < SizeT.modulus → preserves_inv (Resize_value this n value).
Proof.
  intros Hn s s' Hs [Hr|[e Hr]]; unfold Resize_value in Hr;
    inv_m; repeat case_match; inv_solve; rep_solve.
Qed.

Lemma ShrinkToFit_inv this : preserves_inv (ShrinkToFit this).
Proof.
  intros s s' Hs [Hr|[e Hr]]; unfold ShrinkToFit in Hr;
    inv_m; repeat case_match; inv_solve; rep_solve.
Qed.

Lemma PopBack_inv this : preserves_inv (PopBack this).
Proof.
  intros s s' Hs [Hr|[e Hr]]; unfold PopBack in Hr;
    inv_m; repeat case_match; inv_solve; rep_solve.
  rewrite SizeT.sub_small; lia.
Qed.

Lemma Allocate_slots n s p s1 :
  Allocate n s = Ok p s1 →
  match p with
  | Some a => ∃ b, heap s1 !! a = Some b ∧ N.of_nat (length b) ≤ n
  | None => True
  end.
Proof.
  intros [(_ & -> & _)|(Hn & _ & -> & ->)]%Allocate_Ok; [done|]. simpl.
  eexists. rewrite lookup_insert_eq. split; [done|].
  rewrite length_replicate, N2Nat.id.
  etrans; [apply N.Div0.div_le_mono, SizeT.wrap_le|].
  rewrite N.div_mul; [done|]. pose proof sizeof_pos. lia.
Qed.

Lemma check_storage_Ok p i s u s' :
  check_storage p i s = Ok u s' ↔ is_Some (slot_at (heap s) p i) ∧ s' = s.
Proof.
  destruct u. unfold check_storage. destruct (slot_at (heap s) p i); split.
  - intros [= <-]. eauto.
  - by intros [_ ->].
  - done.
  - by intros [[? [=]] _].
Qed.

Lemma slot_at_bound h a i (x : option T) :
  slot_at h (Some a) i = Some x →
  ∃ b, h !! a = Some b ∧ (N.to_nat i < length b)%nat.
Proof.
  unfold slot_at. simpl. destruct (h !! a) as [b|]; [|done]. simpl.
  intros Hx%lookup_lt_Some. eauto.
Qed.

(** A placement new that returns has found its slot inside the block. *)
Lemma placement_new_in_block nc s p s1 s2 n init s3 :
  Allocate nc s = Ok p s1 → same_shape s1 s2 →
  placement_new p n init s2 = Ok () s3 → n < nc.
Proof.
  intros Ha (_ & _ & Hshape) Hp. apply Allocate_slots in Ha.
  unfold placement_new in Hp. inv_m.
  match goal with Hc : check_storage _ _ _ = _ |- _ =>
    apply check_storage_Ok in Hc as [[y Hy] ->] end.
  destruct p as [a|]; [|done].
  destruct Ha as (b & Hb & Hlen).
  apply slot_at_bound in Hy as (b' & Hb' & Hlt).
  specialize (Hshape a). rewrite Hb, Hb' in Hshape. simplify_eq/=. lia.
Qed.

Lemma push_with_inv this init : keeps_shape init → preserves_inv (push_with this init).
Proof.
  intros Hi s s' Hs [Hr|[e Hr]]; unfold push_with in Hr;
    inv_m; repeat case_match; inv_m; try inv_regrow.
  all: try match goal with
       | Ha : Allocate _ _ = Ok _ ?s1, Hm : uninitialized_move _ _ _ ?s1 = Ok _ ?s2,
         Hp : placement_new _ _ _ ?s2 = Ok _ _ |- _ =>
           pose proof (placement_new_in_block _ _ _ _ _ _ _ _ Ha
             (keeps_shape_Ok _ _ _ _ (keeps_shape_uninitialized_move _ _ _) Hm) Hp)
       end.
  all: inv_solve; rep_solve.
  all: try match goal with |- context [SizeT.mul ?c 2] =>
         pose proof (SizeT.wrap_lt (c * 2)); unfold SizeT.mul in * end.
  all: pose proof SizeT.modulus_gt_1; try rewrite SizeT.add_small; lia.
Qed.

Lemma keeps_shape_emplace (x : T) :
  keeps_shape (T:=T) (ctor_may_throw ;; ret x).
Proof. shape. Qed.

Lemma keeps_shape_construct (args : ctor_args T) :
  keeps_shape (T:=T) (construct args).
Proof.
  destruct args; simpl;
    [apply keeps_shape_emplace|apply keeps_shape_copy_ctor|apply keeps_shape_move_ctor].
Qed.

Lemma preserves_inv_seq (m1 m2 : M unit) :
  preserves_inv m1 → preserves_inv m2 → preserves_inv (m1 ;; m2).
Proof.
  intros H1 H2 s s' Hs [Hr|[e Hr]]; inv_m.
  - eapply H2; [|by left]. eapply H1; [done|by left].
  - eapply H1; [done|right; eauto].
  - eapply H2; [|right; eauto]. eapply H1; [done|by left].
Qed.

Lemma copy_assign_inv this other : preserves_inv (copy_assign this other).
Proof.
  unfold copy_assign. case_decide.
  - intros s s' Hs Hr.
    assert (((Vector_copy (fresh (dom (objs s))) other ;;
              Swap this (fresh (dom (objs s))) ;;
              Vector_dtor (fresh (dom (objs s)))) s = Ok () s') ∨
            ∃ e, (Vector_copy (fresh (dom (objs s))) other ;;
                  Swap this (fresh (dom (objs s))) ;;
                  Vector_dtor (fresh (dom (objs s)))) s = Throw e s') as Hr'.
    { destruct Hr as [Hr|[e Hr]]; [left|right; exists e];
        unfold fresh_obj in Hr; by rewrite <- Hr. }
    eapply (preserves_inv_seq _ _ (Vector_copy_inv _ _)
              (preserves_inv_seq _ _ (Swap_inv _ _) (Vector_dtor_inv _)));
      [exact Hs|exact Hr'].
  - intros s s' Hs [Hr|[e Hr]]; inv_m. done.
Qed.

(** C5.  Every public member, called on vectors that satisfy the
    representation invariant ([size_ <= capacity_], and storage held only
    with [capacity_ > 0]) with [size_t] arguments, leaves every vector
    satisfying it, whether the call returns or throws. *)
Theorem public_members_preserve_rep_inv (c : call T) s s' :
  size_t_args c → all_inv s →
  (run c s = Ok () s' ∨ ∃ e, run c s = Throw e s') →
  all_inv s'.
Proof.
  intros Hargs Hs Hr. revert s s' Hs Hr.
  change (preserves_inv (run c)).
  pose proof (keeps_shape_observer c) as Hobs.
  destruct c; simpl in *;
    try (by apply keeps_shape_preserves_inv);
    eauto using Vector_default_inv, Vector_sized_inv, Vector_fill_inv,
      Vector_range_inv, Vector_init_list_inv, Vector_copy_inv, Vector_move_inv,
      copy_assign_inv, move_assign_inv, Vector_dtor_inv, Swap_inv, Resize_inv,
      Resize_value_inv, Reserve_inv, ShrinkToFit_inv, Clear_inv, PopBack_inv.
  - apply push_with_inv. apply keeps_shape_copy_ctor.
  - apply push_with_inv. apply keeps_shape_move_ctor.
  - apply push_with_inv. apply keeps_shape_construct.
Qed.

End Invariant.

(** ** Element-level steps on the heap *)

Section Slots.

Context {T : Type} `{Element T}.

Implicit Types s : State T.
Implicit Types b : list (option T).

Definition with_ctor_faults s (fs : list bool) : State T :=
  mkState (objs s) (heap s) fs (alloc_faults s) (indeterminate s).

Lemma ctor_may_throw_Ok s u s' :
  ctor_may_throw s = Ok u s' ↔
  head (ctor_faults s) ≠ Some true ∧ s' = with_ctor_faults s (tail (ctor_faults s)).
Proof.
  destruct u. unfold ctor_may_throw, with_ctor_faults.
  destruct (ctor_faults s) as [|[] fs]; simpl; split;
    try done; try (by intros [= <-]); try (by intros (_ & ->)).
  by intros ([] & _).
Qed.

Lemma ctor_may_throw_Throw s e s' :
  ctor_may_throw s = Throw e s' ↔
  head (ctor_faults s) = Some true ∧ e = ElementFailure ∧
  s' = with_ctor_faults s (tail (ctor_faults s)).
Proof.
  unfold ctor_may_throw, with_ctor_faults.
  destruct (ctor_faults s) as [|[] fs]; simpl; split;
    try done; try (by intros [= <- <-]); try (by intros (_ & -> & ->));
    by intros ([=] & _).
Qed.

Lemma write_slot_Ok a i x s u s' :
  write_slot (Some a) i x s = Ok u s' ↔
  ∃ b, heap s !! a = Some b ∧ (N.to_nat i < length b)%nat ∧
       s' = with_heap s (<[a := <[N.to_nat i := x]> b]> (heap s)).
Proof.
  destruct u. unfold write_slot, with_heap.
  destruct (heap s !! a) as [b|]; [|split; [done|by intros (? & ? & _)]].
  case_decide; split.
  - intros [= <-]. eauto.
  - by intros (? & [= <-] & _ & ->).
  - done.
  - intros (? & [= <-] & ? & _). lia.
Qed.

Lemma write_slot_Throw p i x s e s' : write_slot p i x s = Throw e s' ↔ False.
Proof.
  unfold write_slot. destruct p as [a|]; [|done].
  destruct (heap s !! a); [|done]. by case_decide.
Qed.

Lemma slot_at_Some h a i (x : option T) :
  slot_at h (Some a) i = Some x ↔ ∃ b, h !! a = Some b ∧ b !! N.to_nat i = Some x.
Proof.
  unfold slot_at. simpl. destruct (h !! a) as [b|]; simpl; naive_solver.
Qed.

(** Destroying a run of live objects leaves raw storage in their place. *)
Lemma destroy_n_run a first pre xs rest s :
  heap s !! a = Some (pre ++ (Some <$> xs) ++ rest) →
  N.to_nat first = length pre →
  destroy_n (Some a) first (length xs) s =
  Ok () (with_heap s (<[a := pre ++ replicate (length xs) None ++ rest]> (heap s))).
Proof.
  revert first pre s. induction xs as [|x xs IH]; intros first pre s Hb Hf; simpl.
  - unfold ret, with_heap. simpl in Hb. rewrite insert_id by done. by destruct s.
  - assert (load (Some a) first s = Ok x s) as Hl.
    { apply load_Ok. split; [|done]. apply slot_at_Some. eexists. split; [done|].
      rewrite Hf. by apply list_lookup_middle. }
    assert (write_slot (Some a) first None s =
            Ok () (with_heap s (<[a := (pre ++ [None]) ++ (Some <$> xs) ++ rest]> (heap s))))
      as Hw.
    { apply write_slot_Ok. eexists. split; [done|]. split.
      - rewrite Hf, length_app. simpl. lia.
      - do 2 f_equal. rewrite Hf.
        replace (length pre) with (length pre + 0)%nat by lia.
        rewrite insert_app_r. simpl. by rewrite <- app_assoc. }
    unfold destroy_at.
    rewrite (bind_run_Ok _ _ _ _ _
               (eq_trans (bind_run_Ok _ _ _ _ _ Hl) Hw)).
    rewrite (IH (first + 1) (pre ++ [None])).
    + unfold with_heap. simpl. rewrite insert_insert_eq.
      do 3 f_equal. rewrite <- app_assoc. done.
    + simpl. by rewrite lookup_insert_eq.
    + rewrite length_app. simpl. lia.
Qed.

Lemma placement_new_Ok a i init s u s' :
  placement_new (Some a) i init s = Ok u s' ↔
  ∃ b x s1, heap s !! a = Some b ∧ (N.to_nat i < length b)%nat ∧
            init s = Ok x s1 ∧ write_slot (Some a) i (Some x) s1 = Ok () s'.
Proof.
  destruct u. unfold placement_new. rewrite bind_Ok. split.
  - intros ([] & s0 & [[y Hy] ->]%check_storage_Ok & Hrest).
    apply bind_Ok in Hrest as (x & s1 & Hi & Hw).
    apply slot_at_Some in Hy as (b & Hb & Hlt%lookup_lt_Some).
    by exists b, x, s1.
  - intros (b & x & s1 & Hb & Hlt & Hi & Hw). exists (), s. split.
    + apply check_storage_Ok. split; [|done].
      destruct (lookup_lt_is_Some_2 b (N.to_nat i) Hlt) as [y Hy].
      exists y. apply slot_at_Some. eauto.
    + apply bind_Ok. eauto.
Qed.

Lemma copy_ctor_Ext_Ok x s y s' :
  copy_ctor (Ext x) s = Ok y s' ↔
  y = x ∧ head (ctor_faults s) ≠ Some true ∧
  s' = with_ctor_faults s (tail (ctor_faults s)).
Proof.
  unfold copy_ctor. simpl. split.
  - intros Hr. inv_m.
    match goal with Hc : ctor_may_throw _ = _ |- _ =>
      apply ctor_may_throw_Ok in Hc as [? ->] end. done.
  - intros (-> & Hf & ->). apply bind_Ok. exists x, s. split; [done|].
    apply bind_Ok. exists (), (with_ctor_faults s (tail (ctor_faults s))).
    split; [by apply ctor_may_throw_Ok|done].
Qed.

Lemma referent_frame s s' r :
  (∀ p, ref_block r = Some p → heap s' !! p = heap s !! p) →
  referent s' r = referent s r.
Proof.
  destruct r as [x|[p|] i]; simpl; [done| |done]. intros Hh.
  unfold slot_at. simpl. by rewrite Hh.
Qed.

Lemma referent_read s r x : referent s r = Some x ↔ read_ref r s = Ok x s.
Proof.
  destruct r as [y|p i]; simpl.
  - unfold ret. split; [by intros [= ->]|by intros [= ->]].
  - rewrite load_Ok. destruct (slot_at (heap s) p i) as [[y|]|]; split;
      try done; try (by intros [= ->]); try (by intros [[= ->] _]);
      by intros [? _].
Qed.

Lemma copy_ctor_Ok r s y s' :
  copy_ctor r s = Ok y s' ↔
  referent s r = Some y ∧ head (ctor_faults s) ≠ Some true ∧
  s' = with_ctor_faults s (tail (ctor_faults s)).
Proof.
  unfold copy_ctor. rewrite bind_Ok. split.
  - intros (x & s1 & Hread & Hrest). inv_m.
    match goal with Hc : ctor_may_throw _ = _ |- _ =>
      apply ctor_may_throw_Ok in Hc as [? ->] end.
    assert (s1 = s) as ->.
    { destruct r; simpl in Hread; [by inv_m|by apply load_Ok in Hread as [_ ->]]. }
    split_and!; try done. by apply referent_read.
  - intros (Hx%referent_read & Hf & ->). exists y, s. split; [done|].
    apply bind_Ok. exists (), (with_ctor_faults s (tail (ctor_faults s))).
    split; [by apply ctor_may_throw_Ok|done].
Qed.

(** A filling loop that returns has written copies of the object [r]
    refers to into the next [todo] slots and touched nothing else of the
    heap; [r] does not point into the block that is filled. *)
Lemma fill_loop_Ok r x a first todo k s s' pre rest :
  referent s r = Some x → ref_block r ≠ Some a →
  heap s !! a = Some (pre ++ rest) →
  length pre = (N.to_nat first + k)%nat →
  uninitialized_loop (λ _, copy_ctor r) (Some a) first k todo s = Ok () s' →
  (todo ≤ length rest)%nat ∧
  heap s' = <[a := pre ++ replicate todo (Some x) ++ drop todo rest]> (heap s).
Proof.
  intros Hx Hblock. revert k s pre rest Hx.
  induction todo as [|todo IH]; intros k s pre rest Hx Hb Hk Hr; simpl in Hr.
  - inv_m. split; [lia|]. simpl. rewrite drop_0. by rewrite insert_id.
  - apply bind_Ok in Hr as ([] & s1 & Hp%on_throw_Ok & Hr).
    apply placement_new_Ok in Hp as (b & y & s0 & Hb' & Hlt & Hc & Hw).
    apply copy_ctor_Ok in Hc as (Hy & _ & ->).
    apply write_slot_Ok in Hw as (b'' & Hb'' & _ & ->). simpl in *. simplify_eq.
    rewrite length_app in Hlt.
    destruct rest as [|r0 rest]; [simpl in Hlt; lia|].
    replace (N.to_nat (first + N.of_nat k)) with (length pre + 0)%nat in * by lia.
    rewrite insert_app_r in Hr. simpl in Hr.
    eapply (IH (S k) _ (pre ++ [Some x]) rest) in Hr as [Hle Hh].
    + split; [simpl; lia|]. rewrite Hh. simpl. rewrite insert_insert_eq.
      by rewrite <- app_assoc.
    + rewrite <- Hx. apply referent_frame. simpl. intros p Hp.
      apply lookup_insert_ne. congruence.
    + simpl. rewrite lookup_insert_eq. by rewrite <- app_assoc.
    + rewrite length_app. simpl. lia.
Qed.

Lemma copy_ctor_Slot_Ok a i s x s' :
  copy_ctor (Slot (Some a) i) s = Ok x s' ↔
  (∃ b, heap s !! a = Some b ∧ b !! N.to_nat i = Some (Some x)) ∧
  head (ctor_faults s) ≠ Some true ∧
  s' = with_ctor_faults s (tail (ctor_faults s)).
Proof.
  unfold copy_ctor. simpl. split.
  - intros Hr. inv_m.
    match goal with Hc : ctor_may_throw _ = _ |- _ =>
      apply ctor_may_throw_Ok in Hc as [? ->] end.
    match goal with Hl : load _ _ _ = _ |- _ =>
      apply load_Ok in Hl as [Hl ->]; apply slot_at_Some in Hl end.
    done.
  - intros (Hb & Hf & ->). apply bind_Ok. exists x, s. split.
    + apply load_Ok. split; [|done]. by apply slot_at_Some.
    + apply bind_Ok. exists (), (with_ctor_faults s (tail (ctor_faults s))).
      split; [by apply ctor_may_throw_Ok|done].
Qed.

Lemma move_ctor_Slot_Ok a i s x s' :
  move_ctor (Slot (Some a) i) s = Ok x s' →
  ∃ b, heap s !! a = Some b ∧ b !! N.to_nat i = Some (Some x) ∧
       s' = mkState (objs s)
              (<[a := <[N.to_nat i := Some (moved_from x)]> b]> (heap s))
              (tail (ctor_faults s)) (alloc_faults s) (indeterminate s).
Proof.
  unfold move_ctor. simpl. intros Hr. inv_m.
  match goal with Hc : ctor_may_throw _ = _ |- _ =>
    apply ctor_may_throw_Ok in Hc as [? ->] end.
  match goal with Hl : load _ _ _ = _ |- _ =>
    apply load_Ok in Hl as [Hl ->]; apply slot_at_Some in Hl as (b & Hb & Hx) end.
  match goal with Hw : write_slot _ _ _ _ = _ |- _ =>
    apply write_slot_Ok in Hw as (b' & Hb' & _ & ->) end.
  simpl in *. simplify_eq. eauto.
Qed.

(** A transfer loop that returns has moved the next objects of the source
    block into the destination block, leaving moved-from objects behind. *)
Lemma move_loop_Ok src dst xs k s s' spre srest dpre drest :
  src ≠ dst →
  heap s !! src = Some (spre ++ (Some <$> xs) ++ srest) →
  heap s !! dst = Some (dpre ++ drest) →
  length spre = k → length dpre = k →
  uninitialized_loop (λ i, move_ctor (Slot (Some src) i)) (Some dst) 0 k (length xs) s
    = Ok () s' →
  (length xs ≤ length drest)%nat ∧
  heap s' =
    <[dst := dpre ++ (Some <$> xs) ++ drop (length xs) drest]>
      (<[src := spre ++ (Some ∘ moved_from <$> xs) ++ srest]> (heap s)).
Proof.
  intros Hne. revert k s spre dpre drest.
  induction xs as [|x xs IH]; intros k s spre dpre drest Hs Hd Hks Hkd Hr;
    simpl in Hr.
  - inv_m. split; [simpl; lia|]. simpl in *. rewrite drop_0.
    by rewrite (insert_id _ src), (insert_id _ dst).
  - apply bind_Ok in Hr as ([] & s1 & Hp%on_throw_Ok & Hr).
    apply placement_new_Ok in Hp as (b & y & s0 & Hb' & Hlt & Hc & Hw).
    apply move_ctor_Slot_Ok in Hc as (b0 & Hb0 & Hy & ->).
    apply write_slot_Ok in Hw as (b1 & Hb1 & _ & ->). simpl in *.
    rewrite lookup_insert_ne in Hb1 by done. simplify_eq.
    rewrite length_app in Hlt.
    destruct drest as [|r drest]; [simpl in Hlt; lia|].
    replace (N.to_nat (0 + N.of_nat (length spre))) with (length dpre + 0)%nat in *
      by lia.
    rewrite insert_app_r in Hr. simpl in Hr.
    replace (N.to_nat (N.of_nat (length spre))) with (length spre + 0)%nat in *
      by lia.
    rewrite lookup_app_r in Hy by lia.
    replace (length spre + 0 - length spre)%nat with 0%nat in Hy by lia.
    simpl in Hy. injection Hy as <-.
    rewrite insert_app_r in Hr. simpl in Hr.
    eapply (IH (S (length spre)) _ (spre ++ [Some (moved_from x)])
              (dpre ++ [Some x]) drest) in Hr as [Hle Hh].
    + split; [simpl; lia|]. rewrite Hh. simpl.
      rewrite (insert_insert_ne _ src dst) by done.
      rewrite (insert_insert_eq _ dst), (insert_insert_eq _ src).
      by rewrite <- !app_assoc.
    + simpl. rewrite lookup_insert_ne by done. rewrite lookup_insert_eq.
      by rewrite <- app_assoc.
    + simpl. rewrite lookup_insert_eq. by rewrite <- app_assoc.
    + rewrite length_app. simpl. lia.
    + rewrite length_app. simpl. lia.
Qed.

Lemma destroy_n_others p first n s u s' a :
  destroy_n p first n s = Ok u s' → p ≠ Some a → heap s' !! a = heap s !! a.
Proof.
  revert first s. induction n as [|n IH]; intros first s Hr Hp; simpl in Hr.
  - by inv_m.
  - unfold destroy_at in Hr. inv_m.
    match goal with Hn : destroy_n _ _ _ _ = _ |- _ =>
      apply IH in Hn; [rewrite Hn|done] end.
    match goal with Hl : load _ _ _ = _ |- _ => apply load_Ok in Hl as [_ ->] end.
    destruct p as [d|]; [|by match goal with Hw : write_slot None _ _ _ = _ |- _ =>
                                 discriminate Hw end].
    match goal with Hw : write_slot _ _ _ _ = _ |- _ =>
      apply write_slot_Ok in Hw as (b & Hb & _ & ->) end.
    simpl. apply lookup_insert_ne. congruence.
Qed.

Lemma destroy_others p first last s u s' a :
  destroy p first last s = Ok u s' → p ≠ Some a → heap s' !! a = heap s !! a.
Proof.
  unfold destroy. case_decide; [apply destroy_n_others|done].
Qed.

(** What a growth transaction that returns has done: the new block is
    fresh, it received the elements, [extra] ran on it, and the vector
    adopted it with the new capacity. *)
Lemma regrow_heap this nc extra s v l s' :
  objs s !! this = Some v → elements s v = Some l → nc ≠ 0 →
  (∀ p n, keeps_shape (extra p n)) →
  regrow this nc extra s = Ok () s' →
  ∃ a rest s2 s3,
    heap s !! a = None ∧
    heap s2 !! a = Some ((Some <$> l) ++ rest) ∧
    (∀ a', a' ≠ a → data_ v ≠ Some a' → heap s2 !! a' = heap s !! a') ∧
    N.of_nat (length l + length rest) ≤ nc ∧
    extra (Some a) (size_ v) s2 = Ok () s3 ∧
    heap s' !! a = heap s3 !! a ∧
    objs s' = <[this := mkVector (size_ v) nc (Some a)]> (objs s).
Proof.
  intros Hv Hl Hnc Hex Hr.
  eapply regrow_Ok in Hr as (p & s1 & s2 & s3 & s4 & s5 & Ha & Hm & He & Hd & Hf & Ho & ->);
    [|done..].
  pose proof (Allocate_slots _ _ _ _ Ha) as Hslots.
  apply Allocate_Ok in Ha as [(? & _)|(_ & _ & -> & ->)]; [done|].
  pose proof (fresh_addr_fresh (heap s)) as Hfresh.
  set (a := fresh_addr (heap s)) in *.
  destruct Hslots as (b0 & Hb0 & Hlen0). simpl in Hb0.
  rewrite lookup_insert_eq in Hb0. injection Hb0 as <-.
  set (L := N.to_nat (SizeT.mul nc sizeof / sizeof)) in *.
  rewrite length_replicate in Hlen0.
  apply elements_Some in Hl as [Hsz Hdata].
  exists a.
  assert (∃ rest, heap s2 !! a = Some ((Some <$> l) ++ rest) ∧
                  (length l + length rest = L)%nat ∧
                  ∀ a', a' ≠ a → data_ v ≠ Some a' → heap s2 !! a' = heap s !! a')
    as (rest & Hrest & HL & Hframe).
  { unfold uninitialized_move in Hm. rewrite Hsz, Nat2N.id in Hm.
    destruct (data_ v) as [d|].
    - destruct Hdata as [rest Hd0].
      assert (d ≠ a) as Hne by congruence.
      eapply (move_loop_Ok d a l 0 _ _ [] rest [] (replicate L None)) in Hm
        as [Hle ->]; try done.
      + eexists. rewrite lookup_insert_eq. split_and!; [done| |].
        * rewrite length_replicate in Hle. rewrite length_drop, length_replicate. lia.
        * intros a' Ha' Hd'. simpl.
          rewrite !lookup_insert_ne by congruence. done.
      + simpl. by rewrite lookup_insert_ne.
      + simpl. by rewrite lookup_insert_eq.
    - subst l. simpl in Hm. inv_m. simpl. eexists. rewrite lookup_insert_eq.
      split_and!; [done|by rewrite length_replicate|].
      intros a' Ha' _. by rewrite lookup_insert_ne. }
  exists rest, s2, s3. split_and!; try done; [lia|].
  simpl. destruct (data_ v) as [d|].
  - apply Deallocate_Ok in Hf as [[b Hb] ->]. simpl.
    assert (d ≠ a).
    { intros ->. destruct Hdata as [r Hr]. congruence. }
    rewrite lookup_delete_ne by done.
    eapply destroy_others; [done|congruence].
  - apply Deallocate_Ok in Hf as ->. by eapply destroy_others.
Qed.

End Slots.

(** ** [ShrinkToFit] *)

Section Shrink.

Context {T : Type} `{Element T}.

Implicit Types s : State T.

Lemma with_objs_id s : with_objs s (objs s) = s.
Proof. by destruct s. Qed.

Lemma Vector_eta v : mkVector (size_ v) (capacity_ v) (data_ v) = v.
Proof. by destruct v. Qed.

Lemma elements_length s v l : elements s v = Some l → size_ v = N.of_nat (length l).
Proof. by intros [? _]%elements_Some. Qed.

(** C9.  A [ShrinkToFit] that returns keeps [size_] and the elements and
    leaves [capacity_ = size_]: with no elements the vector is back in the
    empty state and its block is released; with [0 < size_ < capacity_] the
    elements sit in a fresh block of exactly [size_] slots; with
    [size_ = capacity_] nothing at all has changed. *)
Theorem ShrinkToFit_spec this s v l s' :
  objs s !! this = Some v → rep_inv v → elements s v = Some l →
  ShrinkToFit this s = Ok () s' →
  ∃ v', objs s' !! this = Some v' ∧
    size_ v' = size_ v ∧ capacity_ v' = size_ v ∧ elements s' v' = Some l ∧
    (size_ v = 0 →
       v' = empty_vector ∧ ∀ a, data_ v = Some a → heap s' !! a = None) ∧
    (0 < size_ v < capacity_ v →
       ∃ a, data_ v' = Some a ∧ heap s !! a = None ∧
            heap s' !! a = Some (Some <$> l)) ∧
    (size_ v = capacity_ v → s' = s).
Proof.
  intros Hv (Hle & Hcap & Hdata) Hl Hr.
  pose proof (elements_length _ _ _ Hl) as Hsz.
  unfold ShrinkToFit in Hr. inv_m.
  destruct (N.eqb_spec (size_ v) 0) as [H0|H0].
  - inv_m.
    match goal with Hd : Deallocate _ ?s0 = Ok _ ?s1 |- _ =>
      pose proof (Deallocate_objs _ _ _ _ Hd) as Ho; apply Deallocate_Ok in Hd;
      rename Hd into Hd0, s1 into s1 end.
    norm_objs. rewrite Ho in *. simplify_eq.
    assert (l = []) as -> by (destruct l; [done|simpl in *; lia]).
    eexists. split; [done|]. simpl. rewrite !H0.
    split_and!; try done.
    + split; [done|]. intros a Ha.
      rewrite Ha in Hd0. destruct Hd0 as [_ ->]. simpl. apply lookup_delete_eq.
    + lia.
    + intros Hc. symmetry in Hc.
      destruct (data_ v) as [a|] eqn:Ed; [specialize (Hdata ltac:(eauto)); lia|].
      subst. rewrite insert_id; [apply with_objs_id|].
      rewrite Hv. f_equal. destruct v; simpl in *; congruence.
  - destruct (N.ltb_spec (size_ v) (capacity_ v)) as [Hlt|Hge].
    + match goal with Hg : regrow _ _ _ _ = _ |- _ =>
        eapply regrow_heap in Hg
          as (a & rest & s2 & s3 & Hfresh & Hb & _ & Hlen & He & Hh & Ho);
          [|done|done|done|intros; eauto with shape] end.
      inv_m. rewrite Ho. eexists. split; [apply lookup_insert_eq|]. simpl.
      assert (rest = []) as -> by (destruct rest; [done|simpl in *; lia]).
      rewrite app_nil_r in Hb.
      split_and!; try done.
      * apply elements_Some. simpl. split; [done|]. exists []. rewrite app_nil_r.
        by rewrite Hh.
      * intros _. exists a. by rewrite Hh.
      * lia.
    + inv_m. exists v. split_and!; try done; lia.
Qed.

End Shrink.

(** ** Tail insertion *)

Section Push.

Context {T : Type} `{Element T}.

Implicit Types s : State T.

(** [init] builds the object [x] out of a source that does not lie in the
    storage of [v]: whenever the source block [src] is as it is in [s],
    [init] yields [x] and changes the heap at most at [src]. *)
Definition builds (s : State T) (v : Vector) (init : M T) (x : T) : Prop :=
  ∃ src : Pointer,
    (∀ p, src = Some p → is_Some (heap s !! p) ∧ data_ v ≠ Some p) ∧
    ∀ s2 y s3,
      (∀ p, src = Some p → heap s2 !! p = heap s !! p) →
      init s2 = Ok y s3 →
      y = x ∧ ∀ a, src ≠ Some a → heap s3 !! a = heap s2 !! a.

Lemma referent_block s r x p :
  referent s r = Some x → ref_block r = Some p → is_Some (heap s !! p).
Proof.
  destruct r as [y|[q|] i]; simpl; try done. intros Hx [= ->].
  unfold slot_at in Hx. simpl in Hx. destruct (heap s !! p); [eauto|done].
Qed.

Lemma outside_block (r : ref T) v p :
  outside r v → ref_block r = Some p → data_ v ≠ Some p.
Proof. destruct r as [y|q i]; simpl; [done|]. intros Hq -> Hd. by apply Hq. Qed.

Lemma builds_copy_ctor s v r x :
  referent s r = Some x → outside r v → builds s v (copy_ctor r) x.
Proof.
  intros Hx Hout. exists (ref_block r). split.
  - intros p Hp. split; [by eapply referent_block|by eapply outside_block].
  - intros s2 y s3 Hsame (Hy & _ & ->)%copy_ctor_Ok.
    rewrite (referent_frame s s2) in Hy by done. split; [congruence|done].
Qed.

Lemma builds_move_ctor s v r x :
  referent s r = Some x → outside r v → builds s v (move_ctor r) x.
Proof.
  intros Hx Hout. exists (ref_block r). split.
  - intros p Hp. split; [by eapply referent_block|by eapply outside_block].
  - intros s2 y s3 Hsame Hr.
    rewrite <- (referent_frame s s2) in Hx by done.
    unfold move_ctor in Hr. apply bind_Ok in Hr as (y' & s0 & Hread & Hr).
    apply referent_read in Hx. 
    destruct r as [z|p i]; simpl in *.
    + inv_m.
      match goal with Hc : ctor_may_throw _ = _ |- _ =>
        apply ctor_may_throw_Ok in Hc as [_ ->] end. done.
    + rewrite Hx in Hread. injection Hread as <- <-. inv_m.
      match goal with Hc : ctor_may_throw _ = _ |- _ =>
        apply ctor_may_throw_Ok in Hc as [_ ->] end.
      destruct p as [p|]; [|by match goal with Hw : write_slot None _ _ _ = _ |- _ =>
                                 discriminate Hw end].
      match goal with Hw : write_slot _ _ _ _ = _ |- _ =>
        apply write_slot_Ok in Hw as (b & Hb & _ & ->) end.
      split; [done|]. intros a Ha. simpl. apply lookup_insert_ne. congruence.
Qed.

Lemma builds_emplace s v x : builds s v (ctor_may_throw ;; ret x) x.
Proof.
  exists None. split; [done|]. intros s2 y s3 _ Hr. inv_m.
  match goal with Hc : ctor_may_throw _ = _ |- _ =>
    apply ctor_may_throw_Ok in Hc as [_ ->] end. done.
Qed.

Lemma builds_construct s v args x :
  built s args = Some x → args_outside args v → builds s v (construct args) x.
Proof.
  destruct args as [y|r|r]; simpl.
  - intros [= ->] _. apply builds_emplace.
  - apply builds_copy_ctor.
  - apply builds_move_ctor.
Qed.

Lemma insert_live_tail (l : list T) (rest : list (option T)) x :
  (length l < length ((Some <$> l) ++ rest))%nat →
  ∃ rest', <[length l := Some x]> ((Some <$> l) ++ rest) =
           (Some <$> (l ++ [x])) ++ rest'.
Proof.
  intros Hlt. rewrite length_app, length_fmap in Hlt.
  destruct rest as [|r rest]; [simpl in Hlt; lia|]. exists rest.
  replace (length l) with (length (Some <$> l) + 0)%nat by (rewrite length_fmap; lia).
  rewrite insert_app_r. simpl. by rewrite fmap_app, <- app_assoc.
Qed.

Lemma placement_new_tail a init x s l rest s' n :
  (∀ y s1, init s = Ok y s1 → y = x ∧ heap s1 !! a = heap s !! a) →
  heap s !! a = Some ((Some <$> l) ++ rest) → n = N.of_nat (length l) →
  placement_new (Some a) n init s = Ok () s' →
  ∃ rest', heap s' !! a = Some ((Some <$> (l ++ [x])) ++ rest').
Proof.
  intros Hi Hb -> Hp.
  apply placement_new_Ok in Hp as (b & y & s1 & Hb' & Hlt & Hy & Hw).
  apply Hi in Hy as [-> Hh].
  apply write_slot_Ok in Hw as (b1 & Hb1 & _ & ->).
  rewrite Hh in Hb1. simplify_eq. rewrite Nat2N.id in *.
  destruct (insert_live_tail l rest x Hlt) as [rest' Hrest].
  exists rest'. simpl. by rewrite lookup_insert_eq, Hrest.
Qed.

Lemma push_with_spec this init x s v l s' :
  builds s v init x → keeps_shape init →
  objs s !! this = Some v → rep_inv v → elements s v = Some l →
  push_with this init s = Ok () s' →
  ∃ v', objs s' !! this = Some v' ∧ rep_inv v' ∧
    size_ v' = size_ v + 1 ∧
    elements s' v' = Some (l ++ [x]) ∧
    capacity_ v' =
      (if size_ v =? capacity_ v then N.max 1 (2 * capacity_ v) else capacity_ v).
Proof.
  intros (src & Hsrc & Hb) Hk Hv (Hle & Hcap & Hdata) Hl Hr.
  pose proof (elements_length _ _ _ Hl) as Hsz.
  unfold push_with in Hr. inv_m.
  destruct (N.eqb_spec (size_ v) (capacity_ v)) as [Heq|Hne].
  - set (nc := if capacity_ v =? 0 then 1 else SizeT.mul (capacity_ v) 2) in *.
    assert (size_ v < nc) as Hlt.
    { match goal with Hg : regrow _ _ _ _ = _ |- _ =>
        eapply regrow_Ok in Hg
          as (p & s1 & s2 & s3 & s4 & s5 & Ha & Hm & He & _);
          [|eassumption|intros; eauto with shape]
      end.
      eapply placement_new_in_block; [done| |done].
      eapply keeps_shape_Ok; [|done]. apply keeps_shape_uninitialized_move. }
    assert (nc = N.max 1 (2 * capacity_ v)) as Hnc.
    { subst nc. destruct (N.eqb_spec (capacity_ v) 0) as [->|Hc0]; [done|].
      destruct (decide (capacity_ v * 2 < SizeT.modulus)) as [Hs|Hs].
      - unfold SizeT.mul. rewrite SizeT.wrap_small by done. lia.
      - pose proof (SizeT.mul2_overflow (capacity_ v) Hcap). lia. }
    assert (nc < SizeT.modulus) as Hncm.
    { subst nc. destruct (capacity_ v =? 0); [apply SizeT.modulus_gt_1|apply SizeT.wrap_lt]. }
    match goal with Hg : regrow _ _ _ _ = _ |- _ =>
      eapply regrow_heap in Hg
        as (a & rest & s2 & s3 & Hfresh & Hb2 & Hframe & Hlen & He & Hh & Ho);
        [|eassumption|eassumption|lia|intros; eauto with shape] end.
    assert (src ≠ Some a) as Hsa.
    { intros ->. destruct (Hsrc a eq_refl) as [[? Hin] _]. congruence. }
    eapply placement_new_tail in He as [rest' Hb3]; [|..|done|done].
    2:{ intros y s1 Hy. eapply Hb in Hy as [-> Hy].
        - split; [done|]. by apply Hy.
        - intros p ->. destruct (Hsrc p eq_refl) as [_ Hpd].
          apply Hframe; [|done]. intros ->. by apply Hsa. }
    norm_objs. rewrite Ho in *. norm_objs.
    eexists. split; [done|]. simpl.
    rewrite SizeT.add_small by lia.
    split_and!; try done.
    + unfold rep_inv. simpl. split_and!; [lia|done|lia].
    + apply elements_Some. simpl. split.
      * rewrite length_app. simpl. lia.
      * exists rest'. by rewrite Hh.
  - inv_m.
    match goal with Hp : placement_new ?d _ _ _ = _ |- _ =>
      destruct d as [a|] eqn:Ed;
      [|unfold placement_new in Hp; inv_m;
        by match goal with Hc : check_storage None _ _ = _ |- _ => discriminate Hc end]
    end.
    apply elements_Some in Hl as [_ Hd]. rewrite Ed in Hd. destruct Hd as [rest Hb0].
    assert (src ≠ Some a) as Hsa.
    { intros ->. destruct (Hsrc a eq_refl) as [_ Hpd]. congruence. }
    match goal with Hp : placement_new _ _ _ ?s0 = Ok _ ?s1 |- _ =>
      assert (objs s1 = objs s0) as Ho
        by (eapply run_Ok_objs; [|exact Hp]; eauto with shape);
      eapply placement_new_tail in Hp as [rest' Hb3]; [|..|done|done] end.
    2:{ intros y s1 Hy. eapply Hb in Hy as [-> Hy]; [|done].
        split; [done|]. by apply Hy. }
    norm_objs. rewrite Ho in *. norm_objs.
    eexists. split; [done|]. simpl.
    rewrite SizeT.add_small by lia.
    split_and!; try done.
    + unfold rep_inv. simpl. split_and!; [lia|done|intros _; apply Hdata; eauto].
    + apply elements_Some. simpl. rewrite Ed. split.
      * rewrite length_app. simpl. lia.
      * by exists rest'.
Qed.

(** A [PushBack] of a value of the caller: by copy, or by move. *)
Inductive push_arg := ByCopy (x : T) | ByMove (x : T).

Definition pushed (p : push_arg) : T :=
  match p with ByCopy x | ByMove x => x end.

Definition push_back (this : obj) (p : push_arg) : M (T:=T) unit :=
  match p with
  | ByCopy x => PushBack this (Ext x)
  | ByMove x => PushBack_move this (Ext x)
  end.

Fixpoint push_back_all (this : obj) (ps : list push_arg) : M (T:=T) unit :=
  match ps with
  | [] => ret ()
  | p :: ps' => push_back this p ;; push_back_all this ps'
  end.

Lemma push_back_spec this p s v l s' :
  objs s !! this = Some v → rep_inv v → elements s v = Some l →
  push_back this p s = Ok () s' →
  ∃ v', objs s' !! this = Some v' ∧ rep_inv v' ∧
    size_ v' = size_ v + 1 ∧
    elements s' v' = Some (l ++ [pushed p]) ∧
    capacity_ v' =
      (if size_ v =? capacity_ v then N.max 1 (2 * capacity_ v) else capacity_ v).
Proof.
  destruct p as [x|x]; simpl; unfold PushBack, PushBack_move.
  - apply push_with_spec; [by apply builds_copy_ctor|apply keeps_shape_copy_ctor].
  - apply push_with_spec; [by apply builds_move_ctor|apply keeps_shape_move_ctor].
Qed.

Lemma push_back_all_spec this ps s v l s' :
  objs s !! this = Some v → rep_inv v → elements s v = Some l →
  push_back_all this ps s = Ok () s' →
  ∃ v', objs s' !! this = Some v' ∧ rep_inv v' ∧
    size_ v' = size_ v + N.of_nat (length ps) ∧
    elements s' v' = Some (l ++ (pushed <$> ps)).
Proof.
  revert s v l. induction ps as [|p ps IH]; intros s v l Hv Hinv Hl Hr; simpl in Hr.
  - inv_m. exists v. rewrite app_nil_r. split_and!; try done. simpl. lia.
  - inv_m.
    match goal with Hp : push_back _ _ _ = _ |- _ =>
      eapply push_back_spec in Hp as (v1 & Hv1 & Hinv1 & Hsz1 & Hl1 & _); [|done..] end.
    match goal with Hp : push_back_all _ _ _ = _ |- _ =>
      eapply IH in Hp as (v2 & Hv2 & Hinv2 & Hsz2 & Hl2); [|done..] end.
    exists v2. split_and!; try done.
    + rewrite Hsz2, Hsz1. simpl. lia.
    + by rewrite Hl2, <- app_assoc.
Qed.

Lemma elements_empty s : elements s empty_vector = Some [].
Proof. done. Qed.

End Push.

(** ** [Resize] *)

Section Resize.

Context {T : Type} `{Element T}.

Implicit Types s : State T.

Lemma placement_new_None i init s u s' :
  placement_new None i init s = Ok u s' ↔ False.
Proof. unfold placement_new. split; [|done]. intros Hr. inv_m. Qed.

Lemma uninitialized_loop_None init first k todo s u s' :
  uninitialized_loop init None first k todo s = Ok u s' → todo = 0%nat.
Proof.
  destruct todo as [|todo]; [done|]. simpl. intros Hr. inv_m.
Qed.

(** The block of a vector after [Resize(n, x)] within capacity: the first
    [n] elements stay, an excess tail becomes raw storage, a gap up to [n]
    is filled with [x], and the slots after these are as they were. *)
Definition resized_block (l : list T) (rest : list (option T)) (n : nat) (x : T)
  : list (option T) :=
  (Some <$> take n l) ++ replicate (length l - n) None ++
  replicate (n - length l) (Some x) ++ drop (n - length l) rest.

Lemma Resize_value_spec this n r x s v l s' :
  objs s !! this = Some v → rep_inv v → elements s v = Some l →
  n < SizeT.modulus →
  referent s r = Some x → outside r v →
  Resize_value this n r s = Ok () s' →
  ∃ v', objs s' !! this = Some v' ∧ size_ v' = n ∧
    elements s' v' =
      Some (take (N.to_nat n) l ++ replicate (N.to_nat n - length l) x) ∧
    (capacity_ v < n → capacity_ v' = n) ∧
    (n ≤ capacity_ v →
       capacity_ v' = capacity_ v ∧ data_ v' = data_ v ∧
       ∀ a rest, data_ v = Some a → heap s !! a = Some ((Some <$> l) ++ rest) →
         heap s' = <[a := resized_block l rest (N.to_nat n) x]> (heap s)).
Proof.
  intros Hv (Hle & Hcap & Hdata) Hl Hn Hx Hout Hr.
  pose proof (elements_length _ _ _ Hl) as Hsz.
  unfold Resize_value in Hr. inv_m.
  destruct (N.ltb_spec (capacity_ v) n) as [Hlt|Hge].
  - match goal with Hg : regrow _ _ _ _ = _ |- _ =>
      eapply regrow_heap in Hg
        as (a & rest & s2 & s3 & Hfresh & Hb2 & Hframe & Hlen & He & Hh & Ho);
        [|eassumption|eassumption|lia|intros; eauto with shape] end.
    unfold uninitialized_fill_n in He.
    rewrite SizeT.sub_small in He by lia.
    assert (ref_block r ≠ Some a) as Hra.
    { intros Hp. destruct (referent_block _ _ _ _ Hx Hp) as [? Hin]. congruence. }
    eapply (fill_loop_Ok r x) in He as [Htodo Hh3];
      [| |done|done|rewrite length_fmap; lia].
    2:{ rewrite <- Hx. apply referent_frame. intros p Hp.
        apply Hframe; [congruence|by eapply outside_block]. }
    norm_objs. rewrite Ho in *. norm_objs.
    eexists. split; [done|]. simpl. split_and!; try done; [|lia].
    rewrite take_ge by lia.
    apply elements_Some. simpl. split.
    + rewrite length_app, length_replicate. lia.
    + rewrite Hh, Hh3, lookup_insert_eq. eexists.
      rewrite fmap_app, fmap_replicate, <- app_assoc.
      by replace (N.to_nat (n - size_ v)) with (N.to_nat n - length l)%nat by lia.
  - match goal with Hb : (if _ then _ else _) _ = Ok _ ?st |- _ =>
      rename Hb into Hbody; rename st into s1 end.
    apply elements_Some in Hl as [_ Hd].
    destruct (N.ltb_spec n (size_ v)) as [Hshrink|Hgap].
    + destruct (data_ v) as [a|] eqn:Ed; [|subst l; simpl in *; lia].
      destruct Hd as [rest Hb0].
      unfold destroy in Hbody. rewrite decide_True in Hbody by lia.
      set (n' := N.to_nat n) in *.
      assert (heap s !! a =
              Some ((Some <$> take n' l) ++ (Some <$> drop n' l) ++ rest)) as Hb1.
      { by rewrite app_assoc, <- fmap_app, take_drop. }
      replace (N.to_nat (size_ v - n)) with (length (drop n' l)) in Hbody
        by (rewrite length_drop; lia).
      rewrite (destroy_n_run a n _ _ _ s Hb1) in Hbody
        by (rewrite length_fmap, length_take; lia).
      injection Hbody as <-. norm_objs.
      eexists. split; [done|]. simpl. rewrite Ed.
      replace (n' - length l)%nat with 0%nat by (subst n'; lia).
      assert (resized_block l rest n' x =
              (Some <$> take n' l) ++ replicate (length (drop n' l)) None ++ rest)
        as Hblock.
      { unfold resized_block. rewrite length_drop.
        replace (n' - length l)%nat with 0%nat by (subst n'; lia). by rewrite drop_0. }
      split_and!; try done; [|lia|].
      * rewrite app_nil_r. apply elements_Some. simpl. split.
        -- rewrite length_take. lia.
        -- eexists. by rewrite lookup_insert_eq.
      * intros _. split_and!; try done. intros a' rest' [= <-] Hb'.
        rewrite Hb0 in Hb'. injection Hb' as Hr%app_inv_head. subst rest'.
        by rewrite Hblock.
    + unfold uninitialized_fill_n in Hbody.
      rewrite SizeT.sub_small in Hbody by lia.
      assert (N.to_nat (n - size_ v) = N.to_nat n - length l)%nat as Htodo by lia.
      destruct (data_ v) as [a|] eqn:Ed.
      * destruct Hd as [rest Hb0].
        assert (ref_block r ≠ Some a) as Hra.
        { intros Hp. eapply outside_block in Hp; [|done]. congruence. }
        eapply (fill_loop_Ok r x) in Hbody as Hfill;
          [|done|done|done|rewrite length_fmap; lia].
        destruct Hfill as [Hle' Hh].
        assert (objs s1 = objs s) as Ho
          by (eapply run_Ok_objs; [|exact Hbody]; eauto with shape).
        norm_objs. rewrite Ho in *. norm_objs.
        eexists. split; [done|]. simpl. rewrite Ed.
        rewrite take_ge by lia. rewrite Htodo in Hh.
        split_and!; try done; [|lia|].
        -- apply elements_Some. simpl. split.
           ++ rewrite length_app, length_replicate. lia.
           ++ rewrite Hh, lookup_insert_eq. eexists.
              by rewrite fmap_app, fmap_replicate, <- app_assoc.
        -- intros _. split_and!; try done. intros a' rest' [= <-] Hb'.
           rewrite Hb0 in Hb'. injection Hb' as Hr%app_inv_head. subst rest'.
           rewrite Hh. unfold resized_block.
           rewrite take_ge by lia.
           by replace (length l - N.to_nat n)%nat with 0%nat by lia.
      * subst l. simpl in *.
        pose proof (uninitialized_loop_None _ _ _ _ _ _ _ Hbody) as Hz.
        rewrite Hz in Hbody. simpl in Hbody. inv_m. norm_objs.
        eexists. split; [done|]. simpl. rewrite Ed.
        assert (n = 0) as -> by lia. simpl.
        split_and!; try done. lia.
Qed.

(** A default-initialisation leaves the heap alone; where [T] has a
    default constructor the object is [default_value]. *)
Lemma default_ctor_Ok s y s' :
  default_ctor s = Ok y s' →
  heap s' = heap s ∧ (trivial_default = false → y = default_value).
Proof.
  unfold default_ctor. destruct trivial_default.
  - intros [= <- <-]. done.
  - intros Hr. inv_m.
    match goal with Hc : ctor_may_throw _ = _ |- _ =>
      apply ctor_may_throw_Ok in Hc as [_ ->] end. done.
Qed.

(** A loop of default-initialisations that returns has constructed as
    many objects as it was asked to. *)
Lemma default_loop_Ok a first todo k s s' pre rest :
  heap s !! a = Some (pre ++ rest) →
  length pre = (N.to_nat first + k)%nat →
  uninitialized_loop (λ _, default_ctor) (Some a) first k todo s = Ok () s' →
  ∃ xs, length xs = todo ∧ (todo ≤ length rest)%nat ∧
    heap s' = <[a := pre ++ (Some <$> xs) ++ drop todo rest]> (heap s) ∧
    (trivial_default = false → xs = replicate todo default_value).
Proof.
  revert k s pre rest.
  induction todo as [|todo IH]; intros k s pre rest Hb Hk Hr; simpl in Hr.
  - inv_m. exists []. split_and!; [done|lia| |done].
    simpl. rewrite drop_0. by rewrite insert_id.
  - apply bind_Ok in Hr as ([] & s1 & Hp%on_throw_Ok & Hr).
    apply placement_new_Ok in Hp as (b & y & s0 & Hb' & Hlt & Hc & Hw).
    apply default_ctor_Ok in Hc as [Hh0 Hy].
    apply write_slot_Ok in Hw as (b'' & Hb'' & _ & ->). simpl in *.
    rewrite Hh0 in *. simplify_eq.
    rewrite length_app in Hlt.
    destruct rest as [|r0 rest]; [simpl in Hlt; lia|].
    replace (N.to_nat (first + N.of_nat k)) with (length pre + 0)%nat in * by lia.
    rewrite insert_app_r in Hr. simpl in Hr.
    eapply (IH (S k) _ (pre ++ [Some y]) rest) in Hr as (xs & Hlen & Hle & Hh & Hxs).
    + exists (y :: xs). split_and!; [simpl; lia|simpl; lia| |].
      * rewrite Hh. simpl. rewrite insert_insert_eq.
        by rewrite <- app_assoc.
      * intros Ht. simpl. by rewrite (Hy Ht), (Hxs Ht).
    + simpl. rewrite lookup_insert_eq. by rewrite <- app_assoc.
    + rewrite length_app. simpl. lia.
Qed.

(** The block of a vector after [Resize(n)] within capacity: the first
    [n] elements stay, an excess tail becomes raw storage, a gap up to [n]
    holds the new objects [xs], and the slots after these are as they
    were. *)
Definition default_resized_block (l : list T) (rest : list (option T)) (n : nat)
    (xs : list T) : list (option T) :=
  (Some <$> take n l) ++ replicate (length l - n) None ++
  (Some <$> xs) ++ drop (length xs) rest.

(** [Resize(n)]: the new objects [xs] are default-initialised. *)
Lemma Resize_spec this n s v l s' :
  objs s !! this = Some v → rep_inv v → elements s v = Some l →
  n < SizeT.modulus →
  Resize this n s = Ok () s' →
  ∃ v' xs, objs s' !! this = Some v' ∧ size_ v' = n ∧
    elements s' v' = Some (take (N.to_nat n) l ++ xs) ∧
    length xs = (N.to_nat n - length l)%nat ∧
    (trivial_default = false → xs = replicate (N.to_nat n - length l) default_value) ∧
    (capacity_ v < n → capacity_ v' = n) ∧
    (n ≤ capacity_ v →
       capacity_ v' = capacity_ v ∧ data_ v' = data_ v ∧
       ∀ a rest, data_ v = Some a → heap s !! a = Some ((Some <$> l) ++ rest) →
         heap s' = <[a := default_resized_block l rest (N.to_nat n) xs]> (heap s)).
Proof.
  intros Hv (Hle & Hcap & Hdata) Hl Hn Hr.
  pose proof (elements_length _ _ _ Hl) as Hsz.
  unfold Resize in Hr. inv_m.
  destruct (N.ltb_spec (capacity_ v) n) as [Hlt|Hge].
  - match goal with Hg : regrow _ _ _ _ = _ |- _ =>
      eapply regrow_heap in Hg
        as (a & rest & s2 & s3 & Hfresh & Hb2 & Hframe & Hlen & He & Hh & Ho);
        [|eassumption|eassumption|lia|intros; eauto with shape] end.
    unfold uninitialized_default_construct_n in He.
    rewrite SizeT.sub_small in He by lia.
    eapply default_loop_Ok in He as (xs & Hxl & Htodo & Hh3 & Hdef);
      [|done|rewrite length_fmap; lia].
    replace (N.to_nat (n - size_ v)) with (N.to_nat n - length l)%nat in * by lia.
    norm_objs. rewrite Ho in *. norm_objs.
    eexists _, xs. split; [done|]. simpl. split_and!; try done; [|lia].
    rewrite take_ge by lia.
    apply elements_Some. simpl. split.
    + rewrite length_app. lia.
    + rewrite Hh, Hh3, lookup_insert_eq. eexists.
      by rewrite fmap_app, <- app_assoc.
  - match goal with Hb : (if _ then _ else _) _ = Ok _ ?st |- _ =>
      rename Hb into Hbody; rename st into s1 end.
    apply elements_Some in Hl as [_ Hd].
    destruct (N.ltb_spec n (size_ v)) as [Hshrink|Hgap].
    + destruct (data_ v) as [a|] eqn:Ed; [|subst l; simpl in *; lia].
      destruct Hd as [rest Hb0].
      unfold destroy in Hbody. rewrite decide_True in Hbody by lia.
      set (n' := N.to_nat n) in *.
      assert (heap s !! a =
              Some ((Some <$> take n' l) ++ (Some <$> drop n' l) ++ rest)) as Hb1.
      { by rewrite app_assoc, <- fmap_app, take_drop. }
      replace (N.to_nat (size_ v - n)) with (length (drop n' l)) in Hbody
        by (rewrite length_drop; lia).
      rewrite (destroy_n_run a n _ _ _ s Hb1) in Hbody
        by (rewrite length_fmap, length_take; lia).
      injection Hbody as <-. norm_objs.
      eexists _, []. split; [done|]. simpl. rewrite Ed.
      assert ((n' - length l)%nat = 0%nat) as Hz by (subst n'; lia).
      split_and!; try done; [| |lia|].
      * rewrite app_nil_r. apply elements_Some. simpl. split.
        -- rewrite length_take. lia.
        -- eexists. by rewrite lookup_insert_eq.
      * by rewrite Hz.
      * intros _. split_and!; try done. intros a' rest' [= <-] Hb'.
        rewrite Hb0 in Hb'. injection Hb' as Hr%app_inv_head. subst rest'.
        unfold default_resized_block. simpl. by rewrite drop_0, length_drop.
    + unfold uninitialized_default_construct_n in Hbody.
      rewrite SizeT.sub_small in Hbody by lia.
      assert (N.to_nat (n - size_ v) = N.to_nat n - length l)%nat as Htodo by lia.
      destruct (data_ v) as [a|] eqn:Ed.
      * destruct Hd as [rest Hb0].
        assert (objs s1 = objs s) as Ho
          by (eapply run_Ok_objs; [|exact Hbody]; eauto with shape).
        eapply default_loop_Ok in Hbody as (xs & Hxl & Hle' & Hh & Hdef);
          [|done|rewrite length_fmap; lia].
        rewrite Htodo in *.
        norm_objs. rewrite Ho in *. norm_objs.
        eexists _, xs. split; [done|]. simpl. rewrite Ed.
        rewrite take_ge by lia.
        split_and!; try done; [|lia|].
        -- apply elements_Some. simpl. split.
           ++ rewrite length_app. lia.
           ++ rewrite Hh, lookup_insert_eq. eexists.
              by rewrite fmap_app, <- app_assoc.
        -- intros _. split_and!; try done. intros a' rest' [= <-] Hb'.
           rewrite Hb0 in Hb'. injection Hb' as Hr%app_inv_head. subst rest'.
           rewrite Hh. unfold default_resized_block.
           rewrite take_ge by lia. rewrite Hxl.
           by replace (length l - N.to_nat n)%nat with 0%nat by lia.
      * subst l. simpl in *.
        pose proof (uninitialized_loop_None _ _ _ _ _ _ _ Hbody) as Hz.
        rewrite Hz in Hbody. simpl in Hbody. inv_m. norm_objs.
        eexists _, []. split; [done|]. simpl. rewrite Ed.
        assert (n = 0) as -> by lia. simpl.
        split_and!; try done. lia.
Qed.

End Resize.

(** ** Moving a vector *)

Section Running.

Context {T : Type} `{Element T}.

Lemma put_obj_run this v (s : State T) :
  put_obj this v s = Ok () (with_objs s (<[this := v]> (objs s))).
Proof. done. Qed.

Lemma drop_obj_run this (s : State T) :
  drop_obj this s = Ok () (with_objs s (delete this (objs s))).
Proof. done. Qed.

Lemma get_obj_run this (s : State T) v :
  objs s !! this = Some v → get_obj this s = Ok v s.
Proof. intros. by apply get_obj_Ok. Qed.

End Running.

Ltac run_step :=
  erewrite bind_run_Ok by
    (first [ apply get_size_run | apply get_capacity_run | apply get_data_run
           | apply set_size_run | apply set_capacity_run | apply set_data_run
           | apply get_obj_run | apply put_obj_run | apply drop_obj_run ];
     unfold with_objs; simpl; simplify_map_eq; reflexivity);
  unfold with_objs; cbn [objs heap ctor_faults alloc_faults size_ capacity_ data_].

Section Move.

Context {T : Type} `{Element T}.

Implicit Types s : State T.

(** The elements of a vector depend on the heap at its block only. *)
Lemma elements_heap_eq s s' v :
  (∀ a, data_ v = Some a → heap s' !! a = heap s !! a) →
  elements s' v = elements s v.
Proof.
  intros Hh. unfold elements. destruct (data_ v) as [a|]; [|done].
  by rewrite Hh.
Qed.

Lemma Vector_move_run this other s o :
  objs s !! other = Some o → this ≠ other →
  Vector_move this other s =
  Ok () (with_objs s (<[other := empty_vector]> (<[this := o]> (objs s)))).
Proof.
  intros Ho Hne. unfold Vector_move. destruct o as [n c d].
  do 4 run_step.
  erewrite set_data_run by (simpl; simplify_map_eq; reflexivity).
  unfold with_objs, empty_vector; simpl. do 2 f_equal.
  by rewrite !insert_insert_eq.
Qed.

(** [Clear] on a vector whose elements are alive. *)
Lemma Clear_run this s v l :
  objs s !! this = Some v → elements s v = Some l →
  Clear this s =
  Ok () (match data_ v with
         | Some a =>
             mkState (<[this := mkVector 0 (capacity_ v) (data_ v)]> (objs s))
               (<[a := replicate (length l) None ++
                        drop (length l) (default [] (heap s !! a))]> (heap s))
               (ctor_faults s) (alloc_faults s) (indeterminate s)
         | None => s
         end).
Proof.
  intros Hv [Hsz Hd]%elements_Some. unfold Clear. run_step.
  destruct (data_ v) as [a|] eqn:Ed; [|done].
  destruct Hd as [rest Hb]. run_step.
  unfold destroy. rewrite decide_True by lia.
  replace (N.to_nat (size_ v - 0)) with (length l) by lia.
  erewrite bind_run_Ok; [|by apply (destroy_n_run a 0 [] l rest)].
  rewrite (set_size_run this 0 _ v) by exact Hv. unfold with_objs, with_heap. simpl.
  rewrite Ed, Hb. simpl.
  rewrite drop_app_length'; [done|by rewrite length_fmap].
Qed.



End Move.

(** ** Copying a vector *)

Section Copy.

Context {T : Type} `{Element T}.

Implicit Types s : State T.

(** A constructor call that leaves the heap as it is, whether it returns or
    throws. *)
Definition heap_pure {A} (m : M (T:=T) A) : Prop :=
  ∀ s, match m s with
       | Ok _ s' | Throw _ s' => heap s' = heap s
       | Undefined => True
       end.

Lemma heap_pure_copy_ctor r : heap_pure (copy_ctor r).
Proof.
  intros s. unfold copy_ctor.
  destruct r as [x|p i]; simpl.
  - unfold mbind, M_bind, bind, ret, ctor_may_throw. simpl.
    by destruct (ctor_faults s) as [|[] ?].
  - unfold mbind, M_bind, bind, load, ret, ctor_may_throw.
    destruct (slot_at (heap s) p i) as [[y|]|]; try done. simpl.
    by destruct (ctor_faults s) as [|[] ?].
Qed.


Lemma placement_new_Throw a i init s e s' :
  heap_pure init →
  placement_new (Some a) i init s = Throw e s' → heap s' = heap s.
Proof.
  intros Hi Hp. unfold placement_new in Hp. inv_m.
  - by match goal with Hc : check_storage _ _ _ = Throw _ _ |- _ =>
      unfold check_storage in Hc; destruct (slot_at _ _ _) end.
  - match goal with Hc : check_storage _ _ _ = _ |- _ =>
      apply check_storage_Ok in Hc as [_ ->] end.
    match goal with Hr : init _ = Throw _ _ |- _ =>
      specialize (Hi s); by rewrite Hr in Hi end.
  - by match goal with Hw : write_slot _ _ _ _ = Throw _ _ |- _ =>
      apply write_slot_Throw in Hw end.
Qed.

(** A loop that throws has destroyed everything it had constructed: the
    destination is raw storage again. *)
Lemma loop_Throw_rollback init a todo k s e s' done m :
  (∀ i, heap_pure (init i)) →
  heap s !! a = Some ((Some <$> done) ++ replicate m None) →
  length done = k →
  uninitialized_loop init (Some a) 0 k todo s = Throw e s' →
  heap s' = <[a := replicate (k + m) None]> (heap s).
Proof.
  intros Hi. revert k s done m.
  induction todo as [|todo IH]; intros k s done m Hb Hk Hr; simpl in Hr; [inv_m|].
  apply bind_Throw in Hr as [Hr|([] & s1 & Hp%on_throw_Ok & Hr)].
  - apply on_throw_Throw in Hr as (e0 & s1 & Hp & Hc).
    apply placement_new_Throw in Hp; [|done].
    rewrite <- Hk in Hc.
    rewrite (destroy_n_run a 0 [] done (replicate m None) s1) in Hc
      by (by rewrite ?Hp).
    destruct Hc as [[[= <-] _]|[=]]. simpl. rewrite Hp.
    by rewrite replicate_add, Hk.
  - apply placement_new_Ok in Hp as (b & y & s0 & Hb' & Hlt & Hy & Hw).
    pose proof (Hi (N.of_nat k) s) as Hpure. rewrite Hy in Hpure.
    apply write_slot_Ok in Hw as (b1 & Hb1 & _ & ->).
    rewrite Hpure in Hb1. simplify_eq.
    rewrite length_app, length_fmap, length_replicate in Hlt.
    destruct m as [|m]; [lia|].
    replace (N.to_nat (0 + N.of_nat (length done)))
      with (length (Some <$> done) + 0)%nat in * by (rewrite length_fmap; lia).
    rewrite insert_app_r in Hr. simpl in Hr.
    eapply (IH (S (length done)) _ (done ++ [y]) m) in Hr.
    + rewrite Hr. simpl. rewrite insert_insert_eq, Hpure.
      by replace (length done + S m)%nat with (S (length done + m)) by lia.
    + simpl. rewrite lookup_insert_eq, fmap_app, <- app_assoc. done.
    + rewrite length_app. simpl. lia.
Qed.

Lemma uninitialized_loop_None_Throw init first k todo s e s' :
  uninitialized_loop init None first k todo s = Throw e s' → False.
Proof.
  destruct todo as [|todo]; simpl; intros Hr; [inv_m|].
  apply bind_Throw in Hr as [Hr|(? & ? & Hp%on_throw_Ok & _)].
  - apply on_throw_Throw in Hr as (? & ? & Hp & _).
    unfold placement_new in Hp. inv_m.
  - by apply placement_new_None in Hp.
Qed.

(** A copying loop that returns has copied the next objects of the source
    block into the destination block. *)
Lemma copy_loop_Ok src dst xs k s s' spre srest dpre drest :
  src ≠ dst →
  heap s !! src = Some (spre ++ (Some <$> xs) ++ srest) →
  heap s !! dst = Some (dpre ++ drest) →
  length spre = k → length dpre = k →
  uninitialized_loop (λ i, copy_ctor (Slot (Some src) i)) (Some dst) 0 k (length xs) s
    = Ok () s' →
  (length xs ≤ length drest)%nat ∧
  heap s' = <[dst := dpre ++ (Some <$> xs) ++ drop (length xs) drest]> (heap s).
Proof.
  intros Hne. revert k s spre dpre drest.
  induction xs as [|x xs IH]; intros k s spre dpre drest Hs Hd Hks Hkd Hr;
    simpl in Hr.
  - inv_m. split; [simpl; lia|]. simpl in *. rewrite drop_0.
    by rewrite insert_id.
  - apply bind_Ok in Hr as ([] & s1 & Hp%on_throw_Ok & Hr).
    apply placement_new_Ok in Hp as (b & y & s0 & Hb' & Hlt & Hc & Hw).
    apply copy_ctor_Slot_Ok in Hc as ((b0 & Hb0 & Hy) & _ & ->).
    apply write_slot_Ok in Hw as (b1 & Hb1 & _ & ->). simpl in *.
    simplify_eq.
    rewrite length_app in Hlt.
    destruct drest as [|r drest]; [simpl in Hlt; lia|].
    replace (N.to_nat (0 + N.of_nat (length spre))) with (length dpre + 0)%nat in *
      by lia.
    rewrite insert_app_r in Hr. simpl in Hr.
    replace (N.to_nat (N.of_nat (length spre))) with (length spre + 0)%nat in *
      by lia.
    rewrite lookup_app_r in Hy by lia.
    replace (length spre + 0 - length spre)%nat with 0%nat in Hy by lia.
    simpl in Hy. injection Hy as <-.
    eapply (IH (S (length spre)) _ (spre ++ [Some x]) (dpre ++ [Some x]) drest)
      in Hr as [Hle Hh].
    + split; [simpl; lia|]. rewrite Hh. simpl.
      rewrite insert_insert_eq. by rewrite <- !app_assoc.
    + simpl. rewrite lookup_insert_ne by done. by rewrite <- app_assoc.
    + simpl. rewrite lookup_insert_eq. by rewrite <- app_assoc.
    + rewrite length_app. simpl. lia.
    + rewrite length_app. simpl. lia.
Qed.

Lemma Vector_copy_Ok tmp other s o l s1 :
  objs s !! other = Some o → elements s o = Some l →
  Vector_copy tmp other s = Ok () s1 →
  ∃ p, objs s1 = <[tmp := mkVector (size_ o) (capacity_ o) p]> (objs s) ∧
       elements s1 (mkVector (size_ o) (capacity_ o) p) = Some l ∧
       (∀ a, p = Some a → heap s !! a = None) ∧
       (∀ a, p ≠ Some a → heap s1 !! a = heap s !! a).
Proof.
  intros Ho Hl Hr. unfold Vector_copy in Hr. inv_m.
  match goal with Hc : uninitialized_copy _ _ _ _ = _ |- _ => rename Hc into Hcopy end.
  match goal with Ha : Allocate _ _ = _ |- _ => rename Ha into Halloc end.
  assert (objs s1 = <[tmp := mkVector (size_ o) (capacity_ o) x1]> (objs s)) as Hobjs.
  { pose proof (Allocate_objs _ _ _ _ Halloc) as E.
    apply run_Ok_objs in Hcopy; [|eauto with shape]. rewrite Hcopy. simpl.
    by rewrite E. }
  exists x1. split; [done|].
  apply elements_Some in Hl as [Hsz Hd].
  unfold uninitialized_copy in Hcopy. rewrite Hsz, Nat2N.id in Hcopy.
  apply Allocate_Ok in Halloc as [(Hc0 & -> & ->)|(Hc0 & _ & -> & ->)].
  - apply uninitialized_loop_None in Hcopy as Hz.
    destruct l; [|done]. simpl in Hcopy. inv_m. simpl.
    split_and!; try done. apply elements_Some. simpl. by rewrite Hsz.
  - pose proof (fresh_addr_fresh (heap s)) as Hfresh.
    set (a := fresh_addr (heap s)) in *.
    set (L := N.to_nat (SizeT.mul (capacity_ o) sizeof / sizeof)) in *.
    assert (∃ rest, heap s1 = <[a := (Some <$> l) ++ rest]> (heap s)) as [rest Hh].
    { destruct (data_ o) as [d|].
      - destruct Hd as [rest Hb].
        assert (d ≠ a) by congruence.
        eapply (copy_loop_Ok d a l 0 _ _ [] rest [] (replicate L None)) in Hcopy
          as [_ ->]; try done.
        + simpl. rewrite insert_insert_eq. eauto.
        + simpl. by rewrite lookup_insert_ne.
        + simpl. by rewrite lookup_insert_eq.
      - subst l. simpl in Hcopy. inv_m. simpl. eauto. }
    split_and!.
    + apply elements_Some. simpl. split; [done|]. exists rest.
      by rewrite Hh, lookup_insert_eq.
    + by intros ? [= <-].
    + intros a' Ha'. rewrite Hh. apply lookup_insert_ne. congruence.
Qed.

Lemma Vector_copy_Throw tmp other s e s' :
  objs s !! tmp = None →
  Vector_copy tmp other s = Throw e s' → objs s' = objs s ∧ heap s' = heap s.
Proof.
  intros Htmp Hr. unfold Vector_copy in Hr. inv_m.
  - match goal with Ha : Allocate _ _ = Throw _ _ |- _ =>
      apply Allocate_Throw in Ha as (_ & _ & _ & ->) end. done.
  - match goal with Hc : uninitialized_copy _ _ _ _ = Throw _ _ |- _ =>
      rename Hc into Hcopy end.
    match goal with Ha : Allocate _ _ = _ |- _ =>
      apply Allocate_Ok in Ha as [(Hc0 & -> & ->)|(Hc0 & _ & -> & ->)] end.
    { by apply uninitialized_loop_None_Throw in Hcopy. }
    pose proof (fresh_addr_fresh (heap s)) as Hfresh.
    set (a := fresh_addr (heap s)) in *.
    match goal with Hd : Deallocate _ _ = _ |- _ =>
      apply Deallocate_Ok in Hd as [_ ->] end.
    pose proof (run_Throw_objs _ _ _ _
                  (keeps_shape_uninitialized_copy _ _ _) Hcopy) as Ho.
    eapply (loop_Throw_rollback _ a _ 0 _ _ _ []) in Hcopy;
      [|intros; apply heap_pure_copy_ctor|simpl; by rewrite lookup_insert_eq|done].
    simpl in *. rewrite Ho, Hcopy. split.
    + by apply delete_insert_id.
    + rewrite insert_insert_eq. by apply delete_insert_id.
Qed.

Lemma Vector_dtor_Ok this s v s' :
  objs s !! this = Some v →
  Vector_dtor this s = Ok () s' →
  objs s' = delete this (objs s) ∧
  ∀ a, data_ v ≠ Some a → heap s' !! a = heap s !! a.
Proof.
  intros Hv Hr. unfold Vector_dtor, Clear in Hr. inv_m.
  destruct (data_ v) as [d|] eqn:Ed; inv_m.
  - match goal with Hd : destroy _ _ _ _ = _ |- _ => rename Hd into Hdes end.
    match goal with Hd : Deallocate _ _ = _ |- _ => rename Hd into Hfree end.
    pose proof (run_Ok_objs _ _ _ _ (keeps_shape_destroy _ _ _) Hdes) as Ho.
    norm_objs. rewrite Ho in *. norm_objs.
    rewrite Ed in Hfree. apply Deallocate_Ok in Hfree as [_ ->]. simpl. split.
    + by rewrite delete_insert_eq.
    + intros a Ha. rewrite lookup_delete_ne by congruence.
      eapply destroy_others; [done|congruence].
  - norm_objs.
    match goal with Hd : Deallocate _ _ = _ |- _ =>
      rewrite Ed in Hd; apply Deallocate_Ok in Hd as -> end. done.
Qed.

Lemma destroy_n_Throw p first n s e s' :
  destroy_n p first n s = Throw e s' → False.
Proof.
  revert first s. induction n as [|n IH]; intros first s Hr; simpl in Hr; [inv_m|].
  unfold destroy_at in Hr. inv_m.
  - by match goal with Hl : load _ _ _ = Throw _ _ |- _ => apply load_Throw in Hl end.
  - by match goal with Hw : write_slot _ _ _ _ = Throw _ _ |- _ =>
      apply write_slot_Throw in Hw end.
  - by match goal with Hd : destroy_n _ _ _ _ = Throw _ _ |- _ => apply IH in Hd end.
Qed.

Lemma destroy_Throw p first last s e s' :
  destroy p first last s = Throw e s' → False.
Proof. unfold destroy. case_decide; [apply destroy_n_Throw|done]. Qed.

Lemma Vector_dtor_Throw this s e s' : Vector_dtor this s = Throw e s' → False.
Proof.
  unfold Vector_dtor, Clear. intros Hr. inv_m; repeat case_match; inv_m.
  by match goal with Hd : destroy _ _ _ _ = Throw _ _ |- _ =>
    apply destroy_Throw in Hd end.
Qed.

Lemma fresh_obj_Ok s x s' :
  fresh_obj s = Ok x s' ↔ x = fresh (dom (objs s)) ∧ s' = s.
Proof. unfold fresh_obj. split; [by intros [= <- <-]|by intros [-> ->]]. Qed.

Lemma fresh_obj_fresh s : objs s !! fresh (dom (objs s)) = None.
Proof. apply not_elem_of_dom, is_fresh. Qed.

(** C7.  Copy assignment from another vector: when it returns, the target
    has the size, the capacity and the elements of the source in storage of
    its own, and the source is as it was; when it throws, the object table
    and the heap are as they were; assignment of a vector to itself changes
    nothing. *)
Theorem copy_assign_spec this other s v o lv l :
  objs s !! this = Some v → objs s !! other = Some o → this ≠ other →
  elements s v = Some lv → elements s o = Some l →
  (∀ a, data_ v = Some a → data_ o ≠ Some a) →
  (∀ s', copy_assign this other s = Ok () s' →
     ∃ v', objs s' !! this = Some v' ∧
       size_ v' = size_ o ∧ capacity_ v' = capacity_ o ∧
       elements s' v' = Some l ∧
       objs s' !! other = Some o ∧ elements s' o = Some l ∧
       (∀ a, data_ v' = Some a → data_ o ≠ Some a)) ∧
  (∀ e s', copy_assign this other s = Throw e s' →
     objs s' = objs s ∧ heap s' = heap s) ∧
  copy_assign other other s = Ok () s.
Proof.
  intros Hv Ho Hne Hlv Hl Hshare.
  pose proof (fresh_obj_fresh s) as Htmp.
  set (tmp := fresh (dom (objs s))) in *.
  assert (tmp ≠ this) as Htt by congruence.
  assert (tmp ≠ other) as Hto by congruence.
  split_and!.
  - intros s' Hr. unfold copy_assign in Hr. rewrite decide_True in Hr by done.
    apply bind_Ok in Hr as (x & s0 & [-> ->]%fresh_obj_Ok & Hr). fold tmp in Hr.
    apply bind_Ok in Hr as ([] & s1 & Hcopy & Hr).
    eapply Vector_copy_Ok in Hcopy as (p & Ho1 & Hl1 & Hfresh & Hh1); [|done..].
    set (vt := mkVector (size_ o) (capacity_ o) p) in *.
    rewrite (bind_run_Ok _ _ _ _ _ (Swap_run this tmp s1 v vt
               ltac:(rewrite Ho1; by simplify_map_eq)
               ltac:(rewrite Ho1; by simplify_map_eq))) in Hr.
    eapply (Vector_dtor_Ok tmp _ v) in Hr as [Ho' Hh'];
      [|simpl; by simplify_map_eq].
    simpl in *.
    assert (∀ a, p = Some a → data_ v ≠ Some a) as Hpv.
    { intros a -> Hd. apply elements_Some in Hlv as [_ Hb].
      rewrite Hd in Hb. destruct Hb as [? Hb]. rewrite (Hfresh a) in Hb; done. }
    assert (∀ a, data_ o = Some a → p ≠ Some a) as Hpo.
    { intros a Hd ->. apply elements_Some in Hl as [_ Hb].
      rewrite Hd in Hb. destruct Hb as [? Hb]. rewrite (Hfresh a) in Hb; done. }
    exists vt. split_and!; try done.
    + rewrite Ho', Ho1. by simplify_map_eq.
    + rewrite <- Hl1. apply elements_heap_eq. simpl. intros a ->.
      apply Hh'. by apply Hpv.
    + rewrite Ho', Ho1. by simplify_map_eq.
    + rewrite <- Hl. apply elements_heap_eq. intros a Ha.
      rewrite Hh'; [apply Hh1; by apply Hpo|].
      intros Hd. by eapply Hshare.
    + simpl. intros a -> Hd. by eapply Hpo.
  - intros e s' Hr. unfold copy_assign in Hr. rewrite decide_True in Hr by done.
    apply bind_Throw in Hr as [Hr|(x & s0 & [-> ->]%fresh_obj_Ok & Hr)]; [done|].
    fold tmp in Hr.
    apply bind_Throw in Hr as [Hr|([] & s1 & Hcopy & Hr)].
    { exact (Vector_copy_Throw tmp other s e s' Htmp Hr). }
    exfalso.
    assert (is_Some (objs s1 !! this) ∧ is_Some (objs s1 !! tmp)) as [[a Ha] [b Hb]].
    { clear Hr. unfold Vector_copy in Hcopy. inv_m.
      match goal with Hc : uninitialized_copy _ _ _ _ = _ |- _ =>
        apply run_Ok_objs in Hc; [|eauto with shape]; rewrite Hc end.
      match goal with Hc : Allocate _ _ = _ |- _ =>
        apply Allocate_objs in Hc; simpl; rewrite Hc end.
      split; eexists; by simplify_map_eq. }
    rewrite (bind_run_Ok _ _ _ _ _ (Swap_run this tmp s1 a b Ha Hb)) in Hr.
    by apply Vector_dtor_Throw in Hr.
  - unfold copy_assign. by rewrite decide_False by (by intros []).
Qed.

End Copy.

(** ** Comparison *)

Section Compare.

Context {T : Type} `{Element T}.

Implicit Types s : State T.

(** What [std::equal] computes on two ranges of the same length. *)
Fixpoint equal_list (l1 l2 : list T) : bool :=
  match l1, l2 with
  | x :: l1', y :: l2' => if elem_eqb x y then equal_list l1' l2' else false
  | _, _ => true
  end.

(** What [std::lexicographical_compare] computes on two ranges. *)
Fixpoint lex_list (l1 l2 : list T) : bool :=
  match l1, l2 with
  | x :: l1', y :: l2' =>
      if elem_ltb x y then true
      else if elem_ltb y x then false
      else lex_list l1' l2'
  | [], _ :: _ => true
  | _, [] => false
  end.

(** Equality of sequences: the same length, and equal elements at every
    position. *)
Definition same_elements (l1 l2 : list T) : Prop :=
  length l1 = length l2 ∧
  ∀ i x y, l1 !! i = Some x → l2 !! i = Some y → elem_eqb x y = true.

(** The lexicographic order of sequences under the order of the elements:
    the first position where the elements are ordered decides, and a proper
    prefix comes first. *)
Inductive lex_lt : list T → list T → Prop :=
  | lex_lt_prefix y l2 : lex_lt [] (y :: l2)
  | lex_lt_head x y l1 l2 : elem_ltb x y = true → lex_lt (x :: l1) (y :: l2)
  | lex_lt_tail x y l1 l2 :
      elem_ltb x y = false → elem_ltb y x = false → lex_lt l1 l2 →
      lex_lt (x :: l1) (y :: l2).

Lemma equal_list_same l1 l2 :
  length l1 = length l2 → (equal_list l1 l2 = true ↔ same_elements l1 l2).
Proof.
  revert l2. induction l1 as [|x l1 IH]; intros [|y l2] Hlen; simpl in *; try done.
  injection Hlen as Hlen. destruct (elem_eqb x y) eqn:E.
  - rewrite IH by done. split.
    + intros [_ Hall]. split; [simpl; by rewrite Hlen|].
      intros [|i] x' y'; simpl; [by intros [= <-] [= <-]|apply Hall].
    + intros [_ Hall]. split; [done|]. intros i x' y'. apply (Hall (S i)).
  - split; [done|]. intros [_ Hall]. specialize (Hall 0%nat x y eq_refl eq_refl).
    congruence.
Qed.

Lemma lex_list_lex_lt l1 l2 : lex_list l1 l2 = true ↔ lex_lt l1 l2.
Proof.
  revert l2. induction l1 as [|x l1 IH]; intros [|y l2]; simpl.
  - split; [done|]. inversion 1.
  - split; [constructor|done].
  - split; [done|]. inversion 1.
  - destruct (elem_ltb x y) eqn:Exy.
    + split; [by constructor|done].
    + destruct (elem_ltb y x) eqn:Eyx.
      * split; [done|]. inversion 1; congruence.
      * rewrite IH. split; [by constructor|]. inversion 1; congruence.
Qed.

Lemma load_run p i s x :
  slot_at (heap s) p i = Some (Some x) → load p i s = Ok x s.
Proof. intros. by apply load_Ok. Qed.

Lemma equal_from_run p1 p2 n i s l1 l2 :
  (∀ j x, l1 !! j = Some x → slot_at (heap s) p1 (i + N.of_nat j) = Some (Some x)) →
  (∀ j y, l2 !! j = Some y → slot_at (heap s) p2 (i + N.of_nat j) = Some (Some y)) →
  length l1 = n → length l2 = n →
  equal_from p1 p2 i n s = Ok (equal_list l1 l2) s.
Proof.
  revert i l1 l2. induction n as [|n IH]; intros i [|x l1] [|y l2] H1 H2 Hn1 Hn2;
    simpl in *; try done.
  rewrite (bind_run_Ok _ _ _ _ _ (load_run p1 i s x ltac:(
    specialize (H1 0%nat x eq_refl); by rewrite N.add_0_r in H1))).
  rewrite (bind_run_Ok _ _ _ _ _ (load_run p2 i s y ltac:(
    specialize (H2 0%nat y eq_refl); by rewrite N.add_0_r in H2))).
  destruct (elem_eqb x y); [|done]. apply IH; try lia.
  - intros j x' Hj. specialize (H1 (S j) x' Hj).
    by replace (i + 1 + N.of_nat j) with (i + N.of_nat (S j)) by lia.
  - intros j y' Hj. specialize (H2 (S j) y' Hj).
    by replace (i + 1 + N.of_nat j) with (i + N.of_nat (S j)) by lia.
Qed.

Lemma lexicographical_from_run p1 p2 i s l1 l2 :
  (∀ j x, l1 !! j = Some x → slot_at (heap s) p1 (i + N.of_nat j) = Some (Some x)) →
  (∀ j y, l2 !! j = Some y → slot_at (heap s) p2 (i + N.of_nat j) = Some (Some y)) →
  lexicographical_from p1 p2 i (length l1) (length l2) s = Ok (lex_list l1 l2) s.
Proof.
  revert i l2. induction l1 as [|x l1 IH]; intros i [|y l2] H1 H2; simpl in *;
    try done.
  rewrite (bind_run_Ok _ _ _ _ _ (load_run p1 i s x ltac:(
    specialize (H1 0%nat x eq_refl); by rewrite N.add_0_r in H1))).
  rewrite (bind_run_Ok _ _ _ _ _ (load_run p2 i s y ltac:(
    specialize (H2 0%nat y eq_refl); by rewrite N.add_0_r in H2))).
  destruct (elem_ltb x y); [done|]. destruct (elem_ltb y x); [done|].
  apply IH.
  - intros j x' Hj. specialize (H1 (S j) x' Hj).
    by replace (i + 1 + N.of_nat j) with (i + N.of_nat (S j)) by lia.
  - intros j y' Hj. specialize (H2 (S j) y' Hj).
    by replace (i + 1 + N.of_nat j) with (i + N.of_nat (S j)) by lia.
Qed.

Lemma elements_slots s v l j x :
  elements s v = Some l → l !! j = Some x →
  slot_at (heap s) (data_ v) (0 + N.of_nat j) = Some (Some x).
Proof.
  intros Hl Hj. eapply slot_at_element; [done|].
  by replace (N.to_nat (0 + N.of_nat j)) with j by lia.
Qed.

Lemma op_eq_run this other s a b la lb :
  objs s !! this = Some a → objs s !! other = Some b →
  elements s a = Some la → elements s b = Some lb →
  op_eq this other s =
  Ok (if decide (length la = length lb) then equal_list la lb else false) s.
Proof.
  intros Ha Hb Hla Hlb. unfold op_eq.
  rewrite (bind_run_Ok _ _ _ _ _ (get_obj_run _ _ _ Ha)).
  rewrite (bind_run_Ok _ _ _ _ _ (get_obj_run _ _ _ Hb)).
  pose proof (elements_length _ _ _ Hla). pose proof (elements_length _ _ _ Hlb).
  destruct (N.eqb_spec (size_ a) (size_ b)) as [E|E].
  - rewrite decide_True by lia. unfold std_equal.
    apply equal_from_run; try lia; intros; by eapply elements_slots.
  - by rewrite decide_False by lia.
Qed.

Lemma op_lt_run this other s a b la lb :
  objs s !! this = Some a → objs s !! other = Some b →
  elements s a = Some la → elements s b = Some lb →
  op_lt this other s = Ok (lex_list la lb) s.
Proof.
  intros Ha Hb Hla Hlb. unfold op_lt.
  rewrite (bind_run_Ok _ _ _ _ _ (get_obj_run _ _ _ Ha)).
  rewrite (bind_run_Ok _ _ _ _ _ (get_obj_run _ _ _ Hb)).
  pose proof (elements_length _ _ _ Hla) as ->.
  pose proof (elements_length _ _ _ Hlb) as ->.
  unfold lexicographical_compare. rewrite !Nat2N.id.
  apply lexicographical_from_run; intros; by eapply elements_slots.
Qed.

(** The six operators on two vectors with elements [la] and [lb]: what
    [==] and [<] answer, the other four in terms of them, and that no
    comparison changes the state. *)
Lemma comparison_runs this other s a b la lb :
  objs s !! this = Some a → objs s !! other = Some b →
  elements s a = Some la → elements s b = Some lb →
  ∃ eq lt gt : bool,
    op_eq this other s = Ok eq s ∧ (eq = true ↔ same_elements la lb) ∧
    op_lt this other s = Ok lt s ∧ (lt = true ↔ lex_lt la lb) ∧
    op_lt other this s = Ok gt s ∧ (gt = true ↔ lex_lt lb la) ∧
    op_ne this other s = Ok (negb eq) s ∧
    op_gt this other s = Ok gt s ∧
    op_le this other s = Ok (negb gt) s ∧
    op_ge this other s = Ok (negb lt) s.
Proof.
  intros Ha Hb Hla Hlb.
  pose proof (op_eq_run _ _ _ _ _ _ _ Ha Hb Hla Hlb) as Heq.
  pose proof (op_lt_run _ _ _ _ _ _ _ Ha Hb Hla Hlb) as Hlt.
  pose proof (op_lt_run _ _ _ _ _ _ _ Hb Ha Hlb Hla) as Hgt.
  do 3 eexists. split_and!; try done.
  - case_decide as Hlen.
    + by apply equal_list_same.
    + split; [done|]. by intros [? _].
  - apply lex_list_lex_lt.
  - apply lex_list_lex_lt.
  - unfold op_ne. by rewrite (bind_run_Ok _ _ _ _ _ Heq).
  - unfold op_le. by rewrite (bind_run_Ok _ _ _ _ _ Hgt).
  - unfold op_ge. by rewrite (bind_run_Ok _ _ _ _ _ Hlt).
Qed.

End Compare.

(** ** The constructors *)

Section Construct.

Context {T : Type} `{Element T}.

Implicit Types s : State T.

(** What a constructor has done when it returns: the object [this] exists
    with [size_ = capacity_ = |l|], its elements are [l], they sit in a
    block that was not there before (in no block at all when [l] is empty),
    and every other block is as it was. *)
Definition constructed (this : obj) s s' (l : list T) : Prop :=
  ∃ p, objs s' =
         <[this := mkVector (N.of_nat (length l)) (N.of_nat (length l)) p]> (objs s) ∧
       elements s' (mkVector (N.of_nat (length l)) (N.of_nat (length l)) p) = Some l ∧
       (l = [] ↔ p = None) ∧
       (p = None → heap s' = heap s) ∧
       (∀ a, p = Some a →
          heap s !! a = None ∧ ∀ a', a' ≠ a → heap s' !! a' = heap s !! a').

Lemma copy_list_loop_Ok (f : N → T) a todo k s s' pre rest :
  heap s !! a = Some (pre ++ rest) →
  length pre = k →
  uninitialized_loop (λ i, copy_ctor (Ext (f i))) (Some a) 0 k todo s = Ok () s' →
  (todo ≤ length rest)%nat ∧
  heap s' =
    <[a := pre ++ ((λ j, Some (f (N.of_nat j))) <$> seq k todo) ++ drop todo rest]>
      (heap s).
Proof.
  revert k s pre rest.
  induction todo as [|todo IH]; intros k s pre rest Hb Hk Hr; simpl in Hr.
  - inv_m. split; [lia|]. simpl. rewrite drop_0. by rewrite insert_id.
  - apply bind_Ok in Hr as ([] & s1 & Hp%on_throw_Ok & Hr).
    apply placement_new_Ok in Hp as (b & y & s0 & Hb' & Hlt & Hc & Hw).
    apply copy_ctor_Ok in Hc as (Hy & _ & ->). simpl in Hy. injection Hy as <-.
    apply write_slot_Ok in Hw as (b'' & Hb'' & _ & ->). simpl in *.
    simplify_eq.
    rewrite length_app in Hlt.
    destruct rest as [|r0 rest]; [simpl in Hlt; lia|].
    replace (N.to_nat (0 + N.of_nat (length pre))) with (length pre + 0)%nat in * by lia.
    rewrite insert_app_r in Hr. simpl in Hr.
    eapply (IH (S (length pre)) _ (pre ++ [Some (f (N.of_nat (length pre)))]) rest)
      in Hr as [Hle Hh].
    + split; [simpl; lia|]. rewrite Hh. simpl. rewrite insert_insert_eq.
      by rewrite <- app_assoc.
    + simpl. rewrite lookup_insert_eq. by rewrite <- app_assoc.
    + rewrite length_app. simpl. lia.
Qed.

(** The body every allocating constructor shares: allocate, then construct
    the elements one by one in the new block. *)
Lemma constructor_Ok this n init l s s' :
  (∀ i, keeps_shape (init i)) →
  n = N.of_nat (length l) →
  (∀ a rest s0 s1,
     heap s !! a = None → heap s0 = <[a := rest]> (heap s) →
     uninitialized_loop init (Some a) 0 0 (length l) s0 = Ok () s1 →
     ∃ rest', heap s1 = <[a := (Some <$> l) ++ rest']> (heap s)) →
  (p ← Allocate n;
   put_obj this (mkVector n n p) ;;
   on_throw (uninitialized_loop init p 0 0 (length l)) (Deallocate p ;; drop_obj this)) s
    = Ok () s' →
  constructed this s s' l.
Proof.
  intros Hk -> Hloops Hr. inv_m.
  match goal with Ha : Allocate _ _ = _ |- _ => rename Ha into Halloc end.
  match goal with Hl : uninitialized_loop _ _ _ _ _ _ = _ |- _ => rename Hl into Hloop end.
  unfold constructed.
  match type of Halloc with Allocate _ _ = Ok ?p _ => exists p end.
  pose proof (Allocate_objs _ _ _ _ Halloc) as Eo.
  pose proof (run_Ok_objs _ _ _ _
                (keeps_shape_uninitialized_loop _ _ _ _ _ Hk) Hloop) as Ho.
  simpl in Ho. rewrite Eo in Ho. split; [done|].
  apply Allocate_Ok in Halloc as [(Hc0 & -> & ->)|(Hc0 & _ & -> & ->)].
  - apply uninitialized_loop_None in Hloop as Hz.
    destruct l; [|done]. simpl in Hloop. inv_m. simpl in *.
    by split_and!.
  - pose proof (fresh_addr_fresh (heap s)) as Hfresh.
    set (a := fresh_addr (heap s)) in *.
    eapply (Hloops a) in Hloop as [rest' Hh]; [|done|done].
    split_and!.
    + apply elements_Some. simpl. split; [done|].
      exists rest'. by rewrite Hh, lookup_insert_eq.
    + split; [|done]. intros ->. simpl in Hc0. lia.
    + done.
    + intros a0 [= <-]. split; [done|].
      intros a' Ha'. rewrite Hh. by apply lookup_insert_ne.
Qed.

Lemma seq_lookups (xs : list T) :
  (λ j, Some (default default_value (xs !! N.to_nat (N.of_nat j))))
    <$> seq 0 (length xs) = Some <$> xs.
Proof.
  apply list_eq. intros j. rewrite !list_lookup_fmap.
  destruct (decide (j < length xs)%nat) as [Hj|Hj].
  - rewrite lookup_seq_lt by done. simpl. rewrite Nat2N.id.
    destruct (lookup_lt_is_Some_2 xs j Hj) as [x Hx]. by rewrite Hx.
  - rewrite lookup_seq_ge by lia. simpl.
    by rewrite (proj2 (lookup_ge_None xs j)) by lia.
Qed.

Lemma Vector_fill_Ok this n r x s s' :
  referent s r = Some x → Vector_fill this n r s = Ok () s' →
  constructed this s s' (replicate (N.to_nat n) x).
Proof.
  intros Hx Hr. unfold Vector_fill, uninitialized_fill_n in Hr.
  eapply (constructor_Ok this n (λ _, copy_ctor r)).
  - intros _. apply keeps_shape_copy_ctor.
  - rewrite length_replicate. lia.
  - intros a rest s0 s1 Hfresh Hh Hloop.
    rewrite length_replicate in Hloop.
    eapply (fill_loop_Ok r x a 0 _ 0 _ _ [] rest) in Hloop as [_ Hh1].
    + simpl in Hh1. rewrite Hh, insert_insert_eq in Hh1.
      rewrite fmap_replicate. eauto.
    + rewrite <- Hx. apply referent_frame. intros p Hp.
      rewrite Hh. apply lookup_insert_ne. intros <-.
      destruct (referent_block _ _ _ _ Hx Hp) as [? ?]. congruence.
    + intros Hp. destruct (referent_block _ _ _ _ Hx Hp) as [? ?]. congruence.
    + simpl. by rewrite Hh, lookup_insert_eq.
    + done.
  - by rewrite length_replicate.
Qed.

Lemma Vector_sized_Ok this n s s' :
  Vector_sized this n s = Ok () s' →
  ∃ xs, length xs = N.to_nat n ∧
        (trivial_default = false → xs = replicate (N.to_nat n) default_value) ∧
        constructed this s s' xs.
Proof.
  intros Hr. unfold Vector_sized, uninitialized_default_construct_n in Hr. inv_m.
  match goal with Ha : Allocate _ _ = _ |- _ => rename Ha into Halloc end.
  match goal with Hl : uninitialized_loop _ _ _ _ _ _ = _ |- _ => rename Hl into Hloop end.
  pose proof (Allocate_objs _ _ _ _ Halloc) as Eo.
  pose proof (run_Ok_objs _ _ _ _
                (keeps_shape_uninitialized_loop _ _ _ _ _
                   (λ _, keeps_shape_default_ctor)) Hloop) as Ho.
  simpl in Ho. rewrite Eo in Ho.
  apply Allocate_Ok in Halloc as [(Hc0 & -> & ->)|(Hc0 & _ & -> & ->)].
  - apply uninitialized_loop_None in Hloop as Hz.
    rewrite Hz in Hloop. simpl in Hloop. inv_m. simpl in *.
    exists []. split_and!; [done|done|]. exists None. by split_and!.
  - pose proof (fresh_addr_fresh (heap s)) as Hfresh.
    set (a := fresh_addr (heap s)) in *.
    eapply (default_loop_Ok a 0 (N.to_nat n) 0 _ _ []) in Hloop
      as (xs & Hlen & _ & Hh & Hdet);
      [|simpl; by rewrite lookup_insert_eq|done].
    simpl in Hh. rewrite insert_insert_eq in Hh.
    exists xs. split_and!; [done|done|].
    exists (Some a). rewrite Hlen, N2Nat.id. split_and!.
    + done.
    + apply elements_Some. simpl. split; [lia|].
      eexists. by rewrite Hh, lookup_insert_eq.
    + split; [|done]. intros ->. simpl in Hlen. lia.
    + done.
    + intros a0 [= <-]. split; [done|].
      intros a' Ha'. rewrite Hh. by apply lookup_insert_ne.
Qed.

(** X1.  [Vector(size)] and [Vector(size, value)] that return have built a
    vector with [size_ = capacity_ = size] whose elements are [size]
    default-initialised objects (resp. copies of [value]); its block was
    not there before, there is no block at all for [size = 0], and every
    other block is as it was.  The default-initialised objects are
    [default_value] when [T] has a default constructor that runs; for a
    trivially default constructible [T] their values are not determined. *)
Theorem sized_constructors_build this n s s' :
  (Vector_sized this n s = Ok () s' →
   ∃ xs, length xs = N.to_nat n ∧
         (trivial_default = false → xs = replicate (N.to_nat n) default_value) ∧
         constructed this s s' xs) ∧
  (∀ r x, referent s r = Some x → Vector_fill this n r s = Ok () s' →
     constructed this s s' (replicate (N.to_nat n) x)).
Proof.
  split.
  - apply Vector_sized_Ok.
  - intros r x. apply Vector_fill_Ok.
Qed.

(** X2.  [Vector(first, last)] and [Vector(init)] that return have built a
    vector with [size_ = capacity_ =] the length of the sequence, whose
    elements are the objects of the sequence in order, in a block that was
    not there before (no block for an empty sequence). *)
Theorem range_constructors_build this xs s s' :
  Vector_range this xs s = Ok () s' ∨ Vector_init_list this xs s = Ok () s' →
  constructed this s s' xs.
Proof.
  intros Hr.
  assert (Vector_range this xs s = Ok () s') as Hr' by (by destruct Hr).
  clear Hr. unfold Vector_range, uninitialized_copy_list in Hr'.
  eapply (constructor_Ok this _ (λ i, copy_ctor (Ext (default default_value
                                                         (xs !! N.to_nat i))))).
  - intros i. apply keeps_shape_copy_ctor.
  - done.
  - intros a rest s0 s1 Hfresh Hh Hloop.
    eapply (copy_list_loop_Ok (λ i, default default_value (xs !! N.to_nat i))
              a _ 0 _ _ [] rest) in Hloop as [_ Hh1].
    + simpl in Hh1. rewrite Hh, insert_insert_eq, seq_lookups in Hh1. eauto.
    + simpl. by rewrite Hh, lookup_insert_eq.
    + done.
  - exact Hr'.
Qed.

End Construct.

Section ConstructThrow.

Context {T : Type} `{Element T}.

Implicit Types s : State T.



End ConstructThrow.

(** ** Destruction, [Swap], [Clear] and [PopBack] *)

Section Teardown.

Context {T : Type} `{Element T}.

Implicit Types s : State T.

Lemma Vector_dtor_run this s v l :
  objs s !! this = Some v → elements s v = Some l →
  Vector_dtor this s =
  Ok () (mkState (delete this (objs s))
           (match data_ v with Some a => delete a (heap s) | None => heap s end)
           (ctor_faults s) (alloc_faults s) (indeterminate s)).
Proof.
  intros Hv Hl. unfold Vector_dtor.
  erewrite bind_run_Ok by (by eapply Clear_run).
  destruct (data_ v) as [a|] eqn:Ed.
  - run_step. unfold Deallocate, operator_delete.
    erewrite bind_run_Ok; [|simpl; rewrite lookup_insert_eq; reflexivity].
    rewrite drop_obj_run. unfold with_objs; simpl. f_equal. f_equal.
    + by rewrite delete_insert_eq.
    + by rewrite delete_insert_eq.
  - run_step. rewrite Ed. unfold Deallocate.
    erewrite bind_run_Ok by reflexivity.
    rewrite drop_obj_run. by destruct s.
Qed.


(** X5.  [Swap] exchanges the three members of the two vectors and touches
    nothing else: each vector now has the elements of the other, in the
    same blocks, no element is constructed, copied or destroyed, and a
    second [Swap] brings back the state before the first. *)
Theorem Swap_exchanges this other s a b :
  objs s !! this = Some a → objs s !! other = Some b →
  ∃ s', Swap this other s = Ok () s' ∧
    objs s' !! this = Some b ∧ objs s' !! other = Some a ∧
    (∀ k, k ≠ this → k ≠ other → objs s' !! k = objs s !! k) ∧
    heap s' = heap s ∧
    elements s' b = elements s b ∧ elements s' a = elements s a ∧
    Swap this other s' = Ok () s.
Proof.
  intros Ha Hb. eexists. split; [by apply Swap_run|].
  assert (this = other → a = b) as Hsame by (intros ->; congruence).
  assert ((<[other := a]> (<[this := b]> (objs s)) : gmap obj Vector) !! this = Some b)
    as Hthis.
  { destruct (decide (this = other)) as [E|E].
    - rewrite <- E, lookup_insert_eq. f_equal. by apply Hsame.
    - rewrite lookup_insert_ne by done. by rewrite lookup_insert_eq. }
  split_and!; simpl; try done.
  - by rewrite lookup_insert_eq.
  - intros k ? ?. by rewrite !lookup_insert_ne by done.
  - rewrite (Swap_run this other _ b a);
      [|done|simpl; by rewrite lookup_insert_eq].
    unfold with_objs. simpl. destruct s as [o h cf af]. simpl in *. f_equal. f_equal.
    apply map_eq. intros k.
    destruct (decide (k = other)) as [->|]; [by rewrite lookup_insert_eq|].
    rewrite lookup_insert_ne by done.
    destruct (decide (k = this)) as [->|]; [by rewrite lookup_insert_eq|].
    by rewrite !lookup_insert_ne by done.
Qed.

(** X6.  [Clear] on a vector whose elements are alive returns: [size_] is
    0 and there are no elements, but [capacity_] and [data_] are as before
    (the storage is kept, its first [size_] slots are raw again), no other
    block is touched, and a second [Clear] changes nothing. *)
Theorem Clear_keeps_storage this s v l :
  objs s !! this = Some v → elements s v = Some l →
  ∃ s' v', Clear this s = Ok () s' ∧
    objs s' !! this = Some v' ∧
    size_ v' = 0 ∧ capacity_ v' = capacity_ v ∧ data_ v' = data_ v ∧
    elements s' v' = Some [] ∧
    (∀ a b, data_ v = Some a → heap s !! a = Some b →
       heap s' !! a = Some (replicate (length l) None ++ drop (length l) b)) ∧
    (∀ a, data_ v ≠ Some a → heap s' !! a = heap s !! a) ∧
    Clear this s' = Ok () s'.
Proof.
  intros Hv Hl. pose proof (Clear_run _ _ _ _ Hv Hl) as Hrun.
  pose proof Hl as [Hsz Hd]%elements_Some.
  destruct (data_ v) as [a|] eqn:Ed.
  - destruct Hd as [rest Hb].
    eexists _, (mkVector 0 (capacity_ v) (Some a)).
    split; [exact Hrun|]. simpl.
    assert (elements
              (mkState (<[this := mkVector 0 (capacity_ v) (Some a)]> (objs s))
                 (<[a := replicate (length l) None ++
                          drop (length l) (default [] (heap s !! a))]> (heap s))
                 (ctor_faults s) (alloc_faults s) (indeterminate s))
              (mkVector 0 (capacity_ v) (Some a)) = Some []) as Hl'.
    { apply elements_Some. simpl. split; [done|]. eexists.
      rewrite lookup_insert_eq. simpl. reflexivity. }
    split_and!; try done.
    + by rewrite lookup_insert_eq.
    + intros a0 b [= <-] Hb0. rewrite lookup_insert_eq. by rewrite Hb0.
    + intros a0 Ha0. apply lookup_insert_ne. congruence.
    + erewrite Clear_run; [|simpl; by rewrite lookup_insert_eq|exact Hl'].
      simpl. rewrite lookup_insert_eq. simpl. rewrite drop_0.
      by rewrite !insert_insert_eq.
  - subst l. exists s, v. split; [exact Hrun|]. by split_and!.
Qed.

(** [PopBack] on a vector with a last element. *)
Lemma PopBack_run this s v l x a rest :
  objs s !! this = Some v → size_ v < SizeT.modulus →
  size_ v = N.of_nat (length (l ++ [x])) → data_ v = Some a →
  heap s !! a = Some ((Some <$> l ++ [x]) ++ rest) →
  PopBack this s =
  Ok () (mkState (<[this := mkVector (N.of_nat (length l)) (capacity_ v) (Some a)]> (objs s))
           (<[a := (Some <$> l) ++ None :: rest]> (heap s))
           (ctor_faults s) (alloc_faults s) (indeterminate s)).
Proof.
  intros Hv Hmod Hsz Ed Hb. unfold PopBack. run_step.
  rewrite length_app in Hsz. simpl in Hsz.
  replace (0 <? size_ v) with true by (symmetry; apply N.ltb_lt; lia).
  run_step. rewrite Ed.
  rewrite SizeT.sub_small by lia.
  replace (size_ v - 1) with (N.of_nat (length l)) by lia.
  unfold destroy_at.
  rewrite fmap_app, <- app_assoc in Hb. simpl in Hb.
  assert (((Some <$> l) ++ Some x :: rest) !! N.to_nat (N.of_nat (length l))
          = Some (Some x)) as Hx.
  { rewrite Nat2N.id. rewrite lookup_app_r by (by rewrite length_fmap).
    by rewrite length_fmap, Nat.sub_diag. }
  assert (destroy_at (Some a) (N.of_nat (length l)) s =
          Ok () (with_heap s (<[a := <[N.to_nat (N.of_nat (length l)) := None]>
                                       ((Some <$> l) ++ Some x :: rest)]> (heap s))))
    as Hdes.
  { unfold destroy_at.
    rewrite (bind_run_Ok _ _ _ x s)
      by (apply load_run; apply slot_at_Some; eauto).
    apply write_slot_Ok. eexists. split; [exact Hb|]. split; [|reflexivity].
    by eapply lookup_lt_Some. }
  rewrite (bind_run_Ok _ _ _ _ _ Hdes).
  rewrite (set_size_run this _ _ v) by exact Hv.
  unfold with_objs, with_heap. simpl. rewrite Ed. do 2 f_equal.
  rewrite Nat2N.id.
  replace (length l) with (length (Some <$> l) + 0)%nat at 1
    by (rewrite length_fmap; lia).
  by rewrite insert_app_r.
Qed.


End Teardown.

(** ** Tail insertion *)

Section Tail.

Context {T : Type} `{Element T}.

Implicit Types s : State T.

(** X8.  An [EmplaceBack] that returns has appended the object it
    constructed from its arguments, when these refer to no element of the
    vector: [size_] is one more, the elements are the old ones followed by
    the new object, and the capacity is [max(1, 2 * capacity_)] if the
    vector was full and as before if not. *)
Theorem EmplaceBack_appends this args x s v l s' :
  objs s !! this = Some v → rep_inv v → elements s v = Some l →
  built s args = Some x → args_outside args v →
  EmplaceBack this args s = Ok () s' →
  ∃ v', objs s' !! this = Some v' ∧
    size_ v' = size_ v + 1 ∧
    elements s' v' = Some (l ++ [x]) ∧
    capacity_ v' =
      (if size_ v =? capacity_ v then N.max 1 (2 * capacity_ v) else capacity_ v).
Proof.
  intros Hv Hinv Hl Hx Hout Hr.
  eapply push_with_spec in Hr as (v' & ? & ? & ? & ? & ?);
    [|by apply builds_construct|apply keeps_shape_construct|done..].
  by exists v'.
Qed.

(** X9.  A tail insertion followed by [PopBack] gives back the elements
    and the size the vector had (the capacity may have grown): for
    [PushBack] by copy or by move of an object that is not an element of
    the vector, and for [EmplaceBack] with arguments that refer to no
    element of the vector. *)
Theorem push_then_PopBack this s v l s1 :
  objs s !! this = Some v → rep_inv v → elements s v = Some l →
  (∃ r x, referent s r = Some x ∧ outside r v ∧
     (PushBack this r s = Ok () s1 ∨ PushBack_move this r s = Ok () s1)) ∨
  (∃ args x, built s args = Some x ∧ args_outside args v ∧
     EmplaceBack this args s = Ok () s1) →
  ∃ s2 v2, PopBack this s1 = Ok () s2 ∧
    objs s2 !! this = Some v2 ∧ size_ v2 = size_ v ∧ elements s2 v2 = Some l.
Proof.
  intros Hv Hinv Hl Hr.
  assert (∃ x v', objs s1 !! this = Some v' ∧ rep_inv v' ∧
                  size_ v' = size_ v + 1 ∧ elements s1 v' = Some (l ++ [x]))
    as (x & v' & Hv' & (Hle & Hcap & _) & Hsz' & Hl').
  { destruct Hr as [(r & x & Hx & Hout & [Hr|Hr])|(args & x & Hx & Hout & Hr)];
      exists x;
      (eapply push_with_spec in Hr as (v' & ? & ? & ? & ? & ?);
       [|first [by apply builds_copy_ctor|by apply builds_move_ctor
               |by apply builds_construct]
        |first [apply keeps_shape_copy_ctor|apply keeps_shape_move_ctor
               |apply keeps_shape_construct]
        |done..]); by exists v'. }
  pose proof Hl' as [Hn Hd]%elements_Some.
  destruct (data_ v') as [a|] eqn:Ed; [|by destruct l].
  destruct Hd as [rest Hb].
  eexists _, (mkVector (N.of_nat (length l)) (capacity_ v') (Some a)).
  split; [eapply PopBack_run; try done; lia|]. simpl.
  rewrite length_app in Hn. simpl in Hn.
  split_and!.
  - by rewrite lookup_insert_eq.
  - lia.
  - apply elements_Some. simpl. split; [done|].
    eexists. by rewrite lookup_insert_eq.
Qed.

(** X10.  A [PushBack(value)] or [EmplaceBack] on a vector with spare
    capacity does not reallocate: [data_] and [capacity_] are as before.
    When the new object is a copy, or is built from values, the only slot
    written is slot [size_] of the vector's block, so the elements stay
    where they are; here the object copied may be an element of the vector
    itself.  When the new object is moved out of element [i] of the vector
    itself, slot [i] is left in its moved-from state as well. *)
Theorem push_in_place this s v l s' :
  objs s !! this = Some v → rep_inv v → elements s v = Some l →
  size_ v < capacity_ v →
  (∀ r x, referent s r = Some x → PushBack this r s = Ok () s' →
     ∃ a b, data_ v = Some a ∧ heap s !! a = Some b ∧
       objs s' = <[this := mkVector (size_ v + 1) (capacity_ v) (Some a)]> (objs s) ∧
       heap s' = <[a := <[length l := Some x]> b]> (heap s)) ∧
  (∀ args x,
     args = FromValues x ∨ (∃ r, args = FromCopy r ∧ referent s r = Some x) →
     EmplaceBack this args s = Ok () s' →
     ∃ a b, data_ v = Some a ∧ heap s !! a = Some b ∧
       objs s' = <[this := mkVector (size_ v + 1) (capacity_ v) (Some a)]> (objs s) ∧
       heap s' = <[a := <[length l := Some x]> b]> (heap s)) ∧
  (∀ i x, l !! N.to_nat i = Some x →
     PushBack_move this (Slot (data_ v) i) s = Ok () s' ∨
     EmplaceBack this (FromMove (Slot (data_ v) i)) s = Ok () s' →
     ∃ a b, data_ v = Some a ∧ heap s !! a = Some b ∧
       objs s' = <[this := mkVector (size_ v + 1) (capacity_ v) (Some a)]> (objs s) ∧
       heap s' = <[a := <[length l := Some x]>
                          (<[N.to_nat i := Some (moved_from x)]> b)]> (heap s)).
Proof.
  intros Hv (Hle & Hcap & _) Hl Hlt.
  pose proof (elements_length _ _ _ Hl) as Hsz.
  assert (∀ init x (w : list (option T) → list (option T)),
    (∀ b, length (w b) = length b) →
    (∀ y s1, init s = Ok y s1 →
       y = x ∧ objs s1 = objs s ∧
       ∀ a b, data_ v = Some a → heap s !! a = Some b →
         heap s1 = <[a := w b]> (heap s)) →
    push_with this init s = Ok () s' →
    ∃ a b, data_ v = Some a ∧ heap s !! a = Some b ∧
      objs s' = <[this := mkVector (size_ v + 1) (capacity_ v) (Some a)]> (objs s) ∧
      heap s' = <[a := <[length l := Some x]> (w b)]> (heap s)) as Hpush.
  { intros init x w Hw Hinit Hr. unfold push_with in Hr. inv_m.
    destruct (N.eqb_spec (size_ v) (capacity_ v)) as [Heq|Hne]; [lia|]. inv_m.
    match goal with Hp : placement_new ?d _ _ _ = _ |- _ =>
      destruct d as [a|] eqn:Ed;
      [|unfold placement_new in Hp; inv_m;
        by match goal with Hc : check_storage None _ _ = _ |- _ => discriminate Hc end]
    end.
    match goal with Hp : placement_new _ _ _ _ = _ |- _ =>
      apply placement_new_Ok in Hp as (b & y & s0 & Hb & Hlt' & Hy & Hw') end.
    apply Hinit in Hy as (-> & Ho0 & Hh0).
    specialize (Hh0 a b eq_refl Hb).
    apply write_slot_Ok in Hw' as (b' & Hb' & _ & ->).
    rewrite Hh0, lookup_insert_eq in Hb'. simplify_eq.
    norm_objs. rewrite Ho0 in *. norm_objs.
    exists a, b. rewrite SizeT.add_small by lia.
    rewrite Ed, Hsz, Nat2N.id, Hh0, insert_insert_eq. done. }
  assert (∀ r x, referent s r = Some x →
            ∀ y s1, copy_ctor r s = Ok y s1 →
              y = x ∧ objs s1 = objs s ∧
              ∀ a b, data_ v = Some a → heap s !! a = Some b →
                heap s1 = <[a := b]> (heap s)) as Hcopy.
  { intros r x Hx y s1 Hy. apply copy_ctor_Ok in Hy as (Hy & _ & ->).
    split; [congruence|]. split; [done|].
    intros a b _ Hb. simpl. by rewrite insert_id. }
  split_and!.
  - intros r x Hx Hr.
    apply (Hpush (copy_ctor r) x (λ b, b)); [done|by apply Hcopy|exact Hr].
  - intros args x [->|(r & -> & Hx)] Hr.
    + apply (Hpush (ctor_may_throw ;; ret x) x (λ b, b)); [done| |exact Hr].
      intros y s1 Hy. inv_m.
      match goal with Hc : ctor_may_throw _ = _ |- _ =>
        apply ctor_may_throw_Ok in Hc as [_ ->] end.
      split_and!; [done..|]. intros a b _ Hb. simpl. by rewrite insert_id.
    + apply (Hpush (copy_ctor r) x (λ b, b)); [done|by apply Hcopy|exact Hr].
  - intros i x Hx Hr.
    assert (push_with this (move_ctor (Slot (data_ v) i)) s = Ok () s') as Hr'
      by (by destruct Hr).
    apply (Hpush (move_ctor (Slot (data_ v) i)) x
             (λ b, <[N.to_nat i := Some (moved_from x)]> b));
      [intros; by rewrite length_insert| |exact Hr'].
    intros y s1 Hy.
    pose proof Hl as [_ Hd]%elements_Some.
    destruct (data_ v) as [a|] eqn:Ed; [|by destruct l].
    destruct Hd as [rest Hb].
    unfold move_ctor in Hy. simpl in Hy. inv_m.
    match goal with Hld : load _ _ _ = _ |- _ =>
      apply load_Ok in Hld as [Hy ->] end.
    assert (slot_at (heap s) (data_ v) i = Some (Some x)) as Hsl
      by (by eapply slot_at_element).
    rewrite Ed in Hsl. rewrite Hsl in Hy. injection Hy as <-.
    match goal with Hc : ctor_may_throw _ = _ |- _ =>
      apply ctor_may_throw_Ok in Hc as [_ ->] end.
    match goal with Hw : write_slot _ _ _ _ = _ |- _ =>
      apply write_slot_Ok in Hw as (b' & Hb' & _ & ->) end.
    simpl in *. split_and!; [done..|].
    intros a0 b0 [= <-] Hb0. congruence.
Qed.

End Tail.

(** ** Growth: what is kept, and a failing allocation *)

Section Regrowth.

Context {T : Type} `{Element T}.

Implicit Types s : State T.

(** X11.  A [Reserve] that returns keeps [size_] and the elements.  When
    it grew the vector the elements sit in a block that was not there
    before and the old block is released; every block of another vector
    is as it was. *)
Theorem Reserve_keeps_elements this n s v l s' :
  objs s !! this = Some v → elements s v = Some l →
  Reserve this n s = Ok () s' →
  ∃ v', objs s' !! this = Some v' ∧
    size_ v' = size_ v ∧ elements s' v' = Some l ∧
    (capacity_ v < n →
       (∃ a, data_ v' = Some a ∧ heap s !! a = None) ∧
       (∀ a, data_ v = Some a → heap s' !! a = None)).
Proof.
  intros Hv Hl Hr. unfold Reserve in Hr.
  rewrite (bind_run_Ok _ _ _ _ _ (get_capacity_run _ _ _ Hv)) in Hr.
  destruct (N.ltb_spec (capacity_ v) n) as [Hlt|Hge].
  - pose proof Hr as Hr0.
    eapply regrow_heap in Hr
      as (a & rest & s2 & s3 & Hfresh & Hb2 & Hframe & Hlen & He & Hh & Ho);
      [|done|done|lia|intros; eauto with shape].
    simpl in He. inv_m.
    eapply regrow_Ok in Hr0
      as (p & s1 & s2' & s3' & s4 & s5 & _ & _ & _ & _ & Hfree & _ & Hs');
      [|done|intros; eauto with shape].
    exists (mkVector (size_ v) n (Some a)). split_and!.
    + by rewrite Ho, lookup_insert_eq.
    + done.
    + apply elements_Some. simpl. split; [by eapply elements_length|].
      exists rest. by rewrite Hh.
    + intros _. split; [by exists a|].
      intros a0 Ea. rewrite Ea in Hfree.
      apply Deallocate_Ok in Hfree as [_ ->]. rewrite Hs'. simpl.
      apply lookup_delete_eq.
  - inv_m. exists v. split_and!; try done. lia.
Qed.

Lemma regrow_bad_alloc this nc extra s :
  nc ≠ 0 → head (alloc_faults s) = Some true →
  regrow this nc extra s =
  Throw BadAlloc (mkState (objs s) (heap s) (ctor_faults s) (tail (alloc_faults s)) (indeterminate s)).
Proof.
  intros Hnc Hf. unfold regrow. apply bind_run_Throw. by apply Allocate_Throw.
Qed.

(** X12.  When the allocation of the new block fails, every growth
    operation throws [std::bad_alloc] before it has touched anything: the
    object table and the heap are exactly as before the call. *)
Theorem failed_allocation_changes_nothing this s v :
  objs s !! this = Some v → head (alloc_faults s) = Some true →
  let s' := mkState (objs s) (heap s) (ctor_faults s) (tail (alloc_faults s)) (indeterminate s) in
  (∀ n, capacity_ v < n →
     Reserve this n s = Throw BadAlloc s' ∧
     Resize this n s = Throw BadAlloc s' ∧
     ∀ r, Resize_value this n r s = Throw BadAlloc s') ∧
  (size_ v = capacity_ v → 2 * capacity_ v < SizeT.modulus →
     (∀ r, PushBack this r s = Throw BadAlloc s' ∧
           PushBack_move this r s = Throw BadAlloc s') ∧
     ∀ x, EmplaceBack this x s = Throw BadAlloc s') ∧
  (0 < size_ v < capacity_ v → ShrinkToFit this s = Throw BadAlloc s').
Proof.
  intros Hv Hf s'. split_and!.
  - intros n Hlt.
    assert ((capacity_ v <? n) = true) as Hb by (by apply N.ltb_lt).
    split_and!; [|  |intros r].
    + unfold Reserve. run_step. rewrite Hb. apply regrow_bad_alloc; [lia|done].
    + unfold Resize. do 3 run_step. rewrite Hb.
      apply bind_run_Throw. apply regrow_bad_alloc; [lia|done].
    + unfold Resize_value. do 3 run_step. rewrite Hb.
      apply bind_run_Throw. apply regrow_bad_alloc; [lia|done].
  - intros Hfull Hdouble.
    assert (∀ init, push_with this init s = Throw BadAlloc s') as Hpush.
    { intros init. unfold push_with. do 2 run_step.
      rewrite (proj2 (N.eqb_eq _ _) Hfull).
      apply bind_run_Throw. apply regrow_bad_alloc; [|done].
      destruct (N.eqb_spec (capacity_ v) 0); [done|].
      unfold SizeT.mul. rewrite SizeT.wrap_small by lia. lia. }
    split; [intros r; split|intros x]; apply Hpush.
  - intros [Hpos Hlt]. unfold ShrinkToFit. do 2 run_step.
    rewrite (proj2 (N.eqb_neq _ _)) by lia.
    rewrite (proj2 (N.ltb_lt _ _) Hlt).
    apply regrow_bad_alloc; [lia|done].
Qed.

End Regrowth.

(** ** Copies, moves and the storage they own *)

Section Ownership.

Context {T : Type} `{Element T}.

Implicit Types s : State T.

Lemma equal_list_refl (l : list T) :
  (∀ x, x ∈ l → elem_eqb x x = true) → equal_list l l = true.
Proof.
  induction l as [|x l IH]; intros Hrefl; simpl; [done|].
  rewrite Hrefl by apply list_elem_of_here.
  apply IH. intros y Hy. apply Hrefl. by apply list_elem_of_further.
Qed.

(** X13.  A copy construction that returns has built a vector with the
    size, the capacity and the elements of the source, in a block of its
    own that was not there before; the source is as it was; and where
    [operator==] on the elements is reflexive the copy compares equal to
    the source. *)
Theorem copy_constructor_copies this other s o l s' :
  objs s !! other = Some o → this ≠ other → elements s o = Some l →
  Vector_copy this other s = Ok () s' →
  ∃ v', objs s' !! this = Some v' ∧
    size_ v' = size_ o ∧ capacity_ v' = capacity_ o ∧
    elements s' v' = Some l ∧
    objs s' !! other = Some o ∧ elements s' o = Some l ∧
    (∀ a, data_ v' = Some a → data_ o ≠ Some a ∧ heap s !! a = None) ∧
    ((∀ x, x ∈ l → elem_eqb x x = true) →
       op_eq this other s' = Ok true s' ∧ op_ne this other s' = Ok false s').
Proof.
  intros Ho Hne Hl Hr.
  eapply Vector_copy_Ok in Hr as (p & Hobjs & Hl' & Hfresh & Hframe); [|done..].
  assert (∀ a, p = Some a → data_ o ≠ Some a) as Hsep.
  { intros a -> Ed. apply elements_Some in Hl as [_ Hd]. rewrite Ed in Hd.
    destruct Hd as [rest Hb]. specialize (Hfresh a eq_refl). congruence. }
  assert (elements s' o = Some l) as Hlo.
  { rewrite <- Hl. apply elements_heap_eq. intros a Ea. apply Hframe.
    intros ->. by eapply Hsep. }
  assert (objs s' !! this = Some (mkVector (size_ o) (capacity_ o) p)) as Hthis
    by (by rewrite Hobjs, lookup_insert_eq).
  assert (objs s' !! other = Some o) as Hother
    by (by rewrite Hobjs, lookup_insert_ne).
  eexists. split; [exact Hthis|]. simpl. split_and!; try done.
  - intros a ->. split; [by apply Hsep|by apply Hfresh].
  - intros Hrefl.
    pose proof (op_eq_run _ _ _ _ _ _ _ Hthis Hother Hl' Hlo) as Heq.
    rewrite decide_True, equal_list_refl in Heq by done.
    split; [done|]. unfold op_ne. by rewrite (bind_run_Ok _ _ _ _ _ Heq).
Qed.

(** X14.  Copying a vector into a new object and destroying the copy
    brings back the object table and the heap: the copy owns its storage
    and nothing else. *)
Theorem copy_then_destroy this other s o l s1 :
  objs s !! other = Some o → objs s !! this = None → elements s o = Some l →
  Vector_copy this other s = Ok () s1 →
  ∃ s2, Vector_dtor this s1 = Ok () s2 ∧ objs s2 = objs s ∧ heap s2 = heap s.
Proof.
  intros Ho Hthis Hl Hr.
  eapply Vector_copy_Ok in Hr as (p & Hobjs & Hl' & Hfresh & Hframe); [|done..].
  eexists. split.
  - eapply Vector_dtor_run; [|exact Hl']. by rewrite Hobjs, lookup_insert_eq.
  - simpl. split.
    + rewrite Hobjs, delete_insert_eq. by apply delete_id.
    + destruct p as [a|].
      * apply map_eq. intros k. destruct (decide (k = a)) as [->|Hk].
        -- rewrite lookup_delete_eq. symmetry. by apply Hfresh.
        -- rewrite lookup_delete_ne by done. apply Hframe. congruence.
      * apply map_eq. intros k. by apply Hframe.
Qed.

(** X15.  After a move construction the destructor of the source releases
    nothing: the destination still holds the elements, and the heap is the
    one before the move. *)
Theorem moved_from_destructor this other s o l :
  objs s !! other = Some o → this ≠ other → elements s o = Some l →
  ∃ s1 s2, Vector_move this other s = Ok () s1 ∧
    Vector_dtor other s1 = Ok () s2 ∧
    objs s2 !! this = Some o ∧ objs s2 !! other = None ∧
    heap s2 = heap s ∧ elements s2 o = Some l.
Proof.
  intros Ho Hne Hl. eexists _, _. split; [by apply Vector_move_run|]. split.
  - eapply (Vector_dtor_run other _ empty_vector []).
    + simpl. by rewrite lookup_insert_eq.
    + done.
  - simpl. split_and!; try done.
    + rewrite lookup_delete_ne by done. rewrite lookup_insert_ne by done.
      by rewrite lookup_insert_eq.
    + by rewrite lookup_delete_eq.
Qed.

End Ownership.

Section Assigned.

Context {T : Type} `{Element T}.

Implicit Types s : State T.


(** X17.  [Clear] followed by [ShrinkToFit] brings a vector back to the
    state of a default-constructed one and releases its block. *)
Theorem Clear_then_ShrinkToFit this s v l :
  objs s !! this = Some v → elements s v = Some l →
  ∃ s1 s2, Clear this s = Ok () s1 ∧ ShrinkToFit this s1 = Ok () s2 ∧
    objs s2 = <[this := empty_vector]> (objs s) ∧
    heap s2 = (match data_ v with Some a => delete a (heap s) | None => heap s end).
Proof.
  intros Hv Hl. pose proof (Clear_run _ _ _ _ Hv Hl) as Hclear.
  pose proof Hl as [Hsz Hd]%elements_Some.
  destruct (data_ v) as [a|] eqn:Ed.
  - eexists _, _. split; [exact Hclear|].
    unfold ShrinkToFit. do 2 run_step. simpl. run_step.
    unfold Deallocate, operator_delete.
    erewrite bind_run_Ok; [|simpl; rewrite lookup_insert_eq; reflexivity].
    unfold with_objs; cbn [objs heap ctor_faults alloc_faults].
    run_step.
    erewrite set_capacity_run by (simpl; simplify_map_eq; reflexivity).
    unfold with_objs, empty_vector. simpl. split; [reflexivity|]. split.
    + by rewrite !insert_insert_eq.
    + by rewrite delete_insert_eq.
  - subst l. simpl in Hsz. eexists _, _. split; [exact Hclear|].
    unfold ShrinkToFit. do 2 run_step. rewrite Hsz. simpl.
    run_step. rewrite Ed. unfold Deallocate.
    erewrite bind_run_Ok by reflexivity.
    run_step.
    erewrite set_capacity_run by (simpl; simplify_map_eq; reflexivity).
    unfold with_objs, empty_vector. simpl. split; [reflexivity|]. split; [|done].
    by rewrite !insert_insert_eq, Hsz.
Qed.

End Assigned.

(** ** Reading a vector *)

(** [*it] and [it + k] on an iterator, and [*rit] on a reverse iterator
    (which dereferences the position before its base). *)
Definition deref {T} `{Element T} (it : Pointer * N) : M (T:=T) T := load it.1 it.2.

Definition advance (it : Pointer * N) (k : N) : Pointer * N := (it.1, it.2 + k).

Definition rderef {T} `{Element T} (it : Pointer * N) : M (T:=T) T :=
  load it.1 (it.2 - 1).

Definition radvance (it : Pointer * N) (k : N) : Pointer * N := (it.1, it.2 - k).

Section Reading.

Context {T : Type} `{Element T}.

Implicit Types s : State T.

(** X18.  On a vector with elements [l], none of the observers changes
    the state; [Size] is the number of elements, [Empty] says whether there
    is none, [begin()] and [end()] are [Size] positions apart in the block
    [Data] points to, position [j] of the range [[begin(), end())] holds
    element [j], and position [j] of [[rbegin(), rend())] holds element
    [Size - 1 - j]. *)
Theorem observers_read_elements this s v l :
  objs s !! this = Some v → elements s v = Some l →
  Size this s = Ok (N.of_nat (length l)) s ∧
  Empty this s = Ok (bool_decide (l = [])) s ∧
  Capacity this s = Ok (capacity_ v) s ∧
  Data this s = Ok (data_ v) s ∧
  begin_ this s = Ok (data_ v, 0) s ∧
  end_ this s = Ok (advance (data_ v, 0) (N.of_nat (length l))) s ∧
  rbegin this s = Ok (data_ v, N.of_nat (length l)) s ∧
  rend this s = Ok (radvance (data_ v, N.of_nat (length l)) (N.of_nat (length l))) s ∧
  (∀ j x, l !! j = Some x →
     deref (advance (data_ v, 0) (N.of_nat j)) s = Ok x s) ∧
  (∀ j x, reverse l !! j = Some x →
     rderef (radvance (data_ v, N.of_nat (length l)) (N.of_nat j)) s = Ok x s).
Proof.
  intros Hv Hl. pose proof (elements_length _ _ _ Hl) as Hsz.
  split_and!.
  - unfold Size. rewrite <- Hsz. by apply get_size_run.
  - unfold Empty. run_step. rewrite Hsz. unfold ret. do 2 f_equal.
    by destruct l.
  - by apply get_capacity_run.
  - by apply get_data_run.
  - unfold begin_. by run_step.
  - unfold end_, advance. do 2 run_step. simpl. by rewrite Hsz.
  - unfold rbegin, end_. do 2 run_step. by rewrite Hsz.
  - unfold rend, begin_, radvance. run_step. simpl. by rewrite N.sub_diag.
  - intros j x Hx. unfold deref, advance. simpl. apply load_run.
    by eapply elements_slots.
  - intros j x Hx. unfold rderef, radvance. simpl. apply load_run.
    apply reverse_lookup_Some in Hx as [Hx Hj].
    replace (N.of_nat (length l) - N.of_nat j - 1)
      with (0 + N.of_nat (length l - S j)) by lia.
    by eapply elements_slots.
Qed.

(** X19.  On a vector with elements [l]: [operator[]] and [At] return
    element [i] for [i < Size], [Front] returns the first and [Back] the
    last element, and none changes the state.  On a vector without storage
    [operator[]], [Front] and [Back] have undefined behaviour, where [At]
    throws. *)
Theorem element_access this s v l :
  objs s !! this = Some v → rep_inv v → elements s v = Some l →
  (∀ i x, l !! N.to_nat i = Some x →
     index this i s = Ok x s ∧ At this i s = Ok x s) ∧
  (∀ x, head l = Some x → Front this s = Ok x s) ∧
  (∀ x, last l = Some x → Back this s = Ok x s) ∧
  (data_ v = None →
     (∀ i, index this i s = Undefined ∧ At this i s = Throw ArrayOutOfRange s) ∧
     Front this s = Undefined ∧ Back this s = Undefined).
Proof.
  intros Hv (Hle & Hcap & _) Hl. pose proof (elements_length _ _ _ Hl) as Hsz.
  split_and!.
  - intros i x Hx.
    pose proof (slot_at_element _ _ _ _ _ Hl Hx) as Hslot.
    pose proof (lookup_lt_Some _ _ _ Hx) as Hi.
    split.
    + unfold index. run_step. by apply load_run.
    + unfold At. run_step.
      rewrite (proj2 (N.leb_gt _ _)) by lia.
      run_step. by apply load_run.
  - intros x Hx. unfold Front. run_step. apply load_run.
    eapply slot_at_element; [done|]. by rewrite <- head_lookup.
  - intros x Hx. unfold Back. do 2 run_step. apply load_run.
    eapply slot_at_element; [done|].
    rewrite last_lookup in Hx.
    destruct l as [|y l']; [done|]. simpl in Hsz.
    rewrite SizeT.sub_small by lia.
    replace (N.to_nat (size_ v - 1)) with (pred (length (y :: l'))) by (simpl; lia).
    done.
  - intros Ed.
    assert (size_ v = 0) as Hz.
    { apply elements_Some in Hl as [_ Hd]. rewrite Ed in Hd. subst l. by simpl in Hsz. }
    split_and!.
    + intros i. split.
      * unfold index. run_step. by rewrite Ed.
      * unfold At. run_step. rewrite Hz.
        by rewrite (proj2 (N.leb_le 0 i)) by lia.
    + unfold Front. run_step. by rewrite Ed.
    + unfold Back. do 2 run_step. by rewrite Ed.
Qed.

End Reading.

(** ** The comparison operators as relations *)

Section Relations.

Context {T : Type} `{Element T}.

Implicit Types s : State T.

Lemma lex_list_asym (l1 l2 : list T) :
  (∀ x y, elem_ltb x y = true → elem_ltb y x = false) →
  lex_list l1 l2 = true → lex_list l2 l1 = false.
Proof.
  intros Hasym. revert l2.
  induction l1 as [|x l1 IH]; intros [|y l2]; simpl; try done.
  destruct (elem_ltb x y) eqn:Exy.
  - intros _. by rewrite (Hasym _ _ Exy).
  - destruct (elem_ltb y x); [done|]. apply IH.
Qed.

Lemma lex_list_irrefl (l : list T) :
  (∀ x y, elem_ltb x y = true → elem_ltb y x = false) → lex_list l l = false.
Proof.
  intros Hasym. destruct (lex_list l l) eqn:E; [|done].
  by rewrite (lex_list_asym _ _ Hasym E) in E.
Qed.

Lemma equal_list_sym (l1 l2 : list T) :
  (∀ x y, elem_eqb x y = elem_eqb y x) → equal_list l1 l2 = equal_list l2 l1.
Proof.
  intros Hsym. revert l2.
  induction l1 as [|x l1 IH]; intros [|y l2]; simpl; try done.
  rewrite (Hsym x y). by rewrite IH.
Qed.

Lemma equal_list_trans (l1 l2 l3 : list T) :
  (∀ x y z, elem_eqb x y = true → elem_eqb y z = true → elem_eqb x z = true) →
  length l1 = length l2 →
  equal_list l1 l2 = true → equal_list l2 l3 = true → equal_list l1 l3 = true.
Proof.
  intros Htrans. revert l2 l3.
  induction l1 as [|x l1 IH]; intros [|y l2] [|z l3]; simpl; try done.
  intros [= Hlen].
  destruct (elem_eqb x y) eqn:Exy; [|done].
  destruct (elem_eqb y z) eqn:Eyz; [|done].
  rewrite (Htrans _ _ _ Exy Eyz). by apply IH.
Qed.

Lemma equal_list_not_lex (l1 l2 : list T) :
  (∀ x y, elem_eqb x y = true → elem_ltb x y = false ∧ elem_ltb y x = false) →
  length l1 = length l2 →
  equal_list l1 l2 = true → lex_list l1 l2 = false.
Proof.
  intros Hcompat. revert l2.
  induction l1 as [|x l1 IH]; intros [|y l2]; simpl; try done.
  intros [= Hlen].
  destruct (elem_eqb x y) eqn:Exy; [|done].
  destruct (Hcompat _ _ Exy) as [-> ->]. by apply IH.
Qed.

(** X20.  Where [operator<] on the elements is asymmetric, the ordering
    operators on vectors behave as a strict order and its derived
    relations: [a < b] excludes [b < a] and gives [a <= b] and not
    [a >= b]; for any two vectors [a <= b] or [a >= b]; and no vector is
    less than itself. *)
Theorem ordering_is_strict this other s a b la lb :
  objs s !! this = Some a → objs s !! other = Some b →
  elements s a = Some la → elements s b = Some lb →
  (∀ x y, elem_ltb x y = true → elem_ltb y x = false) →
  (op_lt this other s = Ok true s →
     op_lt other this s = Ok false s ∧ op_gt this other s = Ok false s ∧
     op_le this other s = Ok true s ∧ op_ge this other s = Ok false s) ∧
  (op_le this other s = Ok true s ∨ op_ge this other s = Ok true s) ∧
  (op_lt this this s = Ok false s ∧ op_gt this this s = Ok false s ∧
   op_le this this s = Ok true s ∧ op_ge this this s = Ok true s).
Proof.
  intros Ha Hb Hla Hlb Hasym.
  pose proof (op_lt_run _ _ _ _ _ _ _ Ha Hb Hla Hlb) as Hlt.
  pose proof (op_lt_run _ _ _ _ _ _ _ Hb Ha Hlb Hla) as Hgt.
  pose proof (op_lt_run _ _ _ _ _ _ _ Ha Ha Hla Hla) as Hself.
  rewrite (lex_list_irrefl _ Hasym) in Hself.
  unfold op_gt, op_le, op_ge.
  split_and!.
  - intros Hr. rewrite Hlt in Hr. injection Hr as Hr.
    rewrite (bind_run_Ok _ _ _ _ _ Hgt), (bind_run_Ok _ _ _ _ _ Hlt), Hgt.
    by rewrite Hr, (lex_list_asym _ _ Hasym Hr).
  - rewrite (bind_run_Ok _ _ _ _ _ Hgt), (bind_run_Ok _ _ _ _ _ Hlt).
    destruct (lex_list la lb) eqn:E.
    + left. by rewrite (lex_list_asym _ _ Hasym E).
    + by right.
  - done.
  - done.
  - by rewrite (bind_run_Ok _ _ _ _ _ Hself).
  - by rewrite (bind_run_Ok _ _ _ _ _ Hself).
Qed.

(** X21.  Where [operator==] on the elements is an equivalence,
    [operator==] on vectors is one: every vector equals itself, [a == b]
    and [b == a] give the same answer, and [a == b] and [b == c] give
    [a == c].  Where moreover equal elements are not ordered by
    [operator<], equal vectors are not ordered either: [a == b] gives
    [a <= b] and [a >= b]. *)
Theorem equality_is_equivalence this other third s a b c la lb lc :
  objs s !! this = Some a → objs s !! other = Some b → objs s !! third = Some c →
  elements s a = Some la → elements s b = Some lb → elements s c = Some lc →
  (∀ x, elem_eqb x x = true) →
  (∀ x y, elem_eqb x y = elem_eqb y x) →
  (∀ x y z, elem_eqb x y = true → elem_eqb y z = true → elem_eqb x z = true) →
  op_eq this this s = Ok true s ∧
  op_eq this other s = op_eq other this s ∧
  (op_eq this other s = Ok true s → op_eq other third s = Ok true s →
     op_eq this third s = Ok true s) ∧
  ((∀ x y, elem_eqb x y = true → elem_ltb x y = false ∧ elem_ltb y x = false) →
   op_eq this other s = Ok true s →
     op_lt this other s = Ok false s ∧ op_gt this other s = Ok false s ∧
     op_le this other s = Ok true s ∧ op_ge this other s = Ok true s).
Proof.
  intros Ha Hb Hc Hla Hlb Hlc Hrefl Hsym Htrans.
  pose proof (op_eq_run _ _ _ _ _ _ _ Ha Ha Hla Hla) as Haa.
  pose proof (op_eq_run _ _ _ _ _ _ _ Ha Hb Hla Hlb) as Hab.
  pose proof (op_eq_run _ _ _ _ _ _ _ Hb Ha Hlb Hla) as Hba.
  pose proof (op_eq_run _ _ _ _ _ _ _ Hb Hc Hlb Hlc) as Hbc.
  pose proof (op_eq_run _ _ _ _ _ _ _ Ha Hc Hla Hlc) as Hac.
  split_and!.
  - rewrite Haa, decide_True by done.
    rewrite equal_list_refl; [done|]. intros x _. apply Hrefl.
  - rewrite Hab, Hba. rewrite (equal_list_sym la lb Hsym).
    by destruct (decide (length la = length lb)), (decide (length lb = length la));
      try congruence.
  - rewrite Hab, Hbc, Hac. intros E1 E2.
    destruct (decide (length la = length lb)) as [L1|]; [|done].
    destruct (decide (length lb = length lc)) as [L2|]; [|done].
    rewrite decide_True by congruence.
    injection E1 as E1. injection E2 as E2.
    by rewrite (equal_list_trans _ _ _ Htrans L1 E1 E2).
  - intros Hcompat E. rewrite Hab in E.
    destruct (decide (length la = length lb)) as [L|]; [|done].
    injection E as E.
    pose proof (op_lt_run _ _ _ _ _ _ _ Ha Hb Hla Hlb) as Hlt.
    pose proof (op_lt_run _ _ _ _ _ _ _ Hb Ha Hlb Hla) as Hgt.
    rewrite (equal_list_not_lex _ _ Hcompat L E) in Hlt.
    rewrite (equal_list_sym la lb Hsym) in E.
    rewrite (equal_list_not_lex _ _ Hcompat (eq_sym L) E) in Hgt.
    unfold op_gt, op_le, op_ge.
    by rewrite (bind_run_Ok _ _ _ _ _ Hgt), (bind_run_Ok _ _ _ _ _ Hlt), Hgt.
Qed.

End Relations.

(** ** Arguments that refer into the vector, and sizes that overflow *)

Section Corners.

Context {T : Type} `{Element T}.

Implicit Types s : State T.

(** A filling loop whose value is an object of the block it fills, in
    front of the slots it fills. *)
Lemma fill_loop_own_Ok a i x first todo k s s' pre rest :
  heap s !! a = Some (pre ++ rest) →
  pre !! N.to_nat i = Some (Some x) →
  length pre = (N.to_nat first + k)%nat →
  uninitialized_loop (λ _, copy_ctor (Slot (Some a) i)) (Some a) first k todo s
    = Ok () s' →
  (todo ≤ length rest)%nat ∧
  heap s' = <[a := pre ++ replicate todo (Some x) ++ drop todo rest]> (heap s).
Proof.
  revert k s pre rest.
  induction todo as [|todo IH]; intros k s pre rest Hb Hx Hk Hr; simpl in Hr.
  - inv_m. split; [lia|]. simpl. rewrite drop_0. by rewrite insert_id.
  - apply bind_Ok in Hr as ([] & s1 & Hp%on_throw_Ok & Hr).
    apply placement_new_Ok in Hp as (b & y & s0 & Hb' & Hlt & Hc & Hw).
    apply copy_ctor_Slot_Ok in Hc as ((b0 & Hb0 & Hy) & _ & ->).
    apply write_slot_Ok in Hw as (b'' & Hb'' & _ & ->). simpl in *. simplify_eq.
    rewrite lookup_app_l in Hy by (by eapply lookup_lt_Some).
    rewrite Hx in Hy. injection Hy as <-.
    rewrite length_app in Hlt.
    destruct rest as [|r0 rest]; [simpl in Hlt; lia|].
    replace (N.to_nat (first + N.of_nat k)) with (length pre + 0)%nat in * by lia.
    rewrite insert_app_r in Hr. simpl in Hr.
    eapply (IH (S k) _ (pre ++ [Some x]) rest) in Hr as [Hle Hh].
    + split; [simpl; lia|]. rewrite Hh. simpl. rewrite insert_insert_eq.
      by rewrite <- app_assoc.
    + simpl. rewrite lookup_insert_eq. by rewrite <- app_assoc.
    + apply lookup_app_l_Some. done.
    + rewrite length_app. simpl. lia.
Qed.

(** X22.  [Resize(n, value)] within the capacity, where [value] is
    element [i] of the vector itself and [n] is not below the size,
    returns with copies of that element appended: no reallocation takes
    place, so the reference stays valid. *)
Theorem Resize_with_own_element this n i x s v l s' :
  objs s !! this = Some v → rep_inv v → elements s v = Some l →
  size_ v ≤ n → n ≤ capacity_ v →
  l !! N.to_nat i = Some x →
  Resize_value this n (Slot (data_ v) i) s = Ok () s' →
  ∃ v', objs s' !! this = Some v' ∧ size_ v' = n ∧
    capacity_ v' = capacity_ v ∧ data_ v' = data_ v ∧
    elements s' v' = Some (l ++ replicate (N.to_nat n - length l) x).
Proof.
  intros Hv (Hle & Hcap & _) Hl Hsn Hnc Hx Hr.
  pose proof (elements_length _ _ _ Hl) as Hsz.
  pose proof Hl as [_ Hd]%elements_Some.
  destruct (data_ v) as [a|] eqn:Ed; [|by subst l].
  destruct Hd as [rest Hb].
  unfold Resize_value in Hr.
  rewrite (bind_run_Ok _ _ _ _ _ (get_capacity_run _ _ _ Hv)) in Hr.
  rewrite (bind_run_Ok _ _ _ _ _ (get_size_run _ _ _ Hv)) in Hr.
  rewrite (bind_run_Ok _ _ _ _ _ (get_data_run _ _ _ Hv)) in Hr.
  rewrite (proj2 (N.ltb_ge _ _)) in Hr by lia.
  rewrite (proj2 (N.ltb_ge n (size_ v))) in Hr by lia.
  apply bind_Ok in Hr as ([] & s1 & Hfill & Hset).
  rewrite Ed in Hfill. unfold uninitialized_fill_n in Hfill.
  rewrite SizeT.sub_small in Hfill by lia.
  assert (objs s1 = objs s) as Ho
    by (eapply run_Ok_objs; [|exact Hfill]; eauto with shape).
  eapply (fill_loop_own_Ok a i x _ _ 0 _ _ (Some <$> l) rest) in Hfill
    as [Htodo Hh]; [|done|by rewrite list_lookup_fmap, Hx|rewrite length_fmap; lia].
  rewrite (set_size_run this n s1 v) in Hset by (by rewrite Ho).
  injection Hset as <-. simpl. rewrite Ho, Ed.
  eexists. split; [by rewrite lookup_insert_eq|]. simpl.
  split_and!; try done.
  apply elements_Some. simpl. split.
  - rewrite length_app, length_replicate. lia.
  - rewrite Hh, lookup_insert_eq. eexists.
    rewrite fmap_app, fmap_replicate, <- app_assoc.
    by replace (N.to_nat (n - size_ v)) with (N.to_nat n - length l)%nat by lia.
Qed.

(** X23.  The byte count [n * sizeof(T)] passed to [operator new] is
    computed in [size_t] and is not checked: a [Reserve(n)] on an empty
    vector with [n * sizeof(T) >= 2^64] returns with [capacity_ = n] while
    the block it holds has only [(n * sizeof(T) mod 2^64) / sizeof(T)]
    slots, fewer than [n]. *)
Theorem Reserve_size_overflow this n s :
  objs s !! this = Some empty_vector →
  n < SizeT.modulus → SizeT.modulus ≤ n * sizeof →
  head (alloc_faults s) ≠ Some true →
  ∃ a slots,
    Reserve this n s =
      Ok () (mkState (<[this := mkVector 0 n (Some a)]> (objs s))
               (<[a := replicate slots None]> (heap s))
               (ctor_faults s) (tail (alloc_faults s)) (indeterminate s)) ∧
    heap s !! a = None ∧
    slots = N.to_nat (SizeT.wrap (n * sizeof) / sizeof) ∧
    N.of_nat slots < n.
Proof.
  intros Hv Hn Hover Hf.
  pose proof sizeof_pos as Hpos.
  assert (n ≠ 0) as Hn0.
  { intros ->. pose proof SizeT.modulus_gt_1. lia. }
  exists (fresh_addr (heap s)), (N.to_nat (SizeT.wrap (n * sizeof) / sizeof)).
  split_and!; [|apply fresh_addr_fresh|done|].
  - unfold Reserve. run_step. unfold empty_vector. simpl.
    destruct n as [|n']; [done|]. simpl.
    unfold regrow.
    erewrite bind_run_Ok; cycle 1.
    { apply Allocate_Ok. right. split_and!; try done. }
    do 2 run_step. unfold empty_vector. simpl.
    unfold on_throw, uninitialized_move, destroy, Deallocate. simpl.
    do 3 (erewrite bind_run_Ok by reflexivity).
    run_step.
    erewrite set_capacity_run by (simpl; simplify_map_eq; reflexivity).
    unfold with_objs. simpl. by rewrite insert_insert_eq.
  - rewrite N2Nat.id. apply N.Div0.div_lt_upper_bound.
    pose proof (SizeT.wrap_lt (n * sizeof)). lia.
Qed.

End Corners.

(** ** Runs without failures *)

Section Progress.

Context {T : Type} `{Element T}.

Implicit Types s : State T.

(** No construction and no allocation is scheduled to fail. *)
Definition quiet s : Prop := ctor_faults s = [] ∧ alloc_faults s = [].

(** The storage of a vector with elements [l] as the members describe it:
    a block of exactly [capacity_] slots whose first [size_] hold the
    elements and whose other slots are raw; no block when [capacity_] is 0;
    and [capacity_ * sizeof(T)] is a [size_t] value. *)
Definition stored s (v : Vector) (l : list T) : Prop :=
  size_ v = N.of_nat (length l) ∧
  N.of_nat (length l) ≤ capacity_ v ∧
  capacity_ v * sizeof < SizeT.modulus ∧
  match data_ v with
  | Some a =>
      0 < capacity_ v ∧
      heap s !! a =
        Some ((Some <$> l) ++ replicate (N.to_nat (capacity_ v) - length l) None)
  | None => capacity_ v = 0
  end.

Lemma stored_elements s v l : stored s v l → elements s v = Some l.
Proof.
  intros (Hsz & Hle & _ & Hd). apply elements_Some. split; [done|].
  destruct (data_ v) as [a|].
  - destruct Hd as [_ Hb]. eauto.
  - destruct l; [done|]. simpl in *. lia.
Qed.

Lemma stored_rep_inv s v l : stored s v l → rep_inv v.
Proof.
  intros (Hsz & Hle & Hmul & Hd). pose proof sizeof_pos.
  split_and!.
  - lia.
  - nia.
  - intros [a Ea]. rewrite Ea in Hd. by destruct Hd.
Qed.

Lemma quiet_eta s :
  quiet s → mkState (objs s) (heap s) [] [] (indeterminate s) = s.
Proof. destruct s. intros [? ?]. simpl in *. by subst. Qed.

Lemma move_ctor_Slot_run a i s b x :
  ctor_faults s = [] →
  heap s !! a = Some b → b !! N.to_nat i = Some (Some x) →
  move_ctor (Slot (Some a) i) s =
  Ok x (with_heap s (<[a := <[N.to_nat i := Some (moved_from x)]> b]> (heap s))).
Proof.
  intros Hq Hb Hx. unfold move_ctor. simpl.
  rewrite (bind_run_Ok _ _ _ x s) by (apply load_run, slot_at_Some; eauto).
  assert (ctor_may_throw s = Ok () s) as Hc.
  { unfold ctor_may_throw. rewrite Hq. simpl. destruct s; simpl in *. by subst. }
  rewrite (bind_run_Ok _ _ _ _ _ Hc).
  rewrite (bind_run_Ok _ _ _ ()
             (with_heap s (<[a := <[N.to_nat i := Some (moved_from x)]> b]> (heap s))));
    [reflexivity|].
  apply write_slot_Ok. exists b. split; [done|]. split; [|done].
  by eapply lookup_lt_Some.
Qed.

Lemma move_loop_run src dst xs k s spre srest dpre drest :
  src ≠ dst → ctor_faults s = [] →
  heap s !! src = Some (spre ++ (Some <$> xs) ++ srest) →
  heap s !! dst = Some (dpre ++ drest) →
  length spre = k → length dpre = k → (length xs ≤ length drest)%nat →
  uninitialized_loop (λ i, move_ctor (Slot (Some src) i)) (Some dst) 0 k (length xs) s
    = Ok () (with_heap s
               (<[dst := dpre ++ (Some <$> xs) ++ drop (length xs) drest]>
                  (<[src := spre ++ (Some ∘ moved_from <$> xs) ++ srest]> (heap s)))).
Proof.
  intros Hne. revert k s spre dpre drest.
  induction xs as [|x xs IH]; intros k s spre dpre drest Hq Hs Hd Hks Hkd Hlen; simpl.
  - unfold with_heap. rewrite drop_0. simpl in *.
    rewrite (insert_id _ src), (insert_id _ dst) by done.
    unfold ret. by destruct s.
  - destruct drest as [|r drest]; [simpl in Hlen; lia|].
    set (s0 := with_heap s (<[src := <[N.to_nat (N.of_nat k) := Some (moved_from x)]>
                               (spre ++ (Some <$> x :: xs) ++ srest)]> (heap s))).
    set (s1 := with_heap s0 (<[dst := <[N.to_nat (0 + N.of_nat k) := Some x]>
                               (dpre ++ r :: drest)]> (heap s0))).
    assert (placement_new (Some dst) (0 + N.of_nat k)
              (move_ctor (Slot (Some src) (N.of_nat k))) s = Ok () s1) as Hp.
    { apply placement_new_Ok. exists (dpre ++ r :: drest), x, s0. split_and!.
      - done.
      - rewrite length_app. simpl. lia.
      - apply move_ctor_Slot_run; [done|done|].
        rewrite Nat2N.id, <- Hks. rewrite lookup_app_r by lia.
        by rewrite Nat.sub_diag.
      - apply write_slot_Ok. exists (dpre ++ r :: drest). split_and!.
        + subst s0. simpl. by rewrite lookup_insert_ne.
        + rewrite length_app. simpl. lia.
        + done. }
    rewrite (bind_run_Ok _ _ _ () s1) by (by apply on_throw_Ok).
    subst s1 s0. unfold with_heap in *. simpl in *.
    replace (N.to_nat (0 + N.of_nat k)) with (length dpre + 0)%nat by lia.
    replace (N.to_nat (N.of_nat k)) with (length spre + 0)%nat by lia.
    rewrite !insert_app_r. simpl.
    rewrite (IH (S k) _ (spre ++ [Some (moved_from x)]) (dpre ++ [Some x]) drest).
    + simpl. f_equal. f_equal.
      rewrite (insert_insert_ne _ src dst) by done.
      rewrite (insert_insert_eq _ dst), (insert_insert_eq _ src).
      by rewrite <- !app_assoc.
    + done.
    + simpl. rewrite lookup_insert_ne by done. rewrite lookup_insert_eq.
      by rewrite <- app_assoc.
    + simpl. rewrite lookup_insert_eq. by rewrite <- app_assoc.
    + rewrite length_app. simpl. lia.
    + rewrite length_app. simpl. lia.
    + simpl in Hlen. lia.
Qed.


(** The growth transaction when nothing fails. *)
Lemma regrow_run this nc extra s v l newblock :
  objs s !! this = Some v → stored s v l → quiet s →
  nc ≠ 0 → N.of_nat (length l) ≤ nc → nc * sizeof < SizeT.modulus →
  (∀ s2, objs s2 = objs s → quiet s2 →
     heap s2 !! fresh_addr (heap s) =
       Some ((Some <$> l) ++ replicate (N.to_nat nc - length l) None) →
     extra (Some (fresh_addr (heap s))) (size_ v) s2 =
       Ok () (with_heap s2 (<[fresh_addr (heap s) := newblock]> (heap s2)))) →
  regrow this nc extra s =
  Ok () (mkState (<[this := mkVector (size_ v) nc (Some (fresh_addr (heap s)))]> (objs s))
           (<[fresh_addr (heap s) := newblock]>
              (match data_ v with Some d => delete d (heap s) | None => heap s end))
           [] [] (indeterminate s)).
Proof.
  intros Hv (Hsz & Hle & Hmul & Hd) [Hcf Haf] Hnc Hfit Hbytes Hextra.
  pose proof sizeof_pos as Hpos.
  pose proof (fresh_addr_fresh (heap s)) as Hfresh.
  set (a := fresh_addr (heap s)) in *.
  set (raw := replicate (N.to_nat nc) (@None T)).
  set (s1 := mkState (objs s) (<[a := raw]> (heap s)) [] [] (indeterminate s)).
  assert (Allocate nc s = Ok (Some a) s1) as Halloc.
  { apply Allocate_Ok. right. rewrite Haf. split_and!; try done.
    subst s1 raw. rewrite Hcf. simpl. do 3 f_equal.
    unfold SizeT.mul. rewrite SizeT.wrap_small by done.
    rewrite N.div_mul by lia. done. }
  unfold regrow. rewrite (bind_run_Ok _ _ _ _ _ Halloc).
  rewrite (bind_run_Ok _ _ _ _ _ (get_data_run this s1 v Hv)).
  rewrite (bind_run_Ok _ _ _ _ _ (get_size_run this s1 v Hv)).
  destruct (data_ v) as [d|] eqn:Ed.
  - destruct Hd as [Hcpos Hb].
    assert (d ≠ a) as Hda by congruence.
    set (rest := replicate (N.to_nat (capacity_ v) - length l) (@None T)) in *.
    set (s2 := with_heap s1
                 (<[a := (Some <$> l) ++ drop (length l) raw]>
                    (<[d := (Some ∘ moved_from <$> l) ++ rest]> (heap s1)))).
    assert (uninitialized_move (Some d) (size_ v) (Some a) s1 = Ok () s2) as Hmove.
    { unfold uninitialized_move. rewrite Hsz, Nat2N.id.
      apply (move_loop_run d a l 0 s1 [] rest [] raw); try done.
      - simpl. by rewrite lookup_insert_ne.
      - simpl. by rewrite lookup_insert_eq.
      - subst raw. rewrite length_replicate. lia. }
    assert (heap s2 !! a =
            Some ((Some <$> l) ++ replicate (N.to_nat nc - length l) None)) as Hb2.
    { subst s2 raw. simpl. rewrite lookup_insert_eq. by rewrite drop_replicate. }
    pose proof (Hextra s2 eq_refl ltac:(done) Hb2) as He.
    set (s3 := with_heap s2 (<[a := newblock]> (heap s2))) in *.
    rewrite (bind_run_Ok _ _ _ () s3); cycle 1.
    { apply on_throw_Ok. by rewrite (bind_run_Ok _ _ _ _ _ Hmove). }
    assert (heap s3 !! d = Some ([] ++ (Some <$> (moved_from <$> l)) ++ rest)) as Hb3.
    { subst s3 s2. simpl. rewrite lookup_insert_ne by done.
      rewrite lookup_insert_ne by done. rewrite lookup_insert_eq.
      by rewrite <- list_fmap_compose. }
    unfold destroy. rewrite decide_True by lia.
    replace (N.to_nat (size_ v - 0)) with (length (moved_from <$> l))
      by (rewrite length_fmap; lia).
    rewrite (bind_run_Ok _ _ _ _ _ (destroy_n_run d 0 [] _ rest s3 Hb3 eq_refl)).
    unfold Deallocate, operator_delete.
    erewrite bind_run_Ok; [|simpl; rewrite lookup_insert_eq; reflexivity].
    unfold with_heap; cbn [objs heap ctor_faults alloc_faults].
    run_step.
    erewrite set_capacity_run by (simpl; simplify_map_eq; reflexivity).
    unfold with_objs. simpl. f_equal. f_equal.
    + by rewrite insert_insert_eq.
    + apply map_eq. intros k.
      destruct (decide (k = a)) as [Eka|Hka]; destruct (decide (k = d)) as [Ekd|Hkd];
        subst; simplify_map_eq; done.
  - assert (l = []) as -> by (destruct l; [done|simpl in *; lia]).
    simpl in Hsz.
    assert (heap s1 !! a =
            Some ((Some <$> []) ++ replicate (N.to_nat nc - length (@nil T)) None)) as Hb2.
    { subst s1 raw. simpl. rewrite lookup_insert_eq. by rewrite Nat.sub_0_r. }
    pose proof (Hextra s1 eq_refl ltac:(done) Hb2) as He.
    set (s3 := with_heap s1 (<[a := newblock]> (heap s1))) in *.
    rewrite (bind_run_Ok _ _ _ () s3); cycle 1.
    { apply on_throw_Ok. unfold uninitialized_move. rewrite Hsz in *.
      by rewrite (bind_run_Ok _ _ _ () s1) by reflexivity. }
    unfold destroy. rewrite decide_True by lia. rewrite Hsz. simpl.
    erewrite bind_run_Ok by reflexivity.
    erewrite bind_run_Ok by reflexivity.
    run_step.
    erewrite set_capacity_run by (simpl; simplify_map_eq; reflexivity).
    unfold with_objs. simpl. f_equal. f_equal.
    + by rewrite insert_insert_eq, Hsz.
    + by rewrite insert_insert_eq.
Qed.


Lemma placement_new_run a n init x s b :
  heap s !! a = Some b → (N.to_nat n < length b)%nat → init s = Ok x s →
  placement_new (Some a) n init s =
  Ok () (with_heap s (<[a := <[N.to_nat n := Some x]> b]> (heap s))).
Proof.
  intros Hb Hlt Hi. apply placement_new_Ok. exists b, x, s. split_and!; try done.
  apply write_slot_Ok. by exists b.
Qed.

Lemma insert_raw_tail (l : list T) m x :
  (0 < m)%nat →
  <[length l := Some x]> ((Some <$> l) ++ replicate m None) =
  (Some <$> (l ++ [x])) ++ replicate (m - 1) None.
Proof.
  intros Hm. destruct m as [|m]; [lia|].
  replace (length l) with (length (Some <$> l) + 0)%nat at 1
    by (rewrite length_fmap; lia).
  rewrite insert_app_r. simpl. rewrite Nat.sub_0_r.
  by rewrite fmap_app, <- app_assoc.
Qed.

(** A tail insertion whose constructor call returns [x] when no failure
    is scheduled. *)
Lemma push_with_run this init x s v l :
  objs s !! this = Some v → stored s v l → quiet s →
  (size_ v = capacity_ v → 2 * capacity_ v * sizeof < SizeT.modulus) →
  (∀ s0, ctor_faults s0 = [] → init s0 = Ok x s0) →
  ∃ s' v', push_with this init s = Ok () s' ∧
    objs s' !! this = Some v' ∧ stored s' v' (l ++ [x]) ∧ quiet s'.
Proof.
  intros Hv Hst Hq Hdouble Hinit.
  pose proof Hst as (Hsz & Hle & Hmul & Hd).
  pose proof Hq as [Hcf Haf].
  pose proof sizeof_pos as Hpos. pose proof sizeof_size_t as Hsizeof.
  unfold push_with.
  rewrite (bind_run_Ok _ _ _ _ _ (get_size_run this s v Hv)).
  rewrite (bind_run_Ok _ _ _ _ _ (get_capacity_run this s v Hv)).
  destruct (N.eqb_spec (size_ v) (capacity_ v)) as [Hfull|Hspare].
  - specialize (Hdouble Hfull).
    set (nc := if capacity_ v =? 0 then 1 else SizeT.mul (capacity_ v) 2).
    assert (nc = N.max 1 (2 * capacity_ v)) as Hnc.
    { subst nc. destruct (N.eqb_spec (capacity_ v) 0) as [->|Hc0]; [done|].
      unfold SizeT.mul. rewrite SizeT.wrap_small by nia. lia. }
    assert (nc * sizeof < SizeT.modulus) as Hbytes.
    { rewrite Hnc. destruct (decide (capacity_ v = 0)) as [->|]; [simpl; lia|].
      rewrite N.max_r by lia. lia. }
    set (a := fresh_addr (heap s)).
    set (newblock := (Some <$> (l ++ [x])) ++
                     replicate (N.to_nat nc - length l - 1) (@None T)).
    assert (∀ s2, objs s2 = objs s → quiet s2 →
              heap s2 !! a =
                Some ((Some <$> l) ++ replicate (N.to_nat nc - length l) None) →
              placement_new (Some a) (size_ v) init s2 =
                Ok () (with_heap s2 (<[a := newblock]> (heap s2)))) as Hextra.
    { intros s2 Ho2 [Hcf2 _] Hb2.
      rewrite (placement_new_run _ _ _ x _ _ Hb2).
      - by rewrite Hsz, Nat2N.id, insert_raw_tail by lia.
      - rewrite length_app, length_fmap, length_replicate. lia.
      - by apply Hinit. }
    rewrite (bind_run_Ok _ _ _ _ _
               (regrow_run this nc (λ new_data n, placement_new new_data n init)
                  s v l newblock Hv Hst Hq ltac:(lia) ltac:(lia) Hbytes Hextra)).
    run_step.
    erewrite set_size_run by (simpl; simplify_map_eq; reflexivity).
    eexists _, (mkVector (SizeT.add (size_ v) 1) nc (Some a)).
    split; [reflexivity|]. unfold with_objs. simpl.
    rewrite SizeT.add_small by nia.
    split_and!.
    + by rewrite lookup_insert_eq.
    + unfold stored. simpl. rewrite length_app. simpl. split_and!; try lia.
      subst newblock. rewrite lookup_insert_eq. do 3 f_equal. lia.
    + done.
  - destruct (data_ v) as [d|] eqn:Ed; [|lia].
    destruct Hd as [Hcpos Hb].
    rewrite (bind_run_Ok _ _ _ ()
               (with_heap s (<[d := <[N.to_nat (size_ v) := Some x]>
                                      ((Some <$> l) ++
                                       replicate (N.to_nat (capacity_ v) - length l) None)]>
                               (heap s)))); cycle 1.
    { rewrite (bind_run_Ok _ _ _ _ _ (get_data_run this s v Hv)). rewrite Ed.
      apply (placement_new_run d (size_ v) init x s _ Hb).
      - rewrite length_app, length_fmap, length_replicate. lia.
      - by apply Hinit. }
    run_step.
    erewrite set_size_run by (simpl; simplify_map_eq; reflexivity).
    eexists _, (mkVector (SizeT.add (size_ v) 1) (capacity_ v) (Some d)).
    split; [by rewrite Ed|]. unfold with_objs, with_heap. simpl.
    rewrite SizeT.add_small by nia.
    split_and!.
    + by rewrite lookup_insert_eq.
    + unfold stored. simpl. rewrite length_app. simpl. split_and!; try lia.
      rewrite lookup_insert_eq, Hsz, Nat2N.id, insert_raw_tail by lia.
      do 3 f_equal. lia.
    + done.
Qed.

(** X24.  On a vector whose storage is as its members describe it, with
    no failure scheduled and a doubled capacity that still fits [size_t]
    bytes, a tail insertion always returns (it neither throws nor runs
    into undefined behaviour), for [EmplaceBack] from values, from a copy
    or from a move of an object of the caller, and for [PushBack] by copy
    or by move of an object of the caller alike, and it leaves a vector of
    the same kind with the new element at the end. *)
Theorem tail_insertion_returns this x s v l :
  objs s !! this = Some v → stored s v l → quiet s →
  (size_ v = capacity_ v → 2 * capacity_ v * sizeof < SizeT.modulus) →
  ∃ s' v',
    EmplaceBack this (FromValues x) s = Ok () s' ∧
    EmplaceBack this (FromCopy (Ext x)) s = Ok () s' ∧
    EmplaceBack this (FromMove (Ext x)) s = Ok () s' ∧
    PushBack this (Ext x) s = Ok () s' ∧
    PushBack_move this (Ext x) s = Ok () s' ∧
    objs s' !! this = Some v' ∧ stored s' v' (l ++ [x]) ∧ quiet s'.
Proof.
  intros Hv Hst Hq Hdouble.
  assert (∀ s0 : State T, ctor_faults s0 = [] → ctor_may_throw s0 = Ok () s0) as Hc.
  { intros s0 E. unfold ctor_may_throw. rewrite E. destruct s0; simpl in *. by subst. }
  assert (∀ s0 : State T, ctor_faults s0 = [] → (ctor_may_throw ;; ret x) s0 = Ok x s0)
    as Hemplace.
  { intros s0 E. by rewrite (bind_run_Ok _ _ _ _ _ (Hc s0 E)). }
  destruct (push_with_run this _ x s v l Hv Hst Hq Hdouble Hemplace)
    as (s' & v' & Hr & Hv' & Hst' & Hq').
  exists s', v'. split_and!; try done.
Qed.

(** X25.  On such a vector a [Reserve(n)] with [n * sizeof(T)] a
    [size_t] value always returns, keeps the elements, and leaves
    [capacity_ = max(capacity_, n)] with a block of exactly that many
    slots. *)
Theorem Reserve_returns this n s v l :
  objs s !! this = Some v → stored s v l → quiet s →
  n * sizeof < SizeT.modulus →
  ∃ s' v', Reserve this n s = Ok () s' ∧
    objs s' !! this = Some v' ∧ stored s' v' l ∧ quiet s' ∧
    capacity_ v' = N.max (capacity_ v) n.
Proof.
  intros Hv Hst Hq Hbytes.
  pose proof Hst as (Hsz & Hle & Hmul & Hd).
  unfold Reserve.
  rewrite (bind_run_Ok _ _ _ _ _ (get_capacity_run this s v Hv)).
  destruct (N.ltb_spec (capacity_ v) n) as [Hlt|Hge]; cbv iota.
  - set (newblock := (Some <$> l) ++ replicate (N.to_nat n - length l) (@None T)).
    assert (∀ s2, objs s2 = objs s → quiet s2 →
              heap s2 !! fresh_addr (heap s) =
                Some ((Some <$> l) ++ replicate (N.to_nat n - length l) None) →
              ret () s2 =
                Ok () (with_heap s2 (<[fresh_addr (heap s) := newblock]> (heap s2))))
      as Hextra.
    { intros s2 Ho2 Hq2 Hb2. unfold with_heap.
      rewrite insert_id by exact Hb2. by destruct s2. }
    eexists _, (mkVector (size_ v) n (Some (fresh_addr (heap s)))).
    split; [exact (regrow_run this n (λ _ _, ret ()) s v l newblock Hv Hst Hq
                     ltac:(lia) ltac:(lia) Hbytes Hextra)|].
    simpl. split_and!.
    + by rewrite lookup_insert_eq.
    + unfold stored. simpl. split_and!; try lia. by rewrite lookup_insert_eq.
    + done.
    + lia.
  - exists s, v. split_and!; try done. lia.
Qed.


Lemma push_back_all_run this ps s v l :
  objs s !! this = Some v → stored s v l → quiet s →
  2 * N.of_nat (length l + length ps) * sizeof < SizeT.modulus →
  ∃ s' v', push_back_all this ps s = Ok () s' ∧
    objs s' !! this = Some v' ∧ stored s' v' (l ++ (pushed <$> ps)) ∧ quiet s'.
Proof.
  revert s v l. induction ps as [|p ps IH]; intros s v l Hv Hst Hq Hbytes; simpl.
  - exists s, v. by rewrite app_nil_r.
  - assert (∀ s0 : State T, ctor_faults s0 = [] →
              (ctor_may_throw ;; ret (pushed p)) s0 = Ok (pushed p) s0) as Hinit.
    { intros s0 E.
      assert (ctor_may_throw s0 = Ok () s0) as Hc.
      { unfold ctor_may_throw. rewrite E. destruct s0; simpl in *. by subst. }
      by rewrite (bind_run_Ok _ _ _ _ _ Hc). }
    pose proof Hst as (Hsz & Hle & _).
    destruct (push_with_run this _ (pushed p) s v l Hv Hst Hq
                ltac:(intros Hfull; simpl in Hbytes; nia) Hinit)
      as (s1 & v1 & Hr1 & Hv1 & Hst1 & Hq1).
    destruct (IH s1 v1 (l ++ [pushed p]) Hv1 Hst1 Hq1) as (s' & v' & Hr & Hv' & Hst' & Hq').
    { rewrite length_app. simpl in *. by replace (length l + 1 + length ps)%nat
        with (length l + S (length ps))%nat by lia. }
    exists s', v'. rewrite <- app_assoc in Hst'. split_and!; try done.
    assert (push_back this p s = Ok () s1) as Hp by (by destruct p).
    by rewrite (bind_run_Ok _ _ _ _ _ Hp).
Qed.

(** X26.  With no failure scheduled, a default construction followed by
    any sequence of [PushBack] calls (by copy or by move of objects of the
    caller) whose doubled length still fits [size_t] bytes always returns:
    the vector then holds exactly the pushed values, in order, in storage
    as its members describe it. *)
Theorem pushes_return this ps s :
  quiet s → 2 * N.of_nat (length ps) * sizeof < SizeT.modulus →
  ∃ s' v', (Vector_default this ;; push_back_all this ps) s = Ok () s' ∧
    objs s' !! this = Some v' ∧ stored s' v' (pushed <$> ps) ∧ quiet s' ∧
    size_ v' = N.of_nat (length ps).
Proof.
  intros Hq Hbytes. pose proof sizeof_pos.
  unfold Vector_default. rewrite (bind_run_Ok _ _ _ _ _ (put_obj_run this _ s)).
  destruct (push_back_all_run this ps
              (with_objs s (<[this := mkVector 0 0 None]> (objs s)))
              (mkVector 0 0 None) [])
    as (s' & v' & Hr & Hv' & Hst' & Hq').
  - simpl. by rewrite lookup_insert_eq.
  - unfold stored. simpl. by split_and!.
  - done.
  - done.
  - exists s', v'. split_and!; try done.
    destruct Hst' as (Hsz & _). rewrite Hsz. simpl. by rewrite length_fmap.
Qed.

End Progress.

(** ** A tail insertion that throws *)

Section Unwinding.

Context {T : Type} `{Element T}.

Implicit Types s : State T.

(** A constructor call that has not touched the heap when it throws. *)
Definition throws_clean (init : M (T:=T) T) : Prop :=
  ∀ s e s', init s = Throw e s' → heap s' = heap s.

Lemma throws_clean_copy_ctor r : throws_clean (copy_ctor r).
Proof.
  intros s e s' Hr. pose proof (heap_pure_copy_ctor r s) as Hp. by rewrite Hr in Hp.
Qed.

Lemma throws_clean_move_ctor r : throws_clean (move_ctor r).
Proof.
  intros s e s' Hr. unfold move_ctor in Hr.
  apply bind_Throw in Hr as [Hr|(x & s1 & Hx & Hr)].
  - destruct r as [y|p i]; simpl in Hr; [inv_m|by apply load_Throw in Hr].
  - assert (s1 = s) as ->.
    { destruct r as [y|p i]; simpl in Hx; [by inv_m|by apply load_Ok in Hx as [_ ->]]. }
    apply bind_Throw in Hr as [Hr|([] & s2 & Hc & Hr)].
    + by apply ctor_may_throw_Throw in Hr as (_ & _ & ->).
    + apply bind_Throw in Hr as [Hr|(? & ? & _ & Hr)]; [|inv_m].
      destruct r as [y|p i]; [inv_m|by apply write_slot_Throw in Hr].
Qed.

Lemma throws_clean_emplace (x : T) : throws_clean (ctor_may_throw ;; ret x).
Proof.
  intros s e s' Hr. apply bind_Throw in Hr as [Hr|(? & ? & _ & Hr)]; [|inv_m].
  by apply ctor_may_throw_Throw in Hr as (_ & _ & ->).
Qed.

Lemma throws_clean_construct args : throws_clean (construct args).
Proof.
  destruct args; simpl;
    [apply throws_clean_emplace|apply throws_clean_copy_ctor
    |apply throws_clean_move_ctor].
Qed.

Lemma placement_new_Throw_block p i init s e s' a :
  (∀ s0 e0 s1, init s0 = Throw e0 s1 → heap s1 !! a = heap s0 !! a) →
  placement_new p i init s = Throw e s' → heap s' !! a = heap s !! a.
Proof.
  intros Hi Hp. unfold placement_new in Hp.
  apply bind_Throw in Hp as [Hp|([] & s1 & Hc & Hp)].
  - unfold check_storage in Hp. by destruct (slot_at _ _ _).
  - apply check_storage_Ok in Hc as [_ ->].
    apply bind_Throw in Hp as [Hp|(x & s2 & _ & Hp)].
    + by eapply Hi.
    + by apply write_slot_Throw in Hp.
Qed.

(** A constructing loop that throws leaves the destination block raw. *)
Lemma loop_Throw_raw init a todo k s e s' done m :
  (∀ i s0 y s1, init i s0 = Ok y s1 → heap s1 !! a = heap s0 !! a) →
  (∀ i s0 e0 s1, init i s0 = Throw e0 s1 → heap s1 !! a = heap s0 !! a) →
  heap s !! a = Some ((Some <$> done) ++ replicate m None) →
  length done = k →
  uninitialized_loop init (Some a) 0 k todo s = Throw e s' →
  heap s' !! a = Some (replicate (k + m) None).
Proof.
  intros Hok Hthrow. revert k s done m.
  induction todo as [|todo IH]; intros k s done m Hb Hk Hr; simpl in Hr; [inv_m|].
  apply bind_Throw in Hr as [Hr|([] & s1 & Hp%on_throw_Ok & Hr)].
  - apply on_throw_Throw in Hr as (e0 & s1 & Hp & Hc).
    eapply placement_new_Throw_block in Hp; [|by apply Hthrow].
    rewrite <- Hk in Hc.
    rewrite (destroy_n_run a 0 [] done (replicate m None) s1) in Hc
      by (by rewrite ?Hp).
    destruct Hc as [[[= <-] _]|[=]]. simpl. rewrite lookup_insert_eq.
    by rewrite replicate_add, Hk.
  - apply placement_new_Ok in Hp as (b & y & s0 & Hb' & Hlt & Hy & Hw).
    apply Hok in Hy.
    apply write_slot_Ok in Hw as (b1 & Hb1 & _ & ->).
    rewrite Hy in Hb1. simplify_eq.
    rewrite length_app, length_fmap, length_replicate in Hlt.
    destruct m as [|m]; [lia|].
    replace (N.to_nat (0 + N.of_nat (length done)))
      with (length (Some <$> done) + 0)%nat in * by (rewrite length_fmap; lia).
    rewrite insert_app_r in Hr. simpl in Hr.
    eapply (IH (S (length done)) _ (done ++ [y]) m) in Hr.
    + rewrite Hr. by replace (length done + S m)%nat with (S (length done) + m)%nat by lia.
    + simpl. rewrite lookup_insert_eq, fmap_app, <- app_assoc. done.
    + rewrite length_app. simpl. lia.
Qed.

Lemma move_ctor_Slot_frame src i a s y s' :
  src ≠ Some a → move_ctor (Slot src i) s = Ok y s' → heap s' !! a = heap s !! a.
Proof.
  intros Hne Hr. destruct src as [d|].
  - apply move_ctor_Slot_Ok in Hr as (b & _ & _ & ->). simpl.
    apply lookup_insert_ne. congruence.
  - unfold move_ctor in Hr. simpl in Hr.
    apply bind_Ok in Hr as (? & ? & Hl & _). by apply load_Ok in Hl as [Hl _].
Qed.


Lemma placement_new_Throw_heap p i init s e s' :
  throws_clean init → placement_new p i init s = Throw e s' → heap s' = heap s.
Proof.
  intros Hclean Hp. apply map_eq. intros a.
  eapply placement_new_Throw_block; [|exact Hp].
  intros s0 e0 s1 Hi. by rewrite (Hclean _ _ _ Hi).
Qed.

(** The handler of a growth whose transfer has thrown destroys raw slots. *)
Lemma destroy_raw a n s u s' slots :
  heap s !! a = Some (replicate slots None) → 0 < n →
  destroy (Some a) 0 n s = Ok u s' → False.
Proof.
  intros Hraw Hn Hd. unfold destroy in Hd. rewrite decide_True in Hd by lia.
  destruct (N.to_nat (n - 0)) as [|n'] eqn:En; [lia|]. simpl in Hd.
  apply bind_Ok in Hd as (? & ? & Hat & _). unfold destroy_at in Hat.
  apply bind_Ok in Hat as (? & ? & Hload & _).
  apply load_Ok in Hload as [Hslot _].
  apply slot_at_Some in Hslot as (b & Hb & Hx).
  rewrite Hraw in Hb. injection Hb as <-.
  by apply lookup_replicate in Hx as [[=] _].
Qed.

(** A growth whose new element cannot be constructed. *)
Lemma regrow_push_Throw this nc init s v l e s' :
  objs s !! this = Some v → elements s v = Some l →
  throws_clean init → keeps_shape init →
  regrow this nc (λ new_data n, placement_new new_data n init) s = Throw e s' →
  objs s' = objs s ∧
  (∀ a, data_ v ≠ Some a → heap s' !! a = heap s !! a) ∧
  (elements s' v = Some l ∨ elements s' v = Some (moved_from <$> l)).
Proof.
  intros Hv Hl Hclean Hshape Hr.
  assert (objs s' = objs s) as Hobjs
    by (eapply regrow_Throw; [|exact Hr]; intros; simpl;
        by apply keeps_shape_placement_new).
  split; [done|].
  pose proof Hl as [Hsz Hd]%elements_Some.
  unfold regrow in Hr.
  apply bind_Throw in Hr as [Ha|(p & s1 & Ha & Hr)].
  { apply Allocate_Throw in Ha as (_ & _ & _ & ->). simpl. split; [done|].
    left. rewrite <- Hl. by apply elements_heap_eq. }
  pose proof (Allocate_objs _ _ _ _ Ha) as Ho1.
  rewrite (bind_run_Ok _ _ _ _ _ (get_data_run this s1 v ltac:(by rewrite Ho1))) in Hr.
  rewrite (bind_run_Ok _ _ _ _ _ (get_size_run this s1 v ltac:(by rewrite Ho1))) in Hr.
  apply bind_Throw in Hr as [Hr|([] & s2 & _ & Hr)]; cycle 1.
  { apply bind_Throw in Hr as [Hr%destroy_Throw|(? & ? & _ & Hr)]; [done|]. inv_m. }
  apply on_throw_Throw in Hr as (e0 & s2 & Hb & [[Hc ->]|Hc]); cycle 1.
  { apply bind_Throw in Hc as [Hc%destroy_Throw|(? & ? & _ & Hc)]; [done|]. inv_m. }
  apply bind_Ok in Hc as ([] & s3 & Hdes & Hfree).
  apply bind_Throw in Hb as [Hm|([] & s2' & Hm & Hp)].
  - (* the transfer has thrown *)
    exfalso. destruct p as [a|]; [|by apply uninitialized_loop_None_Throw in Hm].
    apply Allocate_Ok in Ha as [(_ & [=] & _)|(Hnc & _ & [= ->] & ->)].
    pose proof (fresh_addr_fresh (heap s)) as Hfresh.
    unfold uninitialized_move in Hm. rewrite Hsz, Nat2N.id in Hm.
    destruct l as [|x l]; [simpl in Hm; inv_m|].
    destruct (data_ v) as [d|] eqn:Ed; [|done].
    destruct Hd as [rest Hblock].
    eapply (loop_Throw_raw _ (fresh_addr (heap s)) _ 0 _ _ _ []) in Hm.
    + eapply destroy_raw; [exact Hm| |exact Hdes]. rewrite Hsz. simpl. lia.
    + intros i s0 y s4 Hy. eapply move_ctor_Slot_frame; [|exact Hy]. congruence.
    + intros i s0 e1 s4 Hy. by rewrite (throws_clean_move_ctor _ _ _ _ Hy).
    + simpl. by rewrite lookup_insert_eq.
    + done.
  - (* the construction of the new element has thrown *)
    pose proof (placement_new_Throw_heap _ _ _ _ _ _ Hclean Hp) as Hh2.
    destruct p as [a|]; cycle 1.
    { unfold placement_new in Hp.
      apply bind_Throw in Hp as [Hp|(? & ? & Hcs & _)]; [done|].
      by apply check_storage_Ok in Hcs as [[? ?] _]. }
    apply Allocate_Ok in Ha as [(_ & [=] & _)|(Hnc & _ & [= ->] & ->)].
    pose proof (fresh_addr_fresh (heap s)) as Hfresh.
    set (a := fresh_addr (heap s)) in *.
    unfold uninitialized_move in Hm. rewrite Hsz, Nat2N.id in Hm.
    apply Deallocate_Ok in Hfree as [_ ->].
    destruct (data_ v) as [d|] eqn:Ed.
    + destruct Hd as [rest Hblock].
      assert (d ≠ a) as Hda by congruence.
      eapply (move_loop_Ok d a l 0 _ _ [] rest []) in Hm as [_ Hh]; try done;
        [|simpl; by rewrite lookup_insert_ne|simpl; by rewrite lookup_insert_eq].
      simpl in Hh. rewrite insert_insert_ne, insert_insert_eq in Hh by done.
      unfold destroy in Hdes. rewrite decide_True in Hdes by lia.
      replace (N.to_nat (size_ v - 0)) with (length l) in Hdes by lia.
      erewrite (destroy_n_run a 0 [] l) in Hdes; cycle 1.
      { rewrite Hh2, Hh. simpl. rewrite lookup_insert_ne by done.
        rewrite lookup_insert_eq. reflexivity. }
      { done. }
      injection Hdes as <-. simpl. rewrite Hh2, Hh. split.
      * intros k Hk. destruct (decide (k = a)) as [->|Hka].
        -- by rewrite lookup_delete_eq.
        -- rewrite lookup_delete_ne by done.
           rewrite (lookup_insert_ne _ a k) by done.
           rewrite (lookup_insert_ne _ d k) by congruence.
           by rewrite (lookup_insert_ne _ a k) by done.
      * right. apply elements_Some. rewrite Ed. split; [by rewrite length_fmap|].
        exists rest. simpl. rewrite lookup_delete_ne by done.
        rewrite (lookup_insert_ne _ a d) by done. rewrite lookup_insert_eq.
        by rewrite list_fmap_compose.
    + subst l. simpl in *. inv_m.
      unfold destroy in Hdes. rewrite decide_True in Hdes by lia.
      rewrite Hsz in Hdes. simpl in Hdes. inv_m.
      assert (∀ k, delete a (heap s3) !! k = heap s !! k) as Hheap.
      { intros k. rewrite Hh2. simpl. destruct (decide (k = a)) as [->|Hka].
        - by rewrite lookup_delete_eq.
        - rewrite lookup_delete_ne by done. by rewrite lookup_insert_ne. }
      split; [intros k _; apply Hheap|].
      left. apply elements_Some. by rewrite Ed.
Qed.


Lemma push_with_Throw this init s v l e s' :
  objs s !! this = Some v → elements s v = Some l →
  throws_clean init → keeps_shape init →
  push_with this init s = Throw e s' →
  objs s' = objs s ∧
  (∀ a, data_ v ≠ Some a → heap s' !! a = heap s !! a) ∧
  (elements s' v = Some l ∨ elements s' v = Some (moved_from <$> l)).
Proof.
  intros Hv Hl Hclean Hshape Hr. unfold push_with in Hr.
  rewrite (bind_run_Ok _ _ _ _ _ (get_size_run this s v Hv)) in Hr.
  rewrite (bind_run_Ok _ _ _ _ _ (get_capacity_run this s v Hv)) in Hr.
  apply bind_Throw in Hr as [Hr|([] & s1 & _ & Hr)]; [|inv_m].
  destruct (size_ v =? capacity_ v).
  - by eapply regrow_push_Throw.
  - rewrite (bind_run_Ok _ _ _ _ _ (get_data_run this s v Hv)) in Hr.
    pose proof (placement_new_Throw_heap _ _ _ _ _ _ Hclean Hr) as Hh.
    pose proof (run_Throw_objs _ _ _ _
                  (keeps_shape_placement_new _ _ _ Hshape) Hr) as Ho.
    split_and!; [done|by intros; rewrite Hh|].
    left. rewrite <- Hl. apply elements_heap_eq. intros. by rewrite Hh.
Qed.

(** X27.  A tail insertion that throws keeps the members of the vector
    and every other block, and releases the block it had allocated: the
    object table is as before the call, no block but the vector's own has
    changed, and the vector holds as many elements as before, either the
    old ones or, when the failure came after the transfer into a new block,
    their moved-from states. *)
Theorem failed_insertion_keeps_members this s v l e s' :
  objs s !! this = Some v → elements s v = Some l →
  (∃ r, PushBack this r s = Throw e s') ∨
  (∃ r, PushBack_move this r s = Throw e s') ∨
  (∃ args, EmplaceBack this args s = Throw e s') →
  objs s' = objs s ∧
  (∀ a, data_ v ≠ Some a → heap s' !! a = heap s !! a) ∧
  (elements s' v = Some l ∨ elements s' v = Some (moved_from <$> l)).
Proof.
  intros Hv Hl [[r Hr]|[[r Hr]|[args Hr]]].
  - eapply push_with_Throw; [done|done| | |exact Hr].
    + apply throws_clean_copy_ctor.
    + apply keeps_shape_copy_ctor.
  - eapply push_with_Throw; [done|done| | |exact Hr].
    + apply throws_clean_move_ctor.
    + apply keeps_shape_move_ctor.
  - eapply push_with_Throw; [done|done| | |exact Hr].
    + apply throws_clean_construct.
    + apply keeps_shape_construct.
Qed.

End Unwinding.

(** ** Element types and runs *)

(** [int]: trivially default constructible, so default-initialisation
    writes nothing ([int()] is 0); trivially copyable, so a move is a copy
    and leaves the source as it is. *)
#[global] Instance Element_int : Element Z := {|
  default_value := 0%Z;
  trivial_default := true;
  moved_from := id;
  elem_eqb := Z.eqb;
  elem_ltb := Z.ltb;
  sizeof := 4;
  sizeof_pos := eq_refl;
  sizeof_size_t := eq_refl;
|}.

Fixpoint ints_ltb (l1 l2 : list Z) : bool :=
  match l1, l2 with
  | x :: l1', y :: l2' => (x <? y)%Z || ((x =? y)%Z && ints_ltb l1' l2')
  | [], _ :: _ => true
  | _, [] => false
  end.

(** [std::vector<int>] as an element: an object that owns a resource.
    Its move constructor leaves the source empty, its copy constructor
    allocates and may throw. *)
#[global] Instance Element_int_vector : Element (list Z) := {|
  default_value := [];
  trivial_default := false;
  moved_from := λ _, [];
  elem_eqb := λ l1 l2, bool_decide (l1 = l2);
  elem_ltb := ints_ltb;
  sizeof := 24;
  sizeof_pos := eq_refl;
  sizeof_size_t := eq_refl;
|}.

(** What a default-initialised [int] happens to hold; the values are
    arbitrary. *)
Definition leftover (n : nat) : Z := (-858993460)%Z.

Definition no_objects : State Z := mkState ∅ ∅ [] [] leftover.

(** The scenario of the specification: push 1, 2, 3; pop; [Resize(5, 9)];
    [At(10)] is out of range; [ShrinkToFit]. *)
Definition scenario : M (T:=Z) (list N) :=
  Vector_default 1%positive ;;
  PushBack 1%positive (Ext 1%Z) ;;
  PushBack 1%positive (Ext 2%Z) ;;
  PushBack 1%positive (Ext 3%Z) ;;
  n3 ← Size 1%positive;
  PopBack 1%positive ;;
  n2 ← Size 1%positive;
  Resize_value 1%positive 5 (Ext 9%Z) ;;
  on_throw (At 1%positive 10 ;; ret ()) (ret ()) ;;
  ret [n3; n2].

Example scenario_throws_out_of_range :
  ∃ s, scenario no_objects = Throw ArrayOutOfRange s ∧
       objs s !! 1%positive = Some (mkVector 5 5 (Some 4%positive)) ∧
       heap s !! 4%positive = Some (Some <$> [1; 2; 9; 9; 9]%Z).
Proof. eexists. split_and!; by vm_compute. Qed.

(** ** Tail insertion and resizing with a value of the caller *)

Section Values.

Context {T : Type} `{Element T}.

Implicit Types s : State T.

(** C3, as far as the code goes.  A [PushBack] (by copy or by move) of an
    object [x] that is not an element of the vector itself: when it
    returns, the size is one more, the elements are the old ones followed
    by [x], and the capacity is [max(1, 2 * capacity_)] if the vector was
    full and as before if not.  Pushing [N] values of the caller onto a
    vector that starts empty leaves size [N] and exactly these values, in
    order. *)
Theorem PushBack_outside_value :
  (∀ this r x s v l s',
     objs s !! this = Some v → rep_inv v → elements s v = Some l →
     referent s r = Some x → outside r v →
     PushBack this r s = Ok () s' ∨ PushBack_move this r s = Ok () s' →
     ∃ v', objs s' !! this = Some v' ∧
       size_ v' = size_ v + 1 ∧
       elements s' v' = Some (l ++ [x]) ∧
       capacity_ v' =
         (if size_ v =? capacity_ v then N.max 1 (2 * capacity_ v)
          else capacity_ v)) ∧
  (∀ this ps s s',
     (Vector_default this ;; push_back_all this ps) s = Ok () s' →
     ∃ v', objs s' !! this = Some v' ∧
       size_ v' = N.of_nat (length ps) ∧
       elements s' v' = Some (pushed <$> ps)).
Proof.
  split.
  - intros this r x s v l s' Hv Hinv Hl Hx Hout [Hr|Hr].
    + eapply push_with_spec in Hr as (v' & ? & ? & ? & ? & ?);
        [|by apply builds_copy_ctor|apply keeps_shape_copy_ctor|done..].
      by exists v'.
    + eapply push_with_spec in Hr as (v' & ? & ? & ? & ? & ?);
        [|by apply builds_move_ctor|apply keeps_shape_move_ctor|done..].
      by exists v'.
  - intros this ps s s' Hr. unfold Vector_default in Hr. inv_m.
    match goal with Hp : push_back_all _ _ _ = _ |- _ =>
      eapply (push_back_all_spec _ _ _ empty_vector []) in Hp
        as (v' & Hv' & _ & Hsz & Hl);
        [|simpl; apply lookup_insert_eq|apply rep_inv_empty|done] end.
    exists v'. by split_and!.
Qed.

(** C4, as far as the code goes.  A [Resize(n)], or a [Resize(n, value)]
    with a [value] that is not an element of the vector itself, that
    returns leaves [size_ = n]: the first [n] old elements followed by
    default-initialised elements (resp. copies of [value]) up to [n].  The
    default-initialised elements are [default_value] when [T] has a default
    constructor that runs; for a trivially default constructible [T] their
    values are not determined.  Beyond the capacity the capacity becomes
    [n]; within it the block is the old one, with exactly the excess tail
    destroyed or exactly the gap [[size_, n)] constructed. *)
Theorem Resize_outside_value this n s v l :
  objs s !! this = Some v → rep_inv v → elements s v = Some l →
  n < SizeT.modulus →
  (∀ s', Resize this n s = Ok () s' →
     ∃ v' xs, objs s' !! this = Some v' ∧ size_ v' = n ∧
       elements s' v' = Some (take (N.to_nat n) l ++ xs) ∧
       length xs = (N.to_nat n - length l)%nat ∧
       (trivial_default = false →
          xs = replicate (N.to_nat n - length l) default_value) ∧
       (capacity_ v < n → capacity_ v' = n) ∧
       (n ≤ capacity_ v →
          capacity_ v' = capacity_ v ∧ data_ v' = data_ v ∧
          ∀ a rest, data_ v = Some a → heap s !! a = Some ((Some <$> l) ++ rest) →
            heap s' =
              <[a := default_resized_block l rest (N.to_nat n) xs]> (heap s))) ∧
  (∀ r x s', referent s r = Some x → outside r v →
     Resize_value this n r s = Ok () s' →
     ∃ v', objs s' !! this = Some v' ∧ size_ v' = n ∧
       elements s' v' =
         Some (take (N.to_nat n) l ++ replicate (N.to_nat n - length l) x) ∧
       (capacity_ v < n → capacity_ v' = n) ∧
       (n ≤ capacity_ v →
          capacity_ v' = capacity_ v ∧ data_ v' = data_ v ∧
          ∀ a rest, data_ v = Some a → heap s !! a = Some ((Some <$> l) ++ rest) →
            heap s' = <[a := resized_block l rest (N.to_nat n) x]> (heap s))).
Proof.
  intros Hv Hinv Hl Hn. split.
  - intros s'. by apply Resize_spec.
  - intros r x s' Hx Hout. by apply Resize_value_spec.
Qed.

End Values.

(** ** Runs on concrete vectors *)

(** Five [Vector<int>]: [[1, 2]] with two spare slots, [[1, 2, 3]],
    [[1, 3]], the empty vector and [[1]]. *)
Definition ints : State Z :=
  mkState
    (<[1%positive := mkVector 2 4 (Some 1%positive)]>
     (<[2%positive := mkVector 3 3 (Some 2%positive)]>
      (<[3%positive := mkVector 2 2 (Some 3%positive)]>
       (<[4%positive := mkVector 0 0 None]>
        {[5%positive := mkVector 1 1 (Some 5%positive)]}))))
    (<[1%positive := [Some 1; Some 2; None; None]%Z]>
     (<[2%positive := [Some 1; Some 2; Some 3]%Z]>
      (<[3%positive := [Some 1; Some 3]%Z]>
       {[5%positive := [Some 1]%Z]})))
    [] [] leftover.

(** One full [Vector<std::vector<int>>] holding [[1, 2, 3]]. *)
Definition rows : State (list Z) :=
  mkState {[1%positive := mkVector 1 1 (Some 1%positive)]}
          {[1%positive := [Some [1; 2; 3]%Z]]} [] [] (λ _, []).

(** What is left of [rows] when a growth has unwound: the members are the
    same, the element has been moved from. *)
Definition rows_moved_from : State (list Z) :=
  mkState {[1%positive := mkVector 1 1 (Some 1%positive)]}
          {[1%positive := [Some []]]} [] [] (λ _, []).

(** C1, on the code.  The vector [rows] is full and holds [[1, 2, 3]].
    Each growth operation whose construction of the new element fails
    (the transfer of the old element succeeds, the next constructor call
    throws) propagates the failure and leaves [size_], [capacity_] and
    [data_] as they were, but the element is now the moved-from, empty
    object; and when the transfer itself fails the handler destroys slots
    that hold no object, which is undefined behaviour. *)
Theorem growth_failure_loses_elements :
  elements rows (mkVector 1 1 (Some 1%positive)) = Some [[1; 2; 3]%Z] ∧
  objs rows_moved_from = objs rows ∧
  elements rows_moved_from (mkVector 1 1 (Some 1%positive)) = Some [[]] ∧
  PushBack 1%positive (Ext [7%Z]) (with_ctor_faults rows [false; true])
    = Throw ElementFailure rows_moved_from ∧
  PushBack_move 1%positive (Ext [7%Z]) (with_ctor_faults rows [false; true])
    = Throw ElementFailure rows_moved_from ∧
  EmplaceBack 1%positive (FromValues [7%Z]) (with_ctor_faults rows [false; true])
    = Throw ElementFailure rows_moved_from ∧
  Resize 1%positive 2 (with_ctor_faults rows [false; true])
    = Throw ElementFailure rows_moved_from ∧
  Resize_value 1%positive 2 (Ext [7%Z]) (with_ctor_faults rows [false; true])
    = Throw ElementFailure rows_moved_from ∧
  Reserve 1%positive 2 (with_ctor_faults rows [true]) = Undefined ∧
  PushBack 1%positive (Ext [7%Z]) (with_ctor_faults rows [true]) = Undefined.
Proof. split_and!; by vm_compute. Qed.

(** C3 fails when the value pushed is an element of the vector itself:
    [v.PushBack(v[0])] on the full vector [rows] returns, and the new
    element is the moved-from, empty object, not a copy of [[1, 2, 3]]. *)
Lemma PushBack_own_element :
  ∃ s' v',
    referent rows (Slot (Some 1%positive) 0) = Some [1; 2; 3]%Z ∧
    PushBack 1%positive (Slot (Some 1%positive) 0) rows = Ok () s' ∧
    objs s' !! 1%positive = Some v' ∧
    size_ v' = 2 ∧
    elements s' v' = Some [[1; 2; 3]%Z; []] ∧
    elements s' v' ≠ Some ([[1; 2; 3]%Z] ++ [[1; 2; 3]%Z]).
Proof. do 2 eexists. split_and!; by vm_compute. Qed.

(** C4 fails in the same way: [v.Resize(3, v[0])] on [rows] returns with
    size [3], and the two new elements are empty, not copies of
    [[1, 2, 3]]. *)
Lemma Resize_own_element :
  ∃ s' v',
    referent rows (Slot (Some 1%positive) 0) = Some [1; 2; 3]%Z ∧
    Resize_value 1%positive 3 (Slot (Some 1%positive) 0) rows = Ok () s' ∧
    objs s' !! 1%positive = Some v' ∧
    size_ v' = 3 ∧
    elements s' v' = Some [[1; 2; 3]%Z; []; []] ∧
    elements s' v' ≠ Some ([[1; 2; 3]%Z] ++ replicate 2 [1; 2; 3]%Z).
Proof. do 2 eexists. split_and!; by vm_compute. Qed.

Ltac rep_inv_compute :=
  split_and!;
  [by vm_compute|by vm_compute
  |simpl; first [by intros [? [=]]|intros _; by vm_compute]].

(** The five vectors of [ints] satisfy the representation invariant. *)
Lemma all_inv_ints : all_inv ints.
Proof.
  unfold all_inv, ints; simpl.
  repeat (apply map_Forall_insert_2; [rep_inv_compute|]).
  apply map_Forall_empty.
Qed.

(** C8.  For all vectors [a] and [b] with elements [la] and [lb]: [==]
    answers whether they have the same length and equal elements, [<]
    whether [la] comes before [lb] in the lexicographic order, and [!=],
    [>], [<=], [>=] answer [!(a == b)], [b < a], [!(b < a)] and
    [!(a < b)]; no comparison changes the state.  On [Vector<int>]:
    [[1, 2] < [1, 2, 3] < [1, 3]] and [[] < [1]]. *)
Theorem comparison_operators :
  (∀ T (E : Element T) this other (s : State T) a b la lb,
     objs s !! this = Some a → objs s !! other = Some b →
     elements s a = Some la → elements s b = Some lb →
     ∃ eq lt gt : bool,
       op_eq this other s = Ok eq s ∧ (eq = true ↔ same_elements la lb) ∧
       op_lt this other s = Ok lt s ∧ (lt = true ↔ lex_lt la lb) ∧
       op_lt other this s = Ok gt s ∧ (gt = true ↔ lex_lt lb la) ∧
       op_ne this other s = Ok (negb eq) s ∧
       op_gt this other s = Ok gt s ∧
       op_le this other s = Ok (negb gt) s ∧
       op_ge this other s = Ok (negb lt) s) ∧
  (elements ints (mkVector 2 4 (Some 1%positive)) = Some [1; 2]%Z ∧
   elements ints (mkVector 3 3 (Some 2%positive)) = Some [1; 2; 3]%Z ∧
   elements ints (mkVector 2 2 (Some 3%positive)) = Some [1; 3]%Z ∧
   elements ints (mkVector 0 0 None) = Some [] ∧
   elements ints (mkVector 1 1 (Some 5%positive)) = Some [1%Z] ∧
   op_lt 1%positive 2%positive ints = Ok true ints ∧
   op_lt 2%positive 3%positive ints = Ok true ints ∧
   op_lt 4%positive 5%positive ints = Ok true ints).
Proof.
  split.
  - intros T E this other s a b la lb. apply comparison_runs.
  - split_and!; by vm_compute.
Qed.

(** C10.  A [Reserve(n)], [Resize(n)] or [Resize(n, value)] with
    [n > capacity_] that returns leaves [capacity_ = n] exactly; a
    [Reserve(n)] with [n <= capacity_] returns with the whole state as it
    was.  Such calls do return: on [[1, 2]] with capacity 4 each of
    [Reserve(6)], [Resize(6)] and [Resize(6, 9)] returns with capacity 6
    (not 8), and [Resize(3)] on the full [Vector<std::vector<int>>] of
    capacity 1 returns with capacity 3. *)
Theorem growth_capacity_exact :
  (∀ T (E : Element T) this n value (s : State T) v,
     objs s !! this = Some v →
     (capacity_ v < n →
        (∀ s', Reserve this n s = Ok () s' →
               capacity_ <$> objs s' !! this = Some n) ∧
        (∀ s', Resize this n s = Ok () s' →
               capacity_ <$> objs s' !! this = Some n) ∧
        (∀ s', Resize_value this n value s = Ok () s' →
               capacity_ <$> objs s' !! this = Some n)) ∧
     (n ≤ capacity_ v → Reserve this n s = Ok () s)) ∧
  (capacity_ <$> objs ints !! 1%positive = Some 4 ∧
   (∃ s', Reserve 1%positive 6 ints = Ok () s' ∧
          capacity_ <$> objs s' !! 1%positive = Some 6 ∧
          size_ <$> objs s' !! 1%positive = Some 2) ∧
   (∃ s', Resize 1%positive 6 ints = Ok () s' ∧
          capacity_ <$> objs s' !! 1%positive = Some 6 ∧
          size_ <$> objs s' !! 1%positive = Some 6) ∧
   (∃ s', Resize_value 1%positive 6 (Ext 9%Z) ints = Ok () s' ∧
          capacity_ <$> objs s' !! 1%positive = Some 6 ∧
          size_ <$> objs s' !! 1%positive = Some 6) ∧
   (∃ s', Resize 1%positive 3 rows = Ok () s' ∧
          capacity_ <$> objs s' !! 1%positive = Some 3) ∧
   Reserve 1%positive 3 ints = Ok () ints).
Proof.
  split.
  - intros T E this n value s v Hv. split.
    + intros Hlt. split_and!; intros s' Hrun.
      * eapply Reserve_Ok_grow in Hrun as [p ->]; [|done..].
        by rewrite lookup_insert_eq.
      * eapply Resize_Ok_grow in Hrun as [p ->]; [|done..].
        by rewrite lookup_insert_eq.
      * eapply Resize_value_Ok_grow in Hrun as [p ->]; [|done..].
        by rewrite lookup_insert_eq.
    + by apply Reserve_no_growth.
  - split_and!; [by vm_compute|..|by vm_compute];
      eexists; split_and!; by vm_compute.
Qed.

(** ** The theorems at concrete vectors *)

(** [At(5)] on [[1, 2]]. *)
Lemma At_checked_at_ints :
  (At 1%positive 5 ints = Throw ArrayOutOfRange ints ↔ 2 ≤ 5) ∧
  (∀ e s', At 1%positive 5 ints = Throw e s' → e = ArrayOutOfRange ∧ s' = ints) ∧
  (∀ l, elements ints (mkVector 2 4 (Some 1%positive)) = Some l → 5 < 2 →
        ∃ x, l !! N.to_nat 5 = Some x ∧ At 1%positive 5 ints = Ok x ints).
Proof.
  apply (At_checked 1%positive 5 ints (mkVector 2 4 (Some 1%positive))).
  reflexivity.
Defined.

(** [Reserve(6)], [Resize(6)] and [Resize(6, 9)] on [[1, 2]] with capacity
    4, and [Reserve(3)] on it. *)
Lemma growth_capacity_exact_at_ints :
  (∃ s', Reserve 1%positive 6 ints = Ok () s' ∧
         capacity_ <$> objs s' !! 1%positive = Some 6) ∧
  (∃ s', Resize 1%positive 6 ints = Ok () s' ∧
         capacity_ <$> objs s' !! 1%positive = Some 6) ∧
  (∃ s', Resize_value 1%positive 6 (Ext 9%Z) ints = Ok () s' ∧
         capacity_ <$> objs s' !! 1%positive = Some 6) ∧
  Reserve 1%positive 3 ints = Ok () ints.
Proof.
  pose proof (proj1 growth_capacity_exact Z Element_int 1%positive 6 (Ext 9%Z) ints
                (mkVector 2 4 (Some 1%positive)) eq_refl) as [Hgrow _].
  specialize (Hgrow ltac:(simpl; lia)).
  destruct Hgrow as (Hreserve & Hresize & Hvalue).
  split_and!.
  - eexists. split; [vm_compute; reflexivity|].
    apply Hreserve. vm_compute. reflexivity.
  - eexists. split; [vm_compute; reflexivity|].
    apply Hresize. vm_compute. reflexivity.
  - eexists. split; [vm_compute; reflexivity|].
    apply Hvalue. vm_compute. reflexivity.
  - refine (proj2 (proj1 growth_capacity_exact Z Element_int 1%positive 3 (Ext 9%Z)
                     ints (mkVector 2 4 (Some 1%positive)) eq_refl) _).
    simpl. lia.
Defined.

(** [PushBack(4)] on the full vector [[1, 2, 3]]. *)
Lemma public_members_preserve_rep_inv_at_ints :
  ∃ s', run (CPushBack Z 2%positive (Ext 4%Z)) ints = Ok () s' ∧ all_inv s'.
Proof.
  eexists. split; [vm_compute; reflexivity|].
  apply (public_members_preserve_rep_inv (CPushBack Z 2%positive (Ext 4%Z)) ints).
  - exact I.
  - exact all_inv_ints.
  - left. vm_compute. reflexivity.
Defined.

(** [ShrinkToFit] on [[1, 2]] with capacity 4. *)
Lemma ShrinkToFit_spec_at_ints :
  ∃ s', ShrinkToFit 1%positive ints = Ok () s' ∧
  ∃ v', objs s' !! 1%positive = Some v' ∧
    size_ v' = 2 ∧ capacity_ v' = 2 ∧ elements s' v' = Some [1; 2]%Z ∧
    (2 = 0 →
       v' = empty_vector ∧
       ∀ a, Some 1%positive = Some a → heap s' !! a = None) ∧
    (0 < 2 < 4 →
       ∃ a, data_ v' = Some a ∧ heap ints !! a = None ∧
            heap s' !! a = Some (Some <$> [1; 2]%Z)) ∧
    (2 = 4 → s' = ints).
Proof.
  eexists. split; [vm_compute; reflexivity|].
  apply (ShrinkToFit_spec 1%positive ints (mkVector 2 4 (Some 1%positive)) [1; 2]%Z).
  - reflexivity.
  - rep_inv_compute.
  - reflexivity.
  - vm_compute. reflexivity.
Defined.


(** [[1, 2, 3]] assigned from [[1, 2]]: a run that returns, a run whose
    second element copy throws, and a self-assignment. *)
Lemma copy_assign_spec_at_ints :
  (∃ s', copy_assign 2%positive 1%positive ints = Ok () s' ∧
   ∃ v', objs s' !! 2%positive = Some v' ∧
     size_ v' = 2 ∧ capacity_ v' = 4 ∧
     elements s' v' = Some [1; 2]%Z ∧
     objs s' !! 1%positive = Some (mkVector 2 4 (Some 1%positive)) ∧
     elements s' (mkVector 2 4 (Some 1%positive)) = Some [1; 2]%Z ∧
     (∀ a, data_ v' = Some a → Some 1%positive ≠ Some a)) ∧
  (∃ e s', copy_assign 2%positive 1%positive (with_ctor_faults ints [false; true])
             = Throw e s' ∧
           objs s' = objs ints ∧ heap s' = heap ints) ∧
  copy_assign 1%positive 1%positive ints = Ok () ints.
Proof.
  assert (∀ fs,
    (∀ s', copy_assign 2%positive 1%positive (with_ctor_faults ints fs) = Ok () s' →
       ∃ v', objs s' !! 2%positive = Some v' ∧
         size_ v' = 2 ∧ capacity_ v' = 4 ∧
         elements s' v' = Some [1; 2]%Z ∧
         objs s' !! 1%positive = Some (mkVector 2 4 (Some 1%positive)) ∧
         elements s' (mkVector 2 4 (Some 1%positive)) = Some [1; 2]%Z ∧
         (∀ a, data_ v' = Some a → Some 1%positive ≠ Some a)) ∧
    (∀ e s', copy_assign 2%positive 1%positive (with_ctor_faults ints fs)
               = Throw e s' →
       objs s' = objs ints ∧ heap s' = heap ints) ∧
    copy_assign 1%positive 1%positive (with_ctor_faults ints fs)
      = Ok () (with_ctor_faults ints fs)) as Hspec.
  { intros fs.
    apply (copy_assign_spec 2%positive 1%positive (with_ctor_faults ints fs)
             (mkVector 3 3 (Some 2%positive)) (mkVector 2 4 (Some 1%positive))
             [1; 2; 3]%Z [1; 2]%Z).
    - reflexivity.
    - reflexivity.
    - done.
    - reflexivity.
    - reflexivity.
    - simpl. by intros a [= <-]. }
  split_and!.
  - eexists. split; [vm_compute; reflexivity|].
    apply (proj1 (Hspec [])). vm_compute. reflexivity.
  - do 2 eexists. split; [vm_compute; reflexivity|].
    eapply (proj1 (proj2 (Hspec [false; true]))). vm_compute. reflexivity.
  - apply (proj2 (proj2 (Hspec []))).
Defined.

(** The six operators on [[1, 2]] and [[1, 2, 3]]. *)
Lemma comparison_operators_at_ints :
  ∃ eq lt gt : bool,
    op_eq 1%positive 2%positive ints = Ok eq ints ∧
    (eq = true ↔ same_elements [1; 2]%Z [1; 2; 3]%Z) ∧
    op_lt 1%positive 2%positive ints = Ok lt ints ∧
    (lt = true ↔ lex_lt [1; 2]%Z [1; 2; 3]%Z) ∧
    op_lt 2%positive 1%positive ints = Ok gt ints ∧
    (gt = true ↔ lex_lt [1; 2; 3]%Z [1; 2]%Z) ∧
    op_ne 1%positive 2%positive ints = Ok (negb eq) ints ∧
    op_gt 1%positive 2%positive ints = Ok gt ints ∧
    op_le 1%positive 2%positive ints = Ok (negb gt) ints ∧
    op_ge 1%positive 2%positive ints = Ok (negb lt) ints.
Proof.
  apply (proj1 comparison_operators Z Element_int 1%positive 2%positive ints
           (mkVector 2 4 (Some 1%positive)) (mkVector 3 3 (Some 2%positive)));
    reflexivity.
Defined.

(** An element of [[1, 2]] pushed onto the full vector [[1, 2, 3]], and
    7, 8, 9 pushed onto a new vector. *)
Lemma PushBack_outside_value_at_ints :
  (∃ s', PushBack 2%positive (Slot (Some 1%positive) 1) ints = Ok () s' ∧
   ∃ v', objs s' !! 2%positive = Some v' ∧
     size_ v' = 3 + 1 ∧
     elements s' v' = Some ([1; 2; 3]%Z ++ [2%Z]) ∧
     capacity_ v' = (if 3 =? 3 then N.max 1 (2 * 3) else 3)) ∧
  (∃ s', (Vector_default 6%positive ;;
          push_back_all 6%positive [ByCopy 7%Z; ByMove 8%Z; ByCopy 9%Z]) ints
           = Ok () s' ∧
   ∃ v', objs s' !! 6%positive = Some v' ∧
     size_ v' = 3 ∧ elements s' v' = Some [7; 8; 9]%Z).
Proof.
  split.
  - eexists. split; [vm_compute; reflexivity|].
    apply (proj1 (PushBack_outside_value (T:=Z)) 2%positive (Slot (Some 1%positive) 1)
             2%Z ints (mkVector 3 3 (Some 2%positive)) [1; 2; 3]%Z).
    + reflexivity.
    + rep_inv_compute.
    + reflexivity.
    + reflexivity.
    + simpl. done.
    + left. vm_compute. reflexivity.
  - eexists. split; [vm_compute; reflexivity|].
    apply (proj2 (PushBack_outside_value (T:=Z)) 6%positive
             [ByCopy 7%Z; ByMove 8%Z; ByCopy 9%Z] ints).
    vm_compute. reflexivity.
Defined.

(** On [Vector<int>]: [Resize(3)] within the capacity, whose new element
    has some value; [Resize(6, value)] beyond the capacity with an element
    of another vector; [Resize(1)] below the size.  On the full
    [Vector<std::vector<int>>]: [Resize(3)], whose new elements are empty
    vectors. *)
Lemma Resize_outside_value_at_ints :
  (∃ s', Resize 1%positive 3 ints = Ok () s' ∧
   ∃ v' y, objs s' !! 1%positive = Some v' ∧ size_ v' = 3 ∧
     elements s' v' = Some [1; 2; y]%Z ∧ capacity_ v' = 4) ∧
  (∃ s', Resize_value 1%positive 6 (Slot (Some 2%positive) 2) ints = Ok () s' ∧
   ∃ v', objs s' !! 1%positive = Some v' ∧ size_ v' = 6 ∧
     elements s' v' = Some [1; 2; 3; 3; 3; 3]%Z ∧ capacity_ v' = 6) ∧
  (∃ s', Resize 2%positive 1 ints = Ok () s' ∧
   ∃ v', objs s' !! 2%positive = Some v' ∧ size_ v' = 1 ∧
     elements s' v' = Some [1%Z] ∧ capacity_ v' = 3 ∧
     heap s' = <[2%positive := [Some 1; None; None]%Z]> (heap ints)) ∧
  (∃ s', Resize 1%positive 3 rows = Ok () s' ∧
   ∃ v', objs s' !! 1%positive = Some v' ∧ size_ v' = 3 ∧
     elements s' v' = Some [[1; 2; 3]%Z; []; []] ∧ capacity_ v' = 3).
Proof.
  split_and!.
  - eexists. split; [vm_compute; reflexivity|].
    destruct (proj1 (Resize_outside_value 1%positive 3 ints
                       (mkVector 2 4 (Some 1%positive)) [1; 2]%Z
                       eq_refl ltac:(rep_inv_compute) eq_refl eq_refl)
                _ ltac:(vm_compute; reflexivity))
      as (v' & xs & Hv' & Hsz & Hl & Hlen & _ & _ & Hin).
    destruct xs as [|y [|? ?]]; try discriminate Hlen.
    exists v', y. split_and!; [done..|]. apply Hin. simpl. lia.
  - eexists. split; [vm_compute; reflexivity|].
    destruct (proj2 (Resize_outside_value 1%positive 6 ints
                       (mkVector 2 4 (Some 1%positive)) [1; 2]%Z
                       eq_refl ltac:(rep_inv_compute) eq_refl eq_refl)
                (Slot (Some 2%positive) 2) 3%Z _ eq_refl ltac:(simpl; done)
                ltac:(vm_compute; reflexivity))
      as (v' & Hv' & Hsz & Hl & Hout & _).
    exists v'. split_and!; [done..|]. apply Hout. simpl. lia.
  - eexists. split; [vm_compute; reflexivity|].
    destruct (proj1 (Resize_outside_value 2%positive 1 ints
                       (mkVector 3 3 (Some 2%positive)) [1; 2; 3]%Z
                       eq_refl ltac:(rep_inv_compute) eq_refl eq_refl)
                _ ltac:(vm_compute; reflexivity))
      as (v' & xs & Hv' & Hsz & Hl & Hlen & _ & _ & Hin).
    destruct xs as [|? ?]; try discriminate Hlen.
    destruct Hin as (Hcap & _ & Hheap); [simpl; lia|].
    exists v'. split_and!; [done..|].
    apply (Hheap 2%positive []); reflexivity.
  - eexists. split; [vm_compute; reflexivity|].
    destruct (proj1 (Resize_outside_value 1%positive 3 rows
                       (mkVector 1 1 (Some 1%positive)) [[1; 2; 3]%Z]
                       eq_refl ltac:(rep_inv_compute) eq_refl eq_refl)
                _ ltac:(vm_compute; reflexivity))
      as (v' & xs & Hv' & Hsz & Hl & _ & Hdet & Hout & _).
    rewrite (Hdet eq_refl) in Hl.
    exists v'. split_and!; [done..|]. apply Hout. simpl. lia.
Defined.

(** ** Further properties at concrete vectors *)

(** [ints] where the next allocation fails. *)
Definition ints_no_memory : State Z :=
  mkState (objs ints) (heap ints) [] [true] leftover.

(** [Vector<int>(2)], whose two elements have some values;
    [Vector<std::vector<int>>(2)], whose elements are empty vectors; and
    [Vector<int>(3, value)] with an element of [[1, 2, 3]]. *)
Lemma sized_constructors_build_at_ints :
  (∃ s' y z, Vector_sized 6%positive 2 ints = Ok () s' ∧
             constructed 6%positive ints s' [y; z]) ∧
  (∃ s', Vector_sized 6%positive 2 rows = Ok () s' ∧
         constructed 6%positive rows s' [[]; []]) ∧
  (∃ s', Vector_fill 6%positive 3 (Slot (Some 2%positive) 2) ints = Ok () s' ∧
         constructed 6%positive ints s' (replicate (N.to_nat 3) 3%Z)).
Proof.
  split_and!.
  - eexists.
    destruct (proj1 (@sized_constructors_build Z Element_int 6%positive 2 ints _)
                ltac:(vm_compute; reflexivity))
      as (xs & Hlen & _ & Hc).
    destruct xs as [|y [|z [|? ?]]]; try discriminate Hlen.
    exists y, z. split; [vm_compute; reflexivity|exact Hc].
  - eexists. split; [vm_compute; reflexivity|].
    destruct (proj1 (@sized_constructors_build (list Z) Element_int_vector
                       6%positive 2 rows _)
                ltac:(vm_compute; reflexivity))
      as (xs & _ & Hdet & Hc).
    by rewrite (Hdet eq_refl) in Hc.
  - eexists. split; [vm_compute; reflexivity|].
    refine (proj2 (sized_constructors_build 6%positive 3 ints _)
              (Slot (Some 2%positive) 2) 3%Z _ _).
    + reflexivity.
    + vm_compute. reflexivity.
Defined.

(** [Vector{4, 5, 6}]. *)
Lemma range_constructors_build_at_ints :
  ∃ s', Vector_init_list 6%positive [4; 5; 6]%Z ints = Ok () s' ∧
        constructed 6%positive ints s' [4; 5; 6]%Z.
Proof.
  eexists. split; [vm_compute; reflexivity|].
  apply (range_constructors_build 6%positive [4; 5; 6]%Z ints).
  right. vm_compute. reflexivity.
Defined.



(** [Swap] of [[1, 2]] and [[1, 2, 3]]. *)
Lemma Swap_exchanges_at_ints :
  ∃ s', Swap 1%positive 2%positive ints = Ok () s' ∧
    objs s' !! 1%positive = Some (mkVector 3 3 (Some 2%positive)) ∧
    objs s' !! 2%positive = Some (mkVector 2 4 (Some 1%positive)) ∧
    (∀ k, k ≠ 1%positive → k ≠ 2%positive → objs s' !! k = objs ints !! k) ∧
    heap s' = heap ints ∧
    elements s' (mkVector 3 3 (Some 2%positive)) =
      elements ints (mkVector 3 3 (Some 2%positive)) ∧
    elements s' (mkVector 2 4 (Some 1%positive)) =
      elements ints (mkVector 2 4 (Some 1%positive)) ∧
    Swap 1%positive 2%positive s' = Ok () ints.
Proof.
  apply (Swap_exchanges 1%positive 2%positive ints); reflexivity.
Defined.

(** [Clear] on [[1, 2, 3]]. *)
Lemma Clear_keeps_storage_at_ints :
  ∃ s' v', Clear 2%positive ints = Ok () s' ∧
    objs s' !! 2%positive = Some v' ∧
    size_ v' = 0 ∧ capacity_ v' = 3 ∧ data_ v' = Some 2%positive ∧
    elements s' v' = Some [] ∧
    (∀ a b, Some 2%positive = Some a → heap ints !! a = Some b →
       heap s' !! a = Some (replicate 3 None ++ drop 3 b)) ∧
    (∀ a, Some 2%positive ≠ Some a → heap s' !! a = heap ints !! a) ∧
    Clear 2%positive s' = Ok () s'.
Proof.
  apply (Clear_keeps_storage 2%positive ints (mkVector 3 3 (Some 2%positive))
           [1; 2; 3]%Z); reflexivity.
Defined.


(** [EmplaceBack(7)] and [EmplaceBack(std::move(w[1]))], with [w] the
    vector [[1, 2]], on the full vector [[1, 2, 3]]. *)
Lemma EmplaceBack_appends_at_ints :
  (∃ s', EmplaceBack 2%positive (FromValues 7%Z) ints = Ok () s' ∧
   ∃ v', objs s' !! 2%positive = Some v' ∧
     size_ v' = 3 + 1 ∧
     elements s' v' = Some ([1; 2; 3]%Z ++ [7%Z]) ∧
     capacity_ v' = (if 3 =? 3 then N.max 1 (2 * 3) else 3)) ∧
  (∃ s', EmplaceBack 2%positive (FromMove (Slot (Some 1%positive) 1)) ints = Ok () s' ∧
   ∃ v', objs s' !! 2%positive = Some v' ∧
     size_ v' = 3 + 1 ∧
     elements s' v' = Some ([1; 2; 3]%Z ++ [2%Z]) ∧
     capacity_ v' = (if 3 =? 3 then N.max 1 (2 * 3) else 3)).
Proof.
  split.
  - eexists. split; [vm_compute; reflexivity|].
    apply (EmplaceBack_appends 2%positive (FromValues 7%Z) 7%Z ints
             (mkVector 3 3 (Some 2%positive)) [1; 2; 3]%Z).
    + reflexivity.
    + rep_inv_compute.
    + reflexivity.
    + reflexivity.
    + exact I.
    + vm_compute. reflexivity.
  - eexists. split; [vm_compute; reflexivity|].
    apply (EmplaceBack_appends 2%positive (FromMove (Slot (Some 1%positive) 1)) 2%Z ints
             (mkVector 3 3 (Some 2%positive)) [1; 2; 3]%Z).
    + reflexivity.
    + rep_inv_compute.
    + reflexivity.
    + reflexivity.
    + simpl. done.
    + vm_compute. reflexivity.
Defined.

(** [PushBack(7)] and [EmplaceBack(std::move(w[1]))], with [w] the vector
    [[1, 2]], on the full vector [[1, 2, 3]], then [PopBack]. *)
Lemma push_then_PopBack_at_ints :
  (∃ s1, PushBack 2%positive (Ext 7%Z) ints = Ok () s1 ∧
   ∃ s2 v2, PopBack 2%positive s1 = Ok () s2 ∧
     objs s2 !! 2%positive = Some v2 ∧ size_ v2 = 3 ∧
     elements s2 v2 = Some [1; 2; 3]%Z) ∧
  (∃ s1, EmplaceBack 2%positive (FromMove (Slot (Some 1%positive) 1)) ints
           = Ok () s1 ∧
   ∃ s2 v2, PopBack 2%positive s1 = Ok () s2 ∧
     objs s2 !! 2%positive = Some v2 ∧ size_ v2 = 3 ∧
     elements s2 v2 = Some [1; 2; 3]%Z).
Proof.
  split.
  - eexists. split; [vm_compute; reflexivity|].
    apply (push_then_PopBack 2%positive ints
             (mkVector 3 3 (Some 2%positive)) [1; 2; 3]%Z).
    + reflexivity.
    + rep_inv_compute.
    + reflexivity.
    + left. exists (Ext 7%Z), 7%Z. split_and!; [reflexivity|exact I|].
      left. vm_compute. reflexivity.
  - eexists. split; [vm_compute; reflexivity|].
    apply (push_then_PopBack 2%positive ints
             (mkVector 3 3 (Some 2%positive)) [1; 2; 3]%Z).
    + reflexivity.
    + rep_inv_compute.
    + reflexivity.
    + right. exists (FromMove (Slot (Some 1%positive) 1)), 2%Z.
      split_and!; [reflexivity|simpl; done|]. vm_compute. reflexivity.
Defined.

(** One [Vector<std::vector<int>>] holding [[1, 2, 3]] with a spare slot. *)
Definition rows_spare : State (list Z) :=
  mkState {[1%positive := mkVector 1 2 (Some 1%positive)]}
          {[1%positive := [Some [1; 2; 3]%Z; None]]} [] [] (λ _, []).

(** [v.PushBack(v[0])] on [[1, 2]] with capacity 4, and
    [v.EmplaceBack(std::move(v[0]))] on [rows_spare]: the new element is
    [[1, 2, 3]] and element 0 is left empty. *)
Lemma push_in_place_at_ints :
  (∃ s', PushBack 1%positive (Slot (Some 1%positive) 0) ints = Ok () s' ∧
   ∃ a b, Some 1%positive = Some a ∧ heap ints !! a = Some b ∧
     objs s' = <[1%positive := mkVector (2 + 1) 4 (Some a)]> (objs ints) ∧
     heap s' = <[a := <[2%nat := Some 1%Z]> b]> (heap ints)) ∧
  (∃ s', EmplaceBack 1%positive (FromMove (Slot (Some 1%positive) 0)) rows_spare
           = Ok () s' ∧
   heap s' = {[1%positive := [Some []; Some [1; 2; 3]%Z]]} ∧
   ∃ a b, Some 1%positive = Some a ∧ heap rows_spare !! a = Some b ∧
     objs s' = <[1%positive := mkVector (1 + 1) 2 (Some a)]> (objs rows_spare) ∧
     heap s' = <[a := <[1%nat := Some [1; 2; 3]%Z]>
                        (<[N.to_nat 0 := Some (moved_from [1; 2; 3]%Z)]> b)]>
                 (heap rows_spare)).
Proof.
  split.
  - eexists. split; [vm_compute; reflexivity|].
    apply (proj1 (push_in_place 1%positive ints (mkVector 2 4 (Some 1%positive))
                    [1; 2]%Z _ eq_refl ltac:(rep_inv_compute) eq_refl eq_refl)
             (Slot (Some 1%positive) 0) 1%Z).
    + reflexivity.
    + vm_compute. reflexivity.
  - eexists. split; [vm_compute; reflexivity|]. split; [by vm_compute|].
    apply (proj2 (proj2 (push_in_place 1%positive rows_spare
                           (mkVector 1 2 (Some 1%positive)) [[1; 2; 3]%Z] _
                           eq_refl ltac:(rep_inv_compute) eq_refl eq_refl))
             0 [1; 2; 3]%Z).
    + reflexivity.
    + right. vm_compute. reflexivity.
Defined.

(** [Reserve(8)] on [[1, 2]] with capacity 4. *)
Lemma Reserve_keeps_elements_at_ints :
  ∃ s', Reserve 1%positive 8 ints = Ok () s' ∧
  ∃ v', objs s' !! 1%positive = Some v' ∧
    size_ v' = 2 ∧ elements s' v' = Some [1; 2]%Z ∧
    (4 < 8 →
       (∃ a, data_ v' = Some a ∧ heap ints !! a = None) ∧
       (∀ a, Some 1%positive = Some a → heap s' !! a = None)).
Proof.
  eexists. split; [vm_compute; reflexivity|].
  refine (Reserve_keeps_elements 1%positive 8 ints
            (mkVector 2 4 (Some 1%positive)) [1; 2]%Z _ _ _ _).
  - reflexivity.
  - reflexivity.
  - vm_compute. reflexivity.
Defined.

(** Growth operations on [[1, 2]] (capacity 4) and on the full vector
    [[1, 2, 3]] when the allocation fails. *)
Lemma failed_allocation_changes_nothing_at_ints :
  Reserve 1%positive 8 ints_no_memory = Throw BadAlloc ints ∧
  Resize 1%positive 8 ints_no_memory = Throw BadAlloc ints ∧
  ShrinkToFit 1%positive ints_no_memory = Throw BadAlloc ints ∧
  PushBack 2%positive (Ext 7%Z) ints_no_memory = Throw BadAlloc ints ∧
  EmplaceBack 2%positive (FromValues 7%Z) ints_no_memory = Throw BadAlloc ints.
Proof.
  pose proof (failed_allocation_changes_nothing 1%positive ints_no_memory
                (mkVector 2 4 (Some 1%positive)) eq_refl eq_refl) as H1.
  pose proof (failed_allocation_changes_nothing 2%positive ints_no_memory
                (mkVector 3 3 (Some 2%positive)) eq_refl eq_refl) as H2.
  cbv zeta in H1, H2.
  destruct H1 as (Hgrow & _ & Hshrink).
  destruct H2 as (_ & Hpush & _).
  destruct (Hgrow 8 ltac:(simpl; lia)) as (Hreserve & Hresize & _).
  destruct (Hpush eq_refl ltac:(by vm_compute)) as (Hpb & Hemplace).
  split_and!.
  - exact Hreserve.
  - exact Hresize.
  - apply Hshrink. simpl. lia.
  - exact (proj1 (Hpb (Ext 7%Z))).
  - exact (Hemplace (FromValues 7%Z)).
Defined.

(** A copy of [[1, 2]]. *)
Lemma copy_constructor_copies_at_ints :
  ∃ s', Vector_copy 6%positive 1%positive ints = Ok () s' ∧
  ∃ v', objs s' !! 6%positive = Some v' ∧
    size_ v' = 2 ∧ capacity_ v' = 4 ∧
    elements s' v' = Some [1; 2]%Z ∧
    objs s' !! 1%positive = Some (mkVector 2 4 (Some 1%positive)) ∧
    elements s' (mkVector 2 4 (Some 1%positive)) = Some [1; 2]%Z ∧
    (∀ a, data_ v' = Some a → Some 1%positive ≠ Some a ∧ heap ints !! a = None) ∧
    ((∀ x, x ∈ [1; 2]%Z → (x =? x)%Z = true) →
       op_eq 6%positive 1%positive s' = Ok true s' ∧
       op_ne 6%positive 1%positive s' = Ok false s').
Proof.
  eexists. split; [vm_compute; reflexivity|].
  refine (copy_constructor_copies 6%positive 1%positive ints
            (mkVector 2 4 (Some 1%positive)) [1; 2]%Z _ _ _ _ _).
  - reflexivity.
  - done.
  - reflexivity.
  - vm_compute. reflexivity.
Defined.

(** A copy of [[1, 2]], destroyed again. *)
Lemma copy_then_destroy_at_ints :
  ∃ s1, Vector_copy 6%positive 1%positive ints = Ok () s1 ∧
  ∃ s2, Vector_dtor 6%positive s1 = Ok () s2 ∧
        objs s2 = objs ints ∧ heap s2 = heap ints.
Proof.
  eexists. split; [vm_compute; reflexivity|].
  refine (copy_then_destroy 6%positive 1%positive ints
            (mkVector 2 4 (Some 1%positive)) [1; 2]%Z _ _ _ _ _).
  - reflexivity.
  - reflexivity.
  - reflexivity.
  - vm_compute. reflexivity.
Defined.

(** [[1, 2]] moved into a new vector, and the source destroyed. *)
Lemma moved_from_destructor_at_ints :
  ∃ s1 s2, Vector_move 6%positive 1%positive ints = Ok () s1 ∧
    Vector_dtor 1%positive s1 = Ok () s2 ∧
    objs s2 !! 6%positive = Some (mkVector 2 4 (Some 1%positive)) ∧
    objs s2 !! 1%positive = None ∧
    heap s2 = heap ints ∧
    elements s2 (mkVector 2 4 (Some 1%positive)) = Some [1; 2]%Z.
Proof.
  apply (moved_from_destructor 6%positive 1%positive ints); [reflexivity|done|reflexivity].
Defined.


(** [Clear] and [ShrinkToFit] on [[1, 2, 3]]. *)
Lemma Clear_then_ShrinkToFit_at_ints :
  ∃ s1 s2, Clear 2%positive ints = Ok () s1 ∧ ShrinkToFit 2%positive s1 = Ok () s2 ∧
    objs s2 = <[2%positive := empty_vector]> (objs ints) ∧
    heap s2 = delete 2%positive (heap ints).
Proof.
  apply (Clear_then_ShrinkToFit 2%positive ints (mkVector 3 3 (Some 2%positive))
           [1; 2; 3]%Z); reflexivity.
Defined.

(** The observers on [[1, 2, 3]]. *)
Lemma observers_read_elements_at_ints :
  Size 2%positive ints = Ok 3 ints ∧
  Empty 2%positive ints = Ok false ints ∧
  Capacity 2%positive ints = Ok 3 ints ∧
  Data 2%positive ints = Ok (Some 2%positive) ints ∧
  begin_ 2%positive ints = Ok (Some 2%positive, 0) ints ∧
  end_ 2%positive ints = Ok (Some 2%positive, 3) ints ∧
  rbegin 2%positive ints = Ok (Some 2%positive, 3) ints ∧
  rend 2%positive ints = Ok (Some 2%positive, 0) ints ∧
  deref (advance (Some 2%positive, 0) 1) ints = Ok 2%Z ints ∧
  rderef (radvance (Some 2%positive, 3) 0) ints = Ok 3%Z ints.
Proof.
  destruct (observers_read_elements 2%positive ints (mkVector 3 3 (Some 2%positive))
              [1; 2; 3]%Z eq_refl eq_refl)
    as (? & ? & ? & ? & ? & ? & ? & ? & Hfwd & Hrev).
  split_and!; [assumption..|exact (Hfwd 1%nat 2%Z eq_refl)
               |exact (Hrev 0%nat 3%Z eq_refl)].
Defined.

(** Element access on [[1, 2, 3]] and on the vector without storage. *)
Lemma element_access_at_ints :
  index 2%positive 1 ints = Ok 2%Z ints ∧ At 2%positive 1 ints = Ok 2%Z ints ∧
  Front 2%positive ints = Ok 1%Z ints ∧
  Back 2%positive ints = Ok 3%Z ints ∧
  index 4%positive 0 ints = Undefined ∧
  At 4%positive 0 ints = Throw ArrayOutOfRange ints ∧
  Front 4%positive ints = Undefined ∧ Back 4%positive ints = Undefined.
Proof.
  destruct (element_access 2%positive ints (mkVector 3 3 (Some 2%positive))
              [1; 2; 3]%Z eq_refl ltac:(rep_inv_compute) eq_refl)
    as (Hidx & Hfront & Hback & _).
  destruct (element_access 4%positive ints (mkVector 0 0 None)
              [] eq_refl ltac:(rep_inv_compute) eq_refl)
    as (_ & _ & _ & Hnull).
  destruct (Hnull eq_refl) as (Hi & Hf & Hb).
  split_and!.
  - exact (proj1 (Hidx 1 2%Z eq_refl)).
  - exact (proj2 (Hidx 1 2%Z eq_refl)).
  - exact (Hfront 1%Z eq_refl).
  - exact (Hback 3%Z eq_refl).
  - exact (proj1 (Hi 0)).
  - exact (proj2 (Hi 0)).
  - exact Hf.
  - exact Hb.
Defined.

Lemma Z_ltb_asym (x y : Z) : (x <? y)%Z = true → (y <? x)%Z = false.
Proof. intros Hxy. apply Z.ltb_ge. apply Z.ltb_lt in Hxy. lia. Qed.

(** The ordering operators on [[1, 2]] and [[1, 2, 3]]. *)
Lemma ordering_is_strict_at_ints :
  (op_lt 1%positive 2%positive ints = Ok true ints →
     op_lt 2%positive 1%positive ints = Ok false ints ∧
     op_gt 1%positive 2%positive ints = Ok false ints ∧
     op_le 1%positive 2%positive ints = Ok true ints ∧
     op_ge 1%positive 2%positive ints = Ok false ints) ∧
  (op_le 1%positive 2%positive ints = Ok true ints ∨
   op_ge 1%positive 2%positive ints = Ok true ints) ∧
  (op_lt 1%positive 1%positive ints = Ok false ints ∧
   op_gt 1%positive 1%positive ints = Ok false ints ∧
   op_le 1%positive 1%positive ints = Ok true ints ∧
   op_ge 1%positive 1%positive ints = Ok true ints).
Proof.
  apply (ordering_is_strict 1%positive 2%positive ints
           (mkVector 2 4 (Some 1%positive)) (mkVector 3 3 (Some 2%positive))
           [1; 2]%Z [1; 2; 3]%Z); try reflexivity.
  exact Z_ltb_asym.
Defined.

(** [operator==] on [[1, 2]], [[1, 2, 3]] and [[1, 3]]. *)
Lemma equality_is_equivalence_at_ints :
  op_eq 1%positive 1%positive ints = Ok true ints ∧
  op_eq 1%positive 2%positive ints = op_eq 2%positive 1%positive ints ∧
  (op_eq 1%positive 2%positive ints = Ok true ints →
   op_eq 2%positive 3%positive ints = Ok true ints →
   op_eq 1%positive 3%positive ints = Ok true ints) ∧
  ((∀ x y, (x =? y)%Z = true → (x <? y)%Z = false ∧ (y <? x)%Z = false) →
   op_eq 1%positive 2%positive ints = Ok true ints →
     op_lt 1%positive 2%positive ints = Ok false ints ∧
     op_gt 1%positive 2%positive ints = Ok false ints ∧
     op_le 1%positive 2%positive ints = Ok true ints ∧
     op_ge 1%positive 2%positive ints = Ok true ints).
Proof.
  refine (equality_is_equivalence 1%positive 2%positive 3%positive ints
            (mkVector 2 4 (Some 1%positive)) (mkVector 3 3 (Some 2%positive))
            (mkVector 2 2 (Some 3%positive)) [1; 2]%Z [1; 2; 3]%Z [1; 3]%Z
            eq_refl eq_refl eq_refl eq_refl eq_refl eq_refl _ _ _).
  - exact Z.eqb_refl.
  - exact Z.eqb_sym.
  - intros x y z Hxy%Z.eqb_eq Hyz%Z.eqb_eq. apply Z.eqb_eq. lia.
Defined.

(** [v.Resize(4, v[0])] on [[1, 2]] with capacity 4. *)
Lemma Resize_with_own_element_at_ints :
  ∃ s', Resize_value 1%positive 4 (Slot (Some 1%positive) 0) ints = Ok () s' ∧
  ∃ v', objs s' !! 1%positive = Some v' ∧ size_ v' = 4 ∧
    capacity_ v' = 4 ∧ data_ v' = Some 1%positive ∧
    elements s' v' = Some [1; 2; 1; 1]%Z.
Proof.
  eexists. split; [vm_compute; reflexivity|].
  refine (Resize_with_own_element 1%positive 4 0 1%Z ints
            (mkVector 2 4 (Some 1%positive)) [1; 2]%Z _ _ _ _ _ _ _ _).
  - reflexivity.
  - rep_inv_compute.
  - reflexivity.
  - simpl. lia.
  - simpl. lia.
  - reflexivity.
  - vm_compute. reflexivity.
Defined.

(** [Reserve(2^62)] on the empty [Vector<int>]: [2^62 * 4] bytes wrap to 0. *)
Lemma Reserve_size_overflow_at_ints :
  ∃ a slots,
    Reserve 4%positive (2 ^ 62) ints =
      Ok () (mkState (<[4%positive := mkVector 0 (2 ^ 62) (Some a)]> (objs ints))
               (<[a := replicate slots None]> (heap ints)) [] [] leftover) ∧
    heap ints !! a = None ∧
    slots = N.to_nat (SizeT.wrap (2 ^ 62 * 4) / 4) ∧
    N.of_nat slots < 2 ^ 62.
Proof.
  refine (Reserve_size_overflow 4%positive (2 ^ 62) ints _ _ _ _).
  - reflexivity.
  - by vm_compute.
  - by vm_compute.
  - by vm_compute.
Defined.

Lemma stored_ints_full : stored ints (mkVector 3 3 (Some 2%positive)) [1; 2; 3]%Z.
Proof. unfold stored. simpl. split_and!; by vm_compute. Qed.

Lemma stored_ints_spare : stored ints (mkVector 2 4 (Some 1%positive)) [1; 2]%Z.
Proof. unfold stored. simpl. split_and!; by vm_compute. Qed.

Lemma quiet_ints : quiet ints.
Proof. by split. Qed.

(** A tail insertion of 7 on the full vector [[1, 2, 3]]. *)
Lemma tail_insertion_returns_at_ints :
  ∃ s' v',
    EmplaceBack 2%positive (FromValues 7%Z) ints = Ok () s' ∧
    EmplaceBack 2%positive (FromCopy (Ext 7%Z)) ints = Ok () s' ∧
    EmplaceBack 2%positive (FromMove (Ext 7%Z)) ints = Ok () s' ∧
    PushBack 2%positive (Ext 7%Z) ints = Ok () s' ∧
    PushBack_move 2%positive (Ext 7%Z) ints = Ok () s' ∧
    objs s' !! 2%positive = Some v' ∧ stored s' v' ([1; 2; 3]%Z ++ [7%Z]) ∧ quiet s'.
Proof.
  refine (tail_insertion_returns 2%positive 7%Z ints (mkVector 3 3 (Some 2%positive))
            [1; 2; 3]%Z _ _ _ _).
  - reflexivity.
  - exact stored_ints_full.
  - exact quiet_ints.
  - intros _. by vm_compute.
Defined.

(** [Reserve(8)] on [[1, 2]] with capacity 4. *)
Lemma Reserve_returns_at_ints :
  ∃ s' v', Reserve 1%positive 8 ints = Ok () s' ∧
    objs s' !! 1%positive = Some v' ∧ stored s' v' [1; 2]%Z ∧ quiet s' ∧
    capacity_ v' = N.max 4 8.
Proof.
  refine (Reserve_returns 1%positive 8 ints (mkVector 2 4 (Some 1%positive))
            [1; 2]%Z _ _ _ _).
  - reflexivity.
  - exact stored_ints_spare.
  - exact quiet_ints.
  - by vm_compute.
Defined.

(** A new vector and three pushes. *)
Lemma pushes_return_at_ints :
  ∃ s' v', (Vector_default 6%positive ;;
            push_back_all 6%positive [ByCopy 7%Z; ByMove 8%Z; ByCopy 9%Z]) ints
             = Ok () s' ∧
    objs s' !! 6%positive = Some v' ∧ stored s' v' [7; 8; 9]%Z ∧ quiet s' ∧
    size_ v' = 3.
Proof.
  refine (pushes_return 6%positive [ByCopy 7%Z; ByMove 8%Z; ByCopy 9%Z] ints _ _).
  - exact quiet_ints.
  - by vm_compute.
Defined.

(** [PushBack] on the full vector [rows] where the copy of the new element
    throws after the transfer. *)
Lemma failed_insertion_keeps_members_at_rows :
  ∃ e s', PushBack 1%positive (Ext [7%Z]) (with_ctor_faults rows [false; true])
            = Throw e s' ∧
    objs s' = objs rows ∧
    (∀ a, Some 1%positive ≠ Some a → heap s' !! a = heap rows !! a) ∧
    (elements s' (mkVector 1 1 (Some 1%positive)) = Some [[1; 2; 3]%Z] ∨
     elements s' (mkVector 1 1 (Some 1%positive)) =
       Some (moved_from <$> [[1; 2; 3]%Z])).
Proof.
  do 2 eexists. split; [vm_compute; reflexivity|].
  refine (failed_insertion_keeps_members 1%positive
            (with_ctor_faults rows [false; true])
            (mkVector 1 1 (Some 1%positive)) [[1; 2; 3]%Z] _ _ _ _ _).
  - reflexivity.
  - reflexivity.
  - left. exists (Ext [7%Z]). vm_compute. reflexivity.
Defined.
